(** * secp256k1_wrapper: key generation, public-key derivation, randomness

    A shallow embedding of [src/secp256k1_wrapper.c] (Linux/FreeBSD build)
    and of the constants of [include/secp256k1_wrapper.h].

    - Caller memory is a flat byte-addressed store; pointers are addresses
      and [NULL] is address 0, so that two pointer arguments may alias.
    - The stack arrays [randomize] and [privkey] of
      [secp256k1_wrapper_generate_keys] are values of a frame; what they hold
      when the function returns is part of the result.
    - The kernel (getrandom, open, read) is an oracle threaded through the
      calls; libsecp256k1 is an interface of operations, as in secp256k1.h.
    - Every call to the kernel or to the library is logged in a trace. *)

From Stdlib Require Import ZArith List Lia Bool.
From Stdlib.Strings Require Import Byte.
Import ListNotations.
Open Scope Z_scope.

(** ** Constants of include/secp256k1_wrapper.h *)

Definition PRIVKEY_SIZE : Z := 32.
Definition PUBKEY_COMPRESSION_SIZE : Z := 33.
Definition PUBKEY_UNCOMPRESSION_SIZE : Z := 65.

(** Constants of secp256k1.h and errno.h, which the wrapper only passes on
    or compares with. *)

Definition SECP256K1_CONTEXT_SIGN : Z := 513.
Definition SECP256K1_EC_COMPRESSED : Z := 258.
Definition SECP256K1_EC_UNCOMPRESSED : Z := 2.
Definition ENOSYS : Z := 38.
Definition SIZE_MAX : Z := 2 ^ 64 - 1.

(** ** Byte buffers *)

Definition zeros (n : nat) : list byte := repeat x00 n.

(** [blit buf off bs]: the array [buf] after [bs] has been written at
    offset [off]; a write never runs past the end of the array. *)
Fixpoint blit (buf : list byte) (off : nat) (bs : list byte) : list byte :=
  match buf with
  | [] => []
  | b :: buf' =>
      match off with
      | S off' => b :: blit buf' off' bs
      | O =>
          match bs with
          | [] => buf
          | x :: bs' => x :: blit buf' O bs'
          end
      end
  end.

(** An array of exactly [n] bytes holding [bs], zero-filled behind it. *)
Definition fit (n : nat) (bs : list byte) : list byte :=
  firstn n (bs ++ zeros n).

(** ** Caller memory *)

Definition memory := Z -> byte.

Definition NULL : Z := 0.

Definition load_bytes (m : memory) (p : Z) (n : nat) : list byte :=
  map (fun i => m (p + Z.of_nat i)) (seq 0 n).

Definition store_bytes (m : memory) (p : Z) (bs : list byte) : memory :=
  fun a =>
    if (p <=? a) && (a <? p + Z.of_nat (length bs))
    then nth (Z.to_nat (a - p)) bs x00
    else m a.

(** ** The kernel as an oracle

    [getrandom] either fails with an errno or delivers a chunk of bytes;
    [read] either fails or delivers a chunk (the empty chunk is end of
    file). Both return the number of bytes they transferred, at most the
    count asked for. The n-th call of each kind takes the n-th answer. *)

Inductive sys_result :=
| SysErr (errno : Z)
| SysData (chunk : list byte).

Record OS := {
  os_getrandom : nat -> sys_result;
  os_open : nat -> Z;
  os_read : nat -> sys_result
}.

Inductive event :=
| EvGetrandom (size : Z)
| EvOpen
| EvRead (count : Z)
| EvClose
| EvContextCreate (flags : Z)
| EvContextRandomize (ret : Z)
| EvContextDestroy
| EvSeckeyVerify (ret : Z)
| EvPubkeyCreate (ret : Z)
| EvPubkeySerialize (ret : Z).

Record world := {
  mem : memory;
  os : OS;
  stack : nat -> byte;
  trace : list event
}.

Definition log (e : event) (w : world) : world :=
  {| mem := mem w; os := os w; stack := stack w; trace := trace w ++ [e] |}.

Definition with_mem (m : memory) (w : world) : world :=
  {| mem := m; os := os w; stack := stack w; trace := trace w |}.

Definition with_os (o : OS) (w : world) : world :=
  {| mem := mem w; os := o; stack := stack w; trace := trace w |}.

(** The bytes a transfer of at most [count] bytes moves, and its return
    value; [errno] is meaningful when the return value is -1. *)
Definition transfer (r : sys_result) (count : Z) : Z * Z * list byte :=
  match r with
  | SysErr e => (-1, e, [])
  | SysData chunk =>
      let got := firstn (Z.to_nat count) chunk in
      (Z.of_nat (length got), 0, got)
  end.

Definition sys_getrandom (w : world) (size : Z) : Z * Z * list byte * world :=
  let o := os w in
  let o' := {| os_getrandom := fun i => os_getrandom o (S i);
               os_open := os_open o; os_read := os_read o |} in
  (transfer (os_getrandom o O) size, log (EvGetrandom size) (with_os o' w)).

Definition sys_open (w : world) : Z * world :=
  let o := os w in
  let o' := {| os_getrandom := os_getrandom o;
               os_open := fun i => os_open o (S i); os_read := os_read o |} in
  (os_open o O, log EvOpen (with_os o' w)).

Definition sys_read (w : world) (count : Z) : Z * Z * list byte * world :=
  let o := os w in
  let o' := {| os_getrandom := os_getrandom o;
               os_open := os_open o; os_read := fun i => os_read o (S i) |} in
  (transfer (os_read o O) count, log (EvRead count) (with_os o' w)).

Definition sys_close (w : world) : world := log EvClose w.

(** ** secp256k1_wrapper_fill_random, Linux/FreeBSD branch

    The result is [None] only when the loop below runs out of fuel. *)

(** [while (off < size) { r = read(fd, data + off, size - off); ... }] *)
Fixpoint read_loop (fuel : nat) (w : world) (data : list byte) (size off : Z)
  : option (Z * list byte * world) :=
  if off <? size then
    match fuel with
    | O => None
    | S fuel' =>
        let '(r, _, got, w1) := sys_read w (size - off) in
        let data1 := blit data (Z.to_nat off) got in
        if r <=? 0 then Some (0, data1, sys_close w1)
        else read_loop fuel' w1 data1 size ((off + r) mod (SIZE_MAX + 1))
    end
  else Some (1, data, sys_close w).

Definition secp256k1_wrapper_fill_random (w : world) (data : list byte) (size : Z)
  : option (Z * list byte * world) :=
  let '(res, errno, got, w1) := sys_getrandom w size in
  let data1 := blit data O got in
  if (res =? -1) && (errno =? ENOSYS) then
    let '(fd, w2) := sys_open w1 in
    if fd <? 0 then Some (0, data1, w2)
    else read_loop (Z.to_nat size) w2 data1 size 0
  else Some (if (0 <=? res) && (res =? size) then 1 else 0, data1, w1).

(** ** libsecp256k1 as an interface

    The operations of secp256k1.h the wrapper calls, each a function of its
    arguments: the library keeps no state outside the context object. A C
    [int] result is a [Z]; a pointer result is an [option]; an object
    written through a pointer is returned next to the [int].
    [secp256k1_ec_pubkey_serialize] is given [*outputlen] and the flags and
    returns the encoding; the library zero-fills the [*outputlen] bytes of
    [output] before it encodes, so a call defines that whole region (see
    [serialize_into]). *)

Record libsecp256k1 := {
  secp256k1_context : Type;
  secp256k1_pubkey : Type;
  secp256k1_context_create : Z -> option secp256k1_context;
  secp256k1_context_randomize :
    secp256k1_context -> list byte -> Z * secp256k1_context;
  secp256k1_ec_seckey_verify : secp256k1_context -> list byte -> Z;
  secp256k1_ec_pubkey_create :
    secp256k1_context -> list byte -> Z * secp256k1_pubkey;
  secp256k1_ec_pubkey_serialize :
    secp256k1_context -> secp256k1_pubkey -> Z -> Z -> Z * list byte
}.

(** ** The wrapper *)

Record frame := {
  fr_randomize : list byte;
  fr_privkey : list byte
}.

Record gen_result := {
  g_ret : Z;
  g_world : world;
  g_frame : frame
}.

(** An uninitialised stack array: whatever bytes lie on the stack. *)
Definition uninit (w : world) (off n : nat) : list byte :=
  map (stack w) (seq off n).

Definition secure_memzero (p : list byte) (n : Z) : list byte :=
  blit p O (zeros (Z.to_nat n)).

Definition memcpy (m : memory) (dst : Z) (src : list byte) (n : Z) : memory :=
  store_bytes m dst (firstn (Z.to_nat n) src).

Definition serialize_into (m : memory) (output : Z) (outputlen : Z)
  (enc : list byte) : memory :=
  store_bytes m output (fit (Z.to_nat outputlen) enc).

Definition invalid_args (p1 p2 compressed : Z) : bool :=
  (p1 =? NULL) || (p2 =? NULL)
  || (negb (compressed =? 0) && negb (compressed =? 1)).

Definition pubkey_len_of (compressed : Z) : Z :=
  if compressed =? 0 then PUBKEY_UNCOMPRESSION_SIZE
  else PUBKEY_COMPRESSION_SIZE.

Definition flags_of (compressed : Z) : Z :=
  if compressed =? 0 then SECP256K1_EC_UNCOMPRESSED
  else SECP256K1_EC_COMPRESSED.

Section Wrapper.

Variable lib : libsecp256k1.

Abbreviation context := (secp256k1_context lib).

Definition context_destroy (w : world) : world := log EvContextDestroy w.

(** [do { if (!fill_random(privkey, 32)) { ...; return -3; } }
     while (!secp256k1_ec_seckey_verify(ctx, privkey));]
    The flag is [false] when the draw failed and [true] when the candidate
    was accepted; [None] is running out of fuel. *)
Fixpoint draw_privkey (fuel : nat) (ctx : context) (w : world)
  (privkey : list byte) : option (bool * list byte * world) :=
  match fuel with
  | O => None
  | S fuel' =>
      match secp256k1_wrapper_fill_random w privkey PRIVKEY_SIZE with
      | None => None
      | Some (r, privkey1, w1) =>
          if r =? 0 then Some (false, privkey1, w1)
          else
            let v := secp256k1_ec_seckey_verify lib ctx privkey1 in
            let w2 := log (EvSeckeyVerify v) w1 in
            if v =? 0 then draw_privkey fuel' ctx w2 privkey1
            else Some (true, privkey1, w2)
      end
  end.

Definition returning (ret : Z) (w : world) (randomize privkey : list byte)
  : option gen_result :=
  Some {| g_ret := ret; g_world := w;
          g_frame := {| fr_randomize := randomize; fr_privkey := privkey |} |}.

Definition secp256k1_wrapper_generate_keys (fuel : nat) (w : world)
  (privkey_out pubkey_out compressed : Z) : option gen_result :=
  let randomize0 := uninit w 0 (Z.to_nat PRIVKEY_SIZE) in
  let privkey0 := uninit w (Z.to_nat PRIVKEY_SIZE) (Z.to_nat PRIVKEY_SIZE) in
  if invalid_args privkey_out pubkey_out compressed then
    returning (-1) w randomize0 privkey0
  else
    let pubkey_len := pubkey_len_of compressed in
    let flags := flags_of compressed in
    let w := log (EvContextCreate SECP256K1_CONTEXT_SIGN) w in
    match secp256k1_context_create lib SECP256K1_CONTEXT_SIGN with
    | None => returning (-2) w randomize0 privkey0
    | Some ctx =>
        match secp256k1_wrapper_fill_random w randomize0 PRIVKEY_SIZE with
        | None => None
        | Some (r, randomize, w) =>
            if r =? 0 then
              returning (-3) (context_destroy w) randomize privkey0
            else
              let '(ok, ctx) := secp256k1_context_randomize lib ctx randomize in
              let w := log (EvContextRandomize ok) w in
              if ok =? 0 then
                returning (-2) (context_destroy w)
                  (secure_memzero randomize PRIVKEY_SIZE) privkey0
              else
                let randomize := secure_memzero randomize PRIVKEY_SIZE in
                match draw_privkey fuel ctx w privkey0 with
                | None => None
                | Some (false, privkey, w) =>
                    returning (-3) (context_destroy w) randomize privkey
                | Some (true, privkey, w) =>
                    let '(ok, pubkey) :=
                      secp256k1_ec_pubkey_create lib ctx privkey in
                    let w := log (EvPubkeyCreate ok) w in
                    if ok =? 0 then
                      returning (-5) (context_destroy w) randomize
                        (secure_memzero privkey PRIVKEY_SIZE)
                    else
                      let '(ok, enc) :=
                        secp256k1_ec_pubkey_serialize lib ctx pubkey
                          pubkey_len flags in
                      let w :=
                        log (EvPubkeySerialize ok)
                          (with_mem
                             (serialize_into (mem w) pubkey_out pubkey_len enc)
                             w) in
                      if ok =? 0 then
                        returning (-5) (context_destroy w) randomize
                          (secure_memzero privkey PRIVKEY_SIZE)
                      else
                        let w :=
                          with_mem
                            (memcpy (mem w) privkey_out privkey PRIVKEY_SIZE)
                            w in
                        returning 0 (context_destroy w) randomize
                          (secure_memzero privkey PRIVKEY_SIZE)
                end
        end
    end.

Definition secp256k1_wrapper_derive_pubkey (w : world)
  (privkey pubkey_out compressed : Z) : Z * world :=
  if invalid_args privkey pubkey_out compressed then (-1, w)
  else
    let pubkey_len := pubkey_len_of compressed in
    let flags := flags_of compressed in
    let w := log (EvContextCreate SECP256K1_CONTEXT_SIGN) w in
    match secp256k1_context_create lib SECP256K1_CONTEXT_SIGN with
    | None => (-2, w)
    | Some ctx =>
        let v :=
          secp256k1_ec_seckey_verify lib ctx
            (load_bytes (mem w) privkey (Z.to_nat PRIVKEY_SIZE)) in
        let w := log (EvSeckeyVerify v) w in
        if v =? 0 then (-5, context_destroy w)
        else
          let '(ok, pubkey) :=
            secp256k1_ec_pubkey_create lib ctx
              (load_bytes (mem w) privkey (Z.to_nat PRIVKEY_SIZE)) in
          let w := log (EvPubkeyCreate ok) w in
          if ok =? 0 then (-5, context_destroy w)
          else
            let '(ok, enc) :=
              secp256k1_ec_pubkey_serialize lib ctx pubkey pubkey_len flags in
            let w :=
              log (EvPubkeySerialize ok)
                (with_mem (serialize_into (mem w) pubkey_out pubkey_len enc) w)
            in
            if ok =? 0 then (-5, context_destroy w)
            else (0, context_destroy w)
    end.

End Wrapper.

(** ** The curve validity predicate *)

Definition byte_val (b : byte) : Z := Z.of_N (Byte.to_N b).

Definition scalar_of_bytes (bs : list byte) : Z :=
  fold_left (fun acc b => acc * 256 + byte_val b) bs 0.

(** The order of the secp256k1 group. *)
Definition curve_order : Z :=
  0xFFFFFFFFFFFFFFFFFFFFFFFFFFFFFFFEBAAEDCE6AF48A03BBFD25E8CD0364141.

(** Modelled from the spec: secp256k1_ec_seckey_verify belongs to
    libsecp256k1, which is not part of the repository. The glossary defines
    the curve validity predicate as "the check that a 32-byte value is a
    nonzero scalar less than the elliptic curve's group order"; the scalar
    is the big-endian value of the bytes. *)
Definition curve_valid (k : list byte) : Prop :=
  length k = 32%nat /\ 0 < scalar_of_bytes k < curve_order.

Definition curve_validb (k : list byte) : bool :=
  (length k =? 32)%nat
  && (0 <? scalar_of_bytes k) && (scalar_of_bytes k <? curve_order).

(** The library's validity check decides the predicate, whatever the
    context. *)
Definition verify_is_curve_valid (lib : libsecp256k1) : Prop :=
  forall ctx k, secp256k1_ec_seckey_verify lib ctx k <> 0 <-> curve_valid k.

(** The library computes the same results in every context: context
    randomization blinds the computation, not its outcome. *)
Definition context_independent (lib : libsecp256k1) : Prop :=
  (forall c1 c2 k,
      secp256k1_ec_seckey_verify lib c1 k = secp256k1_ec_seckey_verify lib c2 k)
  /\ (forall c1 c2 k,
      secp256k1_ec_pubkey_create lib c1 k = secp256k1_ec_pubkey_create lib c2 k)
  /\ (forall c1 c2 pk len flags,
      secp256k1_ec_pubkey_serialize lib c1 pk len flags
      = secp256k1_ec_pubkey_serialize lib c2 pk len flags).

(** ** Traces

    What the statements below say about the events of a call. *)

Definition is_syscall (e : event) : Prop :=
  match e with
  | EvGetrandom _ | EvOpen | EvRead _ | EvClose => True
  | _ => False
  end.

Definition is_draw_event (e : event) : Prop :=
  is_syscall e \/ exists v, e = EvSeckeyVerify v.

(** [logged P w w']: the trace of [w'] is the trace of [w] followed by
    events that all satisfy [P]. *)
Definition logged (P : event -> Prop) (w w' : world) : Prop :=
  exists evs, trace w' = trace w ++ evs /\ Forall P evs.

Record quiet (w w' : world) : Prop := {
  quiet_mem : mem w' = mem w;
  quiet_stack : stack w' = stack w;
  quiet_trace : logged is_syscall w w'
}.

Definition new_events (w w' : world) : list event :=
  skipn (length (trace w)) (trace w').

(** Failed public-key creation and failed serialization, as they appear in
    the trace. *)
Definition pubkey_failure (e : event) : Prop :=
  e = EvPubkeyCreate 0 \/ e = EvPubkeySerialize 0.

Definition no_pubkey_failure (e : event) : Prop := ~ pubkey_failure e.

(** ** The /dev/urandom loop, stated over the answers of [read]

    [filled_from rd size off k] is the number of bytes in the buffer after
    [k] reads, when the buffer held [off] bytes before them, the answers of
    [read] are [rd] and each read asks for what is still missing. *)

Definition read_ret (rd : nat -> sys_result) (size off : Z) (i : nat) : Z :=
  fst (fst (transfer (rd i) (size - off))).

Definition read_data (rd : nat -> sys_result) (size off : Z) (i : nat)
  : list byte :=
  snd (transfer (rd i) (size - off)).

Fixpoint filled_from (rd : nat -> sys_result) (size off : Z) (k : nat) : Z :=
  match k with
  | O => off
  | S k' =>
      filled_from rd size off k'
      + read_ret rd size (filled_from rd size off k') k'
  end.

(** The bytes the first [k] reads delivered, in order. *)
Fixpoint delivered_from (rd : nat -> sys_result) (size off : Z) (k : nat)
  : list byte :=
  match k with
  | O => []
  | S k' =>
      delivered_from rd size off k'
      ++ read_data rd size (filled_from rd size off k') k'
  end.

Definition progress_from (rd : nat -> sys_result) (size off : Z) (k : nat)
  : Prop :=
  forall i, (i < k)%nat -> 0 < read_ret rd size (filled_from rd size off i) i.

(** The first [k] reads each deliver something and together fill the
    buffer. *)
Definition urandom_fills (rd : nat -> sys_result) (size : Z) (k : nat) : Prop :=
  progress_from rd size 0 k /\ filled_from rd size 0 k = size.

(** The first [k] reads each deliver something, the buffer is not full yet,
    and the next read fails or is at end of file. *)
Definition urandom_fails (rd : nat -> sys_result) (size : Z) (k : nat) : Prop :=
  progress_from rd size 0 k
  /\ filled_from rd size 0 k < size
  /\ read_ret rd size (filled_from rd size 0 k) k <= 0.

Definition skip_first {A : Type} (f : nat -> A) : nat -> A := fun i => f (S i).

(** ** A small instance of the interface, and concrete worlds

    [toy] stands in for the library where a statement is evaluated: its
    validity check is [curve_validb], its "point" is the scalar itself, and
    each operation can be switched to fail. *)

Record toy_switches := {
  create_context_ok : bool;
  randomize_ok : bool;
  pubkey_create_ok : bool;
  serialize_ok : bool
}.

Definition all_ok : toy_switches :=
  {| create_context_ok := true; randomize_ok := true;
     pubkey_create_ok := true; serialize_ok := true |}.

Definition create_fails : toy_switches :=
  {| create_context_ok := true; randomize_ok := true;
     pubkey_create_ok := false; serialize_ok := true |}.

Definition serialize_fails : toy_switches :=
  {| create_context_ok := true; randomize_ok := true;
     pubkey_create_ok := true; serialize_ok := false |}.

Definition int_of_bool (b : bool) : Z := if b then 1 else 0.

Definition byte_of_Z (z : Z) : byte :=
  match Byte.of_N (Z.to_N (z mod 256)) with
  | Some b => b
  | None => x00
  end.

Fixpoint be_bytes (n : nat) (z : Z) : list byte :=
  match n with
  | O => []
  | S n' => be_bytes n' (z / 256) ++ [byte_of_Z z]
  end.

Definition toy (s : toy_switches) : libsecp256k1 :=
  {| secp256k1_context := list byte;
     secp256k1_pubkey := Z;
     secp256k1_context_create :=
       fun _ => if create_context_ok s then Some [] else None;
     secp256k1_context_randomize :=
       fun _ seed => (int_of_bool (randomize_ok s), seed);
     secp256k1_ec_seckey_verify := fun _ k => int_of_bool (curve_validb k);
     secp256k1_ec_pubkey_create :=
       fun _ k =>
         if pubkey_create_ok s && curve_validb k
         then (1, scalar_of_bytes k) else (0, 0);
     secp256k1_ec_pubkey_serialize :=
       fun _ pk len flags =>
         if serialize_ok s then
           (1, if flags =? SECP256K1_EC_COMPRESSED
               then byte_of_Z (2 + pk mod 2) :: be_bytes 32 pk
               else x04 :: be_bytes 32 pk ++ be_bytes 32 (pk * pk mod curve_order))
         else (0, []) |}.

(** A kernel whose [getrandom] answers come from a list and fail with [EIO]
    once the list is used up; [open] and [read] likewise. *)
Definition EIO : Z := 5.

Definition scripted_os (gr : list sys_result) (fds : list Z)
  (rd : list sys_result) : OS :=
  {| os_getrandom := fun i => nth i gr (SysErr EIO);
     os_open := fun i => nth i fds (-1);
     os_read := fun i => nth i rd (SysErr EIO) |}.

Definition no_entropy : OS := scripted_os [] [] [].

Definition world_of (m : memory) (o : OS) : world :=
  {| mem := m; os := o; stack := fun _ => xaa; trace := [] |}.

Definition blank : memory := fun _ => x00.

Definition seed_bytes : list byte := repeat x5a 32.
Definition key_one : list byte := zeros 31 ++ [x01].
Definition key_ff : list byte := repeat xff 32.

(** The caller's key buffer is at address 100, the output buffer at 200. *)
Definition w_zero_key : world := world_of blank no_entropy.
Definition w_key_one : world := world_of (store_bytes blank 100 key_one) no_entropy.

(** getrandom delivers a seed, a candidate above the group order, then the
    key 1. *)
Definition w_second_draw : world :=
  world_of blank
    (scripted_os [SysData seed_bytes; SysData key_ff; SysData key_one] [] []).

(** getrandom delivers a seed and a candidate above the group order, then
    fails. *)
Definition w_draw_fails : world :=
  world_of blank
    (scripted_os [SysData seed_bytes; SysData key_ff; SysErr EIO] [] []).

(** getrandom delivers a seed and is then not implemented; /dev/urandom
    delivers 16 bytes and then fails. *)
Definition w_partial_read : world :=
  world_of blank
    (scripted_os [SysData seed_bytes; SysErr ENOSYS] [3]
       [SysData (repeat x11 16); SysErr EIO]).

(** getrandom is not implemented; /dev/urandom delivers 16 bytes and then
    more than the 16 still missing. *)
Definition w_enosys : world :=
  world_of blank
    (scripted_os [SysErr ENOSYS] [3]
       [SysData (repeat x11 16); SysData (repeat x22 40)]).

(** The same key at another address of another memory, under another
    kernel. *)
Definition w_key_one_elsewhere : world :=
  world_of (store_bytes (fun _ => x77) 300 key_one)
    (scripted_os [SysErr EIO] [] []).

(** ** More vocabulary: context lifecycle, stack contents *)

Definition is_lifecycle (e : event) : Prop :=
  match e with
  | EvContextCreate _ | EvContextDestroy => True
  | _ => False
  end.

Definition is_randomize (e : event) : Prop :=
  match e with
  | EvContextRandomize _ => True
  | _ => False
  end.

(** The same world over other stack contents. *)
Definition with_stack (s : nat -> byte) (w : world) : world :=
  {| mem := mem w; os := os w; stack := s; trace := trace w |}.

(** A result of a call on a buffer, with the world after it transformed. *)
Definition on_world {A : Type} (f : world -> world)
  (res : option (A * list byte * world)) : option (A * list byte * world) :=
  match res with
  | Some (r, d, w) => Some (r, d, f w)
  | None => None
  end.


(** ** secp256k1_wrapper_fill_random, the other platform branches

    BCryptGenRandom, SecRandomCopyBytes, CCRandomGenerateBytes and
    getentropy fill the whole buffer or fail. An answer of such a source is
    [None], a failure, or a supply of bytes of which the call takes as many
    as it was asked for. Each branch returns, next to the result and the
    buffer, the calls it made with the byte counts it passed. *)

Definition ULONG_MAX : Z := 2 ^ 32 - 1.

Definition entropy_answer := option (nat -> byte).

Inductive entropy_call :=
| CallBCryptGenRandom (cbBuffer : Z)
| CallSecRandomCopyBytes (count : Z)
| CallCCRandomGenerateBytes (count : Z)
| CallGetentropy (buflen : Z).

(** The status a source returns (0 is success for all four) and the buffer
    after the call. *)
Definition entropy_fill (a : entropy_answer) (data : list byte) (n : Z)
  : Z * list byte :=
  match a with
  | None => (-1, data)
  | Some supply => (0, blit data O (map supply (seq 0 (Z.to_nat n))))
  end.

(** [#if defined(_WIN32)]; [(ULONG)size] is [size mod 2^32]. *)
Definition secp256k1_wrapper_fill_random_win32 (bcrypt : entropy_answer)
  (data : list byte) (size : Z) : Z * list byte * list entropy_call :=
  if size >? ULONG_MAX then (0, data, [])
  else
    let cb := size mod (ULONG_MAX + 1) in
    let '(res, data1) := entropy_fill bcrypt data cb in
    (if res =? 0 then 1 else 0, data1, [CallBCryptGenRandom cb]).

(** [#elif defined(__APPLE__)], with the two build switches
    [USE_SECURITY_RNG] and [__MAC_10_12] as arguments. *)
Definition secp256k1_wrapper_fill_random_apple
  (USE_SECURITY_RNG MAC_10_12 : bool)
  (secrandom ccrandom getentropy : entropy_answer)
  (data : list byte) (size : Z) : Z * list byte * list entropy_call :=
  let '(r0, data0, calls0) :=
    if USE_SECURITY_RNG then
      let '(st, d) := entropy_fill secrandom data size in
      (st, d, [CallSecRandomCopyBytes size])
    else (-1, data, []) in
  if USE_SECURITY_RNG && (r0 =? 0) then (1, data0, calls0)
  else
    let '(st1, data1) := entropy_fill ccrandom data0 size in
    let calls1 := calls0 ++ [CallCCRandomGenerateBytes size] in
    if st1 =? 0 then (1, data1, calls1)
    else if MAC_10_12 && (size <=? 256) then
      let '(st2, data2) := entropy_fill getentropy data1 size in
      let calls2 := calls1 ++ [CallGetentropy size] in
      if st2 =? 0 then (1, data2, calls2) else (0, data2, calls2)
    else (0, data1, calls1).

(** [#elif defined(__OpenBSD__)] *)
Definition secp256k1_wrapper_fill_random_openbsd (getentropy : entropy_answer)
  (data : list byte) (size : Z) : Z * list byte * list entropy_call :=
  if size <=? 256 then
    let '(st, data1) := entropy_fill getentropy data size in
    if st =? 0 then (1, data1, [CallGetentropy size])
    else (0, data1, [CallGetentropy size])
  else (0, data, []).

Definition getentropy_within_cap (c : entropy_call) : Prop :=
  match c with
  | CallGetentropy n => n <= 256
  | _ => True
  end.

Definition call_count (c : entropy_call) : Z :=
  match c with
  | CallBCryptGenRandom n | CallSecRandomCopyBytes n
  | CallCCRandomGenerateBytes n | CallGetentropy n => n
  end.

(** Trying sources in order until one succeeds: the result, and the calls
    made. *)
Fixpoint first_success (tried : list (entropy_call * entropy_answer))
  : Z * list entropy_call :=
  match tried with
  | [] => (0, [])
  | (c, Some _) :: _ => (1, [c])
  | (c, None) :: rest =>
      let '(r, calls) := first_success rest in (r, c :: calls)
  end.

(** ** The C library, as far as the tests and the demo use it

    Strings are the bytes at a [char*]: a string ends at its first NUL byte
    or, when the list holds none, at the end of the list. [tolower] and
    [strcasecmp] are those of the C locale. *)

Module Libc.

Fixpoint c_str (s : list byte) : list byte :=
  match s with
  | [] => []
  | c :: t => if Byte.eqb c x00 then [] else c :: c_str t
  end.

Definition strlen (s : list byte) : Z := Z.of_nat (length (c_str s)).

Definition tolower (c : byte) : byte :=
  if (65 <=? byte_val c) && (byte_val c <=? 90)
  then byte_of_Z (byte_val c + 32) else c.

Fixpoint strcasecmp (s1 s2 : list byte) : Z :=
  match s1, s2 with
  | [], [] => 0
  | [], c2 :: _ => 0 - byte_val (tolower c2)
  | c1 :: _, [] => byte_val (tolower c1)
  | c1 :: t1, c2 :: t2 =>
      let d := byte_val (tolower c1) - byte_val (tolower c2) in
      if d =? 0 then (if Byte.eqb c1 x00 then 0 else strcasecmp t1 t2)
      else d
  end.

Fixpoint memcmp_loop (n : nat) (m : memory) (p q : Z) : Z :=
  match n with
  | O => 0
  | S n' =>
      let d := byte_val (m p) - byte_val (m q) in
      if d =? 0 then memcmp_loop n' m (p + 1) (q + 1) else d
  end.

Definition memcmp (m : memory) (p q n : Z) : Z :=
  memcmp_loop (Z.to_nat n) m p q.

Definition memset (m : memory) (p : Z) (c : byte) (n : Z) : memory :=
  store_bytes m p (repeat c (Z.to_nat n)).

End Libc.

(** ** tests/test_wrapper.c: the helpers *)

Definition SECP256K1_CONTEXT_NONE : Z := 1.

Module Tests.

(** [while (n--) *vp++ = 0;] *)
Fixpoint secure_memzero_loop (fuel : nat) (m : memory) (vp n : Z) : memory :=
  if n =? 0 then m
  else
    match fuel with
    | O => m
    | S fuel' =>
        secure_memzero_loop fuel' (store_bytes m vp [x00]) (vp + 1) (n - 1)
    end.

Definition secure_memzero (m : memory) (p n : Z) : memory :=
  secure_memzero_loop (Z.to_nat n) m p n.

(** The result is [None] when no context could be created: the helper then
    passes a null context to the library. *)
Definition is_valid_privkey (lib : libsecp256k1) (w : world) (privkey : Z)
  : option (Z * world) :=
  let w := log (EvContextCreate SECP256K1_CONTEXT_NONE) w in
  match secp256k1_context_create lib SECP256K1_CONTEXT_NONE with
  | None => None
  | Some ctx =>
      let result :=
        secp256k1_ec_seckey_verify lib ctx
          (load_bytes (mem w) privkey (Z.to_nat PRIVKEY_SIZE)) in
      let w := log (EvSeckeyVerify result) w in
      Some (result, context_destroy w)
  end.

(** [for (size_t i = 0; i < len; i++) if (buf[i] != 0) return 0;] *)
Fixpoint is_all_zeros_loop (fuel : nat) (m : memory) (buf len i : Z) : Z :=
  if i <? len then
    match fuel with
    | O => 1
    | S fuel' =>
        if negb (Byte.eqb (m (buf + i)) x00) then 0
        else is_all_zeros_loop fuel' m buf len (i + 1)
    end
  else 1.

Definition is_all_zeros (m : memory) (buf len : Z) : Z :=
  is_all_zeros_loop (Z.to_nat len) m buf len 0.

End Tests.

(** ** secp256k1_wrapper_get_version *)

Definition SECP256K1_WRAPPER_VERSION_MAJOR : nat := 1.
Definition SECP256K1_WRAPPER_VERSION_MINOR : nat := 3.
Definition SECP256K1_WRAPPER_VERSION_PATCH : nat := 0.

Fixpoint digits (d : Decimal.uint) : list byte :=
  match d with
  | Decimal.Nil => []
  | Decimal.D0 d => "0"%byte :: digits d
  | Decimal.D1 d => "1"%byte :: digits d
  | Decimal.D2 d => "2"%byte :: digits d
  | Decimal.D3 d => "3"%byte :: digits d
  | Decimal.D4 d => "4"%byte :: digits d
  | Decimal.D5 d => "5"%byte :: digits d
  | Decimal.D6 d => "6"%byte :: digits d
  | Decimal.D7 d => "7"%byte :: digits d
  | Decimal.D8 d => "8"%byte :: digits d
  | Decimal.D9 d => "9"%byte :: digits d
  end.

(** [STR(x)]: the text of the decimal constant a version macro expands to. *)
Definition STR (x : nat) : list byte := digits (Nat.to_uint x).

Definition version_string (major minor patch : nat) : list byte :=
  STR major ++ ["."%byte] ++ STR minor ++ ["."%byte] ++ STR patch.

Definition secp256k1_wrapper_get_version : list byte :=
  version_string SECP256K1_WRAPPER_VERSION_MAJOR
    SECP256K1_WRAPPER_VERSION_MINOR SECP256K1_WRAPPER_VERSION_PATCH.

(** ** examples/demo.c *)

Module Demo.

Definition hex_upper (n : Z) : byte :=
  nth (Z.to_nat n)
    ["0"%byte; "1"%byte; "2"%byte; "3"%byte; "4"%byte; "5"%byte; "6"%byte;
     "7"%byte; "8"%byte; "9"%byte; "A"%byte; "B"%byte; "C"%byte; "D"%byte;
     "E"%byte; "F"%byte] "0"%byte.

(** [printf("%02X", c)] for an [unsigned char]. *)
Definition printf_02X (c : byte) : list byte :=
  [hex_upper (byte_val c / 16); hex_upper (byte_val c mod 16)].

(** [for (size_t i = 0; i < len; i++) printf("%02X", data[i]);] *)
Fixpoint print_hex_loop (fuel : nat) (m : memory) (data len i : Z)
  : list byte :=
  if i <? len then
    match fuel with
    | O => []
    | S fuel' =>
        printf_02X (m (data + i)) ++ print_hex_loop fuel' m data len (i + 1)
    end
  else [].

(** What print_hex writes to stdout. *)
Definition print_hex (m : memory) (data len : Z) : list byte :=
  print_hex_loop (Z.to_nat len) m data len 0 ++ [x0a].

(** [while (n--) *vp++ = 0;] *)
Fixpoint secure_memzero_loop (fuel : nat) (m : memory) (vp n : Z) : memory :=
  if n =? 0 then m
  else
    match fuel with
    | O => m
    | S fuel' =>
        secure_memzero_loop fuel' (store_bytes m vp [x00]) (vp + 1) (n - 1)
    end.

Definition secure_memzero (m : memory) (p n : Z) : memory :=
  secure_memzero_loop (Z.to_nat n) m p n.

Definition str_compressed : list byte :=
  ["c"%byte; "o"%byte; "m"%byte; "p"%byte; "r"%byte; "e"%byte; "s"%byte;
   "s"%byte; "e"%byte; "d"%byte].

Definition str_uncompressed : list byte :=
  ["u"%byte; "n"%byte] ++ str_compressed.

(** [s] is [None] for a null pointer. *)
Definition parse_compressed_arg (s : option (list byte)) (default_val : Z)
  : Z :=
  match s with
  | None => default_val
  | Some s =>
      let one_char :=
        if Libc.strlen s =? 1 then
          let c := Libc.tolower (hd x00 s) in
          if Byte.eqb c "c"%byte then Some 1
          else if Byte.eqb c "u"%byte then Some 0
          else if Byte.eqb c "0"%byte then Some 0
          else if Byte.eqb c "1"%byte then Some 1
          else None
        else None in
      match one_char with
      | Some ret => ret
      | None =>
          if Libc.strcasecmp s str_compressed =? 0 then 1
          else if Libc.strcasecmp s str_uncompressed =? 0 then 0
          else default_val
      end
  end.

(** Reading back a line that print_hex wrote: pairs of upper-case hex
    digits up to the newline. *)
Definition hex_value (c : byte) : option Z :=
  let v := byte_val c in
  if (48 <=? v) && (v <=? 57) then Some (v - 48)
  else if (65 <=? v) && (v <=? 70) then Some (v - 55)
  else None.

Fixpoint parse_hex (text : list byte) : option (list byte) :=
  match text with
  | [nl] => if Byte.eqb nl x0a then Some [] else None
  | h :: l :: rest =>
      match hex_value h, hex_value l, parse_hex rest with
      | Some a, Some b, Some bs => Some (byte_of_Z (16 * a + b) :: bs)
      | _, _, _ => None
      end
  | [] => None
  end.

(** The calls of printf and fprintf, each with its arguments. *)
Inductive printed :=
| PrVersion (version : list byte)
| PrGenerating (pairs_qty : Z) (compressed : Z) (pubkey_len : Z)
| ErrGenerateFailed (gres i : Z)
| ErrDeriveFailed (dres i : Z)
| PrPrivateKey (i : Z)
| PrPublicKey (i : Z)
| PrDerivedPublicKey (i : Z)
| PrHex (text : list byte)
| PrMatch (i : Z)
| PrMismatch (i : Z).

(** The addresses of the three stack arrays of the loop body of main. *)
Record buffers := {
  privkey : Z;
  pubkey : Z;
  derived_pubkey : Z
}.

Section Main.

Variable lib : libsecp256k1.
Variable atoi : list byte -> Z.
Variable bufs : buffers.
Variable fuel : nat.

(** One iteration of the loop of main. *)
Definition pair (i compressed pubkey_len : Z) (w : world)
  : option (list printed * world) :=
  let w :=
    with_mem
      (Libc.memset (mem w) (pubkey bufs) x00 PUBKEY_UNCOMPRESSION_SIZE) w in
  let w :=
    with_mem
      (Libc.memset (mem w) (derived_pubkey bufs) x00
         PUBKEY_UNCOMPRESSION_SIZE) w in
  match
    secp256k1_wrapper_generate_keys lib fuel w (privkey bufs) (pubkey bufs)
      compressed
  with
  | None => None
  | Some r =>
      let gres := g_ret r in
      let w := g_world r in
      if negb (gres =? 0) then Some ([ErrGenerateFailed gres i], w)
      else
        let '(dres, w) :=
          secp256k1_wrapper_derive_pubkey lib w (privkey bufs)
            (derived_pubkey bufs) compressed in
        if negb (dres =? 0) then
          Some ([ErrDeriveFailed dres i],
                with_mem (secure_memzero (mem w) (privkey bufs) PRIVKEY_SIZE) w)
        else
          let out :=
            [PrPrivateKey i;
             PrHex (print_hex (mem w) (privkey bufs) PRIVKEY_SIZE);
             PrPublicKey i;
             PrHex (print_hex (mem w) (pubkey bufs) pubkey_len);
             PrDerivedPublicKey i;
             PrHex (print_hex (mem w) (derived_pubkey bufs) pubkey_len);
             if Libc.memcmp (mem w) (pubkey bufs) (derived_pubkey bufs)
                  pubkey_len =? 0
             then PrMatch i else PrMismatch i] in
          let m := secure_memzero (mem w) (privkey bufs) PRIVKEY_SIZE in
          let m := secure_memzero m (derived_pubkey bufs) pubkey_len in
          let m := secure_memzero m (pubkey bufs) pubkey_len in
          Some (out, with_mem m w)
  end.

(** [for (int i = 0; i < pairs_qty; i++) { ... }], with [n] iterations to
    go. *)
Fixpoint pairs (n : nat) (i compressed pubkey_len : Z) (w : world)
  : option (list printed * world) :=
  match n with
  | O => Some ([], w)
  | S n' =>
      match pair i compressed pubkey_len w with
      | None => None
      | Some (out, w1) =>
          match pairs n' (i + 1) compressed pubkey_len w1 with
          | None => None
          | Some (outs, w2) => Some (out ++ outs, w2)
          end
      end
  end.

(** [argv] holds the [argc] argument strings. *)
Definition main (argv : list (list byte)) (w : world)
  : option (Z * list printed * world) :=
  let argc := Z.of_nat (length argv) in
  let pairs_qty :=
    if argc >=? 2 then
      let n := atoi (nth 1 argv []) in
      if n >? 0 then n else 2
    else 2 in
  let compressed :=
    if argc >=? 3 then parse_compressed_arg (Some (nth 2 argv [])) 1
    else 1 in
  let pubkey_len :=
    if compressed =? 0 then PUBKEY_UNCOMPRESSION_SIZE
    else PUBKEY_COMPRESSION_SIZE in
  match pairs (Z.to_nat pairs_qty) 0 compressed pubkey_len w with
  | None => None
  | Some (out, w') =>
      Some (0,
            PrVersion secp256k1_wrapper_get_version
            :: PrGenerating pairs_qty compressed pubkey_len :: out,
            w')
  end.

End Main.

End Demo.

(** The three arrays are objects of their own: non-null and pairwise
    disjoint, 32, 65 and 65 bytes long. *)
Definition separate (b : Demo.buffers) : Prop :=
  Demo.privkey b <> NULL /\ Demo.pubkey b <> NULL
  /\ Demo.derived_pubkey b <> NULL
  /\ (Demo.privkey b + 32 <= Demo.pubkey b
      \/ Demo.pubkey b + 65 <= Demo.privkey b)
  /\ (Demo.privkey b + 32 <= Demo.derived_pubkey b
      \/ Demo.derived_pubkey b + 65 <= Demo.privkey b)
  /\ (Demo.pubkey b + 65 <= Demo.derived_pubkey b
      \/ Demo.derived_pubkey b + 65 <= Demo.pubkey b).

(** A line the demo may print when the library behaves: no mismatch, no
    failed derivation, and no generation failure other than -2, -3, -5. *)
Definition expected_line (p : Demo.printed) : Prop :=
  match p with
  | Demo.PrMismatch _ | Demo.ErrDeriveFailed _ _ => False
  | Demo.ErrGenerateFailed gres _ => gres = -2 \/ gres = -3 \/ gres = -5
  | _ => True
  end.

(** The lines that report the outcome of an iteration. *)
Definition reports (p : Demo.printed) : bool :=
  match p with
  | Demo.PrMatch _ | Demo.PrMismatch _
  | Demo.ErrGenerateFailed _ _ | Demo.ErrDeriveFailed _ _ => true
  | _ => false
  end.

(** Three arrays laid out one after the other. *)
Definition toy_bufs : Demo.buffers :=
  {| Demo.privkey := 100; Demo.pubkey := 200; Demo.derived_pubkey := 300 |}.

(** getrandom delivers a seed and the key 1, and then fails. *)
Definition w_one_pair : world :=
  world_of blank (scripted_os [SysData seed_bytes; SysData key_one] [] []).

Definition is_read (e : event) : Prop :=
  match e with
  | EvRead _ => True
  | _ => False
  end.

(** ** The public-key steps, by what the library answers *)

(** secp256k1_ec_pubkey_create returns 0 on [key]. *)
Definition pubkey_create_fails (lib : libsecp256k1)
  (ctx : secp256k1_context lib) (key : list byte) : Prop :=
  fst (secp256k1_ec_pubkey_create lib ctx key) = 0.

(** secp256k1_ec_pubkey_create succeeds on [key] and
    secp256k1_ec_pubkey_serialize returns 0 on the public key it made. *)
Definition pubkey_serialize_fails (lib : libsecp256k1)
  (ctx : secp256k1_context lib) (key : list byte) (compressed : Z) : Prop :=
  fst (secp256k1_ec_pubkey_create lib ctx key) <> 0
  /\ fst (secp256k1_ec_pubkey_serialize lib ctx
            (snd (secp256k1_ec_pubkey_create lib ctx key))
            (pubkey_len_of compressed) (flags_of compressed)) = 0.

(** What brings secp256k1_wrapper_generate_keys to public-key creation on
    the candidate [cand n] in the context [ctx1]: the context is created,
    getrandom delivers a 32-byte seed, randomization succeeds and gives
    [ctx1], getrandom then delivers the 32-byte candidates [cand 0] ..
    [cand n], of which the library rejects all but the last. *)
Definition generation_accepts (lib : libsecp256k1) (w : world) (n : nat)
  (cand : nat -> list byte) (ctx1 : secp256k1_context lib) : Prop :=
  exists ctx0 seed ok1,
    secp256k1_context_create lib SECP256K1_CONTEXT_SIGN = Some ctx0
    /\ os_getrandom (os w) O = SysData seed /\ length seed = 32%nat
    /\ secp256k1_context_randomize lib ctx0 seed = (ok1, ctx1) /\ ok1 <> 0
    /\ (forall j, (j <= n)%nat ->
                  os_getrandom (os w) (S j) = SysData (cand j)
                  /\ length (cand j) = 32%nat)
    /\ (forall j, (j < n)%nat ->
                  secp256k1_ec_seckey_verify lib ctx1 (cand j) = 0)
    /\ secp256k1_ec_seckey_verify lib ctx1 (cand n) <> 0.

(** ** Kernels on which the sampling loop ends *)

(** getrandom is implemented: it never fails with ENOSYS, so
    secp256k1_wrapper_fill_random never falls back to /dev/urandom. *)
Definition getrandom_available (o : OS) : Prop :=
  forall j, os_getrandom o j <> SysErr ENOSYS.

(** An answer of getrandom on which the sampling loop stops: an error,
    fewer than 32 bytes, or a candidate the library accepts. *)
Definition ends_draw (lib : libsecp256k1) (a : sys_result) : Prop :=
  match a with
  | SysErr _ => True
  | SysData chunk =>
      (length chunk < 32)%nat
      \/ forall ctx, secp256k1_ec_seckey_verify lib ctx (firstn 32 chunk) <> 0
  end.

(** Among any [fuel] consecutive answers of getrandom there is one on which
    the loop stops: the kernel never delivers [fuel] rejected candidates in
    a row. *)
Definition sampling_bounded (lib : libsecp256k1) (fuel : nat) (o : OS)
  : Prop :=
  forall start, exists j,
    (j < fuel)%nat /\ ends_draw lib (os_getrandom o (start + j)).

(** [o'] answers getrandom as [o] does after some more calls. *)
Definition getrandom_later (o o' : OS) : Prop :=
  exists k, forall i, os_getrandom o' i = os_getrandom o (k + i).

(** * Properties *)

(** ** Buffers and memory *)

Lemma blit_length (buf : list byte) :
  forall off bs, length (blit buf off bs) = length buf.
Proof.
  induction buf as [|b buf IH]; intros off bs; simpl; [reflexivity|].
  destruct off as [|off]; [destruct bs as [|x bs]|]; simpl;
    try rewrite IH; reflexivity.
Qed.

Lemma blit_zeros_all (buf : list byte) :
  blit buf O (zeros (length buf)) = zeros (length buf).
Proof.
  induction buf as [|b buf IH]; simpl; [reflexivity|].
  unfold zeros in *. now rewrite IH.
Qed.

Lemma zeros_length (n : nat) : length (zeros n) = n.
Proof. apply repeat_length. Qed.

Lemma fit_length (n : nat) (bs : list byte) : length (fit n bs) = n.
Proof.
  unfold fit. rewrite length_firstn, length_app, zeros_length. lia.
Qed.

Lemma uninit_length (w : world) (off n : nat) : length (uninit w off n) = n.
Proof. unfold uninit. now rewrite length_map, length_seq. Qed.

Lemma load_bytes_length (m : memory) (p : Z) (n : nat) :
  length (load_bytes m p n) = n.
Proof. unfold load_bytes. now rewrite length_map, length_seq. Qed.

Lemma load_bytes_ext (m1 m2 : memory) (p : Z) (n : nat) :
  (forall a, p <= a < p + Z.of_nat n -> m1 a = m2 a) ->
  load_bytes m1 p n = load_bytes m2 p n.
Proof.
  intros H. unfold load_bytes. apply map_ext_in.
  intros i Hi. apply in_seq in Hi. apply H. lia.
Qed.

Lemma store_bytes_outside (m : memory) (p : Z) (bs : list byte) (a : Z) :
  a < p \/ p + Z.of_nat (length bs) <= a ->
  store_bytes m p bs a = m a.
Proof.
  intros H. unfold store_bytes.
  destruct (p <=? a) eqn:E1; destruct (a <? p + Z.of_nat (length bs)) eqn:E2;
    simpl; try reflexivity.
  apply Z.leb_le in E1. apply Z.ltb_lt in E2. lia.
Qed.

Lemma store_bytes_inside (m : memory) (p : Z) (bs : list byte) (i : nat) :
  (i < length bs)%nat ->
  store_bytes m p bs (p + Z.of_nat i) = nth i bs x00.
Proof.
  intros H. unfold store_bytes.
  replace (p <=? p + Z.of_nat i) with true by (symmetry; apply Z.leb_le; lia).
  replace (p + Z.of_nat i <? p + Z.of_nat (length bs)) with true
    by (symmetry; apply Z.ltb_lt; lia).
  simpl. f_equal. lia.
Qed.

Lemma load_bytes_nth (m : memory) (p : Z) (n i : nat) (d : byte) :
  (i < n)%nat -> nth i (load_bytes m p n) d = m (p + Z.of_nat i).
Proof.
  intros Hi. unfold load_bytes.
  set (f := fun j : nat => m (p + Z.of_nat j)).
  rewrite nth_indep with (d' := f O) by (now rewrite length_map, length_seq).
  rewrite map_nth, seq_nth by assumption. reflexivity.
Qed.

Lemma load_store_same (m : memory) (p : Z) (bs : list byte) :
  load_bytes (store_bytes m p bs) p (length bs) = bs.
Proof.
  apply nth_ext with (d := x00) (d' := x00).
  - apply load_bytes_length.
  - intros i Hi. rewrite load_bytes_length in Hi.
    rewrite load_bytes_nth by assumption.
    now apply store_bytes_inside.
Qed.

Lemma load_store_disjoint (m : memory) (p q : Z) (n : nat) (bs : list byte) :
  p + Z.of_nat n <= q \/ q + Z.of_nat (length bs) <= p ->
  load_bytes (store_bytes m q bs) p n = load_bytes m p n.
Proof.
  intros H. apply load_bytes_ext. intros a Ha.
  apply store_bytes_outside. lia.
Qed.

(** ** What a call leaves alone, and what it logs *)

Lemma logged_refl (P : event -> Prop) (w : world) : logged P w w.
Proof. exists []. split; [now rewrite app_nil_r | constructor]. Qed.

Lemma logged_trans (P : event -> Prop) (w1 w2 w3 : world) :
  logged P w1 w2 -> logged P w2 w3 -> logged P w1 w3.
Proof.
  intros (e1 & H1 & F1) (e2 & H2 & F2). exists (e1 ++ e2). split.
  - now rewrite H2, H1, app_assoc.
  - apply Forall_app; now split.
Qed.

Lemma logged_one (P : event -> Prop) (e : event) (w w' : world) :
  trace w' = trace w ++ [e] -> P e -> logged P w w'.
Proof. intros H HP. exists [e]. split; [assumption | now constructor]. Qed.

Lemma logged_weaken (P Q : event -> Prop) (w w' : world) :
  (forall e, P e -> Q e) -> logged P w w' -> logged Q w w'.
Proof.
  intros HPQ (evs & H & F). exists evs. split; [assumption|].
  eapply Forall_impl; eauto.
Qed.

(** An event that satisfies no [P] of a [logged P] run was not logged by
    that run. *)
Lemma logged_not_in (P : event -> Prop) (w w' : world) (e : event) :
  logged P w w' -> ~ P e ->
  In e (skipn (length (trace w)) (trace w')) -> False.
Proof.
  intros (evs & H & F) HnP Hin. rewrite H in Hin.
  rewrite skipn_app, skipn_all, Nat.sub_diag in Hin. simpl in Hin.
  rewrite Forall_forall in F. auto.
Qed.

Lemma quiet_refl (w : world) : quiet w w.
Proof. constructor; auto using logged_refl. Qed.

Lemma quiet_trans (w1 w2 w3 : world) : quiet w1 w2 -> quiet w2 w3 -> quiet w1 w3.
Proof.
  intros [M1 S1 T1] [M2 S2 T2]. constructor.
  - congruence.
  - congruence.
  - eapply logged_trans; eauto.
Qed.

Lemma quiet_getrandom (w : world) (size : Z) : quiet w (snd (sys_getrandom w size)).
Proof. constructor; simpl; auto. apply (logged_one is_syscall (EvGetrandom size)); simpl; auto. Qed.

Lemma quiet_open (w : world) : quiet w (snd (sys_open w)).
Proof. constructor; simpl; auto. apply (logged_one is_syscall EvOpen); simpl; auto. Qed.

Lemma quiet_read (w : world) (count : Z) : quiet w (snd (sys_read w count)).
Proof. constructor; simpl; auto. apply (logged_one is_syscall (EvRead count)); simpl; auto. Qed.

Lemma quiet_close (w : world) : quiet w (sys_close w).
Proof. constructor; simpl; auto. apply (logged_one is_syscall EvClose); simpl; auto. Qed.

Create HintDb quiet.

#[local] Hint Resolve quiet_refl quiet_getrandom quiet_open quiet_read
  quiet_close : quiet.

Lemma read_loop_quiet (fuel : nat) :
  forall w data size off r data' w',
    read_loop fuel w data size off = Some (r, data', w') ->
    quiet w w' /\ length data' = length data /\ (r = 0 \/ r = 1).
Proof.
  induction fuel as [|fuel IH]; intros w data size off r data' w' H;
    cbn [read_loop] in H; destruct (off <? size) eqn:Eoff.
  - discriminate.
  - inversion H; subst. auto with quiet.
  - destruct (sys_read w (size - off)) as [[[n e] got] w1] eqn:Erd.
    assert (Q1 : quiet w w1).
    { replace w1 with (snd (sys_read w (size - off))) by now rewrite Erd.
      auto with quiet. }
    destruct (n <=? 0).
    + inversion H; subst. split; [|split].
      * apply quiet_trans with w1; auto with quiet.
      * apply blit_length.
      * now left.
    + apply IH in H. destruct H as (Q & L & R). split; [|split].
      * apply quiet_trans with w1; auto.
      * now rewrite L, blit_length.
      * exact R.
  - inversion H; subst. auto with quiet.
Qed.

Lemma fill_random_quiet (w : world) (data : list byte) (size : Z) :
  forall r data' w',
    secp256k1_wrapper_fill_random w data size = Some (r, data', w') ->
    quiet w w' /\ length data' = length data /\ (r = 0 \/ r = 1).
Proof.
  intros r data' w' H. unfold secp256k1_wrapper_fill_random in H.
  destruct (sys_getrandom w size) as [[[res e] got] w1] eqn:Egr.
  assert (Q1 : quiet w w1).
  { replace w1 with (snd (sys_getrandom w size)) by now rewrite Egr.
    auto with quiet. }
  destruct ((res =? -1) && (e =? ENOSYS)).
  - destruct (sys_open w1) as [fd w2] eqn:Eop.
    assert (Q2 : quiet w1 w2).
    { replace w2 with (snd (sys_open w1)) by now rewrite Eop.
      auto with quiet. }
    destruct (fd <? 0).
    + inversion H; subst. split; [|split].
      * apply quiet_trans with w1; auto.
      * apply blit_length.
      * now left.
    + apply read_loop_quiet in H. destruct H as (Q & L & R). split; [|split].
      * apply quiet_trans with w1; auto. apply quiet_trans with w2; auto.
      * now rewrite L, blit_length.
      * exact R.
  - inversion H; subst. split; [|split].
    + exact Q1.
    + apply blit_length.
    + destruct ((0 <=? res) && (res =? size)); auto.
Qed.

(** ** The /dev/urandom loop *)

Lemma transfer_bound (r : sys_result) (count : Z) :
  0 <= count -> fst (fst (transfer r count)) <= count.
Proof.
  intros H. destruct r as [e|chunk]; simpl; [lia|].
  rewrite length_firstn. lia.
Qed.

Lemma transfer_length (r : sys_result) (count : Z) :
  0 < fst (fst (transfer r count)) ->
  fst (fst (transfer r count)) = Z.of_nat (length (snd (transfer r count))).
Proof. destruct r as [e|chunk]; simpl; [lia | reflexivity]. Qed.

Lemma transfer_nothing (r : sys_result) : fst (fst (transfer r 0)) <= 0.
Proof. destruct r as [e|chunk]; simpl; lia. Qed.

Lemma filled_from_skip_first (rd : nat -> sys_result) (size off : Z) (k : nat) :
  filled_from rd size off (S k)
  = filled_from (skip_first rd) size (off + read_ret rd size off O) k.
Proof.
  induction k as [|k IH]; [reflexivity|].
  change (filled_from rd size off (S (S k)))
    with (filled_from rd size off (S k)
          + read_ret rd size (filled_from rd size off (S k)) (S k)).
  rewrite IH. reflexivity.
Qed.

Lemma progress_from_skip_first (rd : nat -> sys_result) (size off : Z) (k : nat) :
  0 < read_ret rd size off O ->
  progress_from (skip_first rd) size (off + read_ret rd size off O) k ->
  progress_from rd size off (S k).
Proof.
  intros H0 H i Hi. destruct i as [|i]; [exact H0|].
  rewrite filled_from_skip_first. apply (H i). lia.
Qed.

(** Filling and failing exclude each other. *)
Lemma urandom_fills_fails_excl (rd : nat -> sys_result) (size : Z) (k k' : nat) :
  urandom_fills rd size k -> urandom_fails rd size k' -> False.
Proof.
  intros [P F] (P' & L' & R').
  destruct (Nat.lt_trichotomy k' k) as [Hlt|[Heq|Hgt]].
  - specialize (P k' Hlt). lia.
  - subst. lia.
  - specialize (P' k Hgt). rewrite F in P'. unfold read_ret in P'.
    rewrite Z.sub_diag in P'. pose proof (transfer_nothing (rd k)). lia.
Qed.

Lemma sys_read_eq (w : world) (count : Z) :
  sys_read w count
  = (transfer (os_read (os w) O) count, snd (sys_read w count))
  /\ os_read (os (snd (sys_read w count))) = skip_first (os_read (os w)).
Proof. split; reflexivity. Qed.

Lemma read_loop_spec (size : Z) (fuel : nat) :
  forall w data off,
    0 <= off <= size -> size <= SIZE_MAX ->
    (Z.to_nat (size - off) <= fuel)%nat ->
    exists r data' w',
      read_loop fuel w data size off = Some (r, data', w')
      /\ ((r = 1 /\ exists k, progress_from (os_read (os w)) size off k
                     /\ filled_from (os_read (os w)) size off k = size)
          \/ (r = 0 /\ exists k, progress_from (os_read (os w)) size off k
                     /\ filled_from (os_read (os w)) size off k < size
                     /\ read_ret (os_read (os w)) size
                          (filled_from (os_read (os w)) size off k) k <= 0)).
Proof.
  induction fuel as [|fuel IH]; intros w data off Hoff Hmax Hfuel;
    cbn [read_loop]; destruct (off <? size) eqn:Eoff.
  - apply Z.ltb_lt in Eoff. lia.
  - apply Z.ltb_ge in Eoff. do 3 eexists. split; [reflexivity|]. left.
    split; [reflexivity|]. exists O. split; [intros i Hi; lia | simpl; lia].
  - apply Z.ltb_lt in Eoff.
    destruct (sys_read_eq w (size - off)) as [Erd Esh]. rewrite Erd.
    set (w1 := snd (sys_read w (size - off))) in *.
    set (rd := os_read (os w)) in *.
    destruct (transfer (rd O) (size - off)) as [[n e] got] eqn:Etr.
    assert (Hn : read_ret rd size off O = n) by (unfold read_ret; now rewrite Etr).
    assert (Hle : n <= size - off).
    { rewrite <- Hn. apply transfer_bound. lia. }
    destruct (n <=? 0) eqn:En.
    + apply Z.leb_le in En. do 3 eexists. split; [reflexivity|]. right.
      split; [reflexivity|]. exists O. simpl. rewrite Hn.
      repeat split; try lia. intros i Hi; lia.
    + apply Z.leb_gt in En.
      replace ((off + n) mod (SIZE_MAX + 1)) with (off + n)
        by (symmetry; apply Z.mod_small; lia).
      destruct (IH w1 (blit data (Z.to_nat off) got) (off + n))
        as (r & data' & w' & Hrun & Hspec); try lia.
      exists r, data', w'. split; [exact Hrun|].
      rewrite Esh in Hspec. rewrite <- Hn in Hspec.
      destruct Hspec as [(-> & k & P & F)|(-> & k & P & L & R)].
      * left. split; [reflexivity|]. exists (S k). split.
        -- apply progress_from_skip_first; [lia | exact P].
        -- now rewrite filled_from_skip_first.
      * right. split; [reflexivity|]. exists (S k). repeat split.
        -- apply progress_from_skip_first; [lia | exact P].
        -- now rewrite filled_from_skip_first.
        -- rewrite filled_from_skip_first. exact R.
  - apply Z.ltb_ge in Eoff. do 3 eexists. split; [reflexivity|]. left.
    split; [reflexivity|]. exists O. split; [intros i Hi; lia | simpl; lia].
Qed.

Lemma delivered_from_skip_first (rd : nat -> sys_result) (size off : Z) (k : nat) :
  delivered_from rd size off (S k)
  = read_data rd size off O
    ++ delivered_from (skip_first rd) size (off + read_ret rd size off O) k.
Proof.
  induction k as [|k IH]; [cbn; now rewrite app_nil_r|].
  change (delivered_from rd size off (S (S k)))
    with (delivered_from rd size off (S k)
          ++ read_data rd size (filled_from rd size off (S k)) (S k)).
  rewrite IH, filled_from_skip_first, <- app_assoc. reflexivity.
Qed.

Lemma blit_firstn (buf : list byte) :
  forall off got,
    (off + length got <= length buf)%nat ->
    firstn (off + length got) (blit buf off got) = firstn off buf ++ got.
Proof.
  induction buf as [|b buf IH]; intros off got H.
  - simpl in H. assert (off = O) by lia. subst.
    destruct got; [reflexivity | simpl in H; lia].
  - destruct off as [|off].
    + destruct got as [|x got]; [reflexivity|].
      simpl in H. cbn [blit Nat.add length firstn app]. f_equal.
      apply (IH O got). simpl. lia.
    + simpl in H. cbn [blit Nat.add firstn app]. f_equal.
      apply IH. lia.
Qed.

Lemma read_loop_data (size : Z) (fuel : nat) :
  forall w data off data' w',
    0 <= off <= size -> size <= SIZE_MAX ->
    (Z.to_nat size <= length data)%nat ->
    read_loop fuel w data size off = Some (1, data', w') ->
    exists k,
      progress_from (os_read (os w)) size off k
      /\ filled_from (os_read (os w)) size off k = size
      /\ firstn (Z.to_nat size) data'
         = firstn (Z.to_nat off) data
           ++ delivered_from (os_read (os w)) size off k.
Proof.
  induction fuel as [|fuel IH]; intros w data off data' w' Hoff Hmax Hlen H;
    cbn [read_loop] in H; destruct (off <? size) eqn:Eoff; try discriminate.
  - apply Z.ltb_ge in Eoff. inversion H; subst. exists O.
    split; [intros i Hi; lia|]. split; [simpl; lia|].
    cbn. rewrite app_nil_r. f_equal. lia.
  - apply Z.ltb_lt in Eoff.
    destruct (sys_read_eq w (size - off)) as [Erd Esh]. rewrite Erd in H.
    set (w1 := snd (sys_read w (size - off))) in *.
    set (rd := os_read (os w)) in *.
    destruct (transfer (rd O) (size - off)) as [[n e] got] eqn:Etr.
    assert (Hn : read_ret rd size off O = n) by (unfold read_ret; now rewrite Etr).
    assert (Hg : read_data rd size off O = got)
      by (unfold read_data; now rewrite Etr).
    assert (Hle : n <= size - off).
    { rewrite <- Hn. apply transfer_bound. lia. }
    destruct (n <=? 0) eqn:En; [discriminate|]. apply Z.leb_gt in En.
    assert (Hgl : n = Z.of_nat (length got)).
    { rewrite <- Hn, <- Hg. unfold read_ret, read_data.
      apply transfer_length. fold (read_ret rd size off O). lia. }
    replace ((off + n) mod (SIZE_MAX + 1)) with (off + n) in H
      by (symmetry; apply Z.mod_small; lia).
    apply IH in H; try lia; [|rewrite blit_length; lia].
    destruct H as (k & P & F & D). rewrite Esh, <- Hn in P, F, D.
    exists (S k). split; [apply progress_from_skip_first; [lia | exact P]|].
    split; [now rewrite filled_from_skip_first|].
    rewrite D, delivered_from_skip_first, Hg, app_assoc. f_equal.
    rewrite Hn.
    replace (Z.to_nat (off + n)) with (Z.to_nat off + length got)%nat by lia.
    apply blit_firstn. lia.
  - apply Z.ltb_ge in Eoff. inversion H; subst. exists O.
    split; [intros i Hi; lia|]. split; [simpl; lia|].
    cbn. rewrite app_nil_r. f_equal. lia.
Qed.

(** For a size in the range of size_t the function returns. *)
Lemma fill_random_returns (w : world) (data : list byte) (size : Z) :
  0 <= size <= SIZE_MAX ->
  exists r data' w',
    secp256k1_wrapper_fill_random w data size = Some (r, data', w').
Proof.
  intros Hsize. unfold secp256k1_wrapper_fill_random.
  destruct (sys_getrandom w size) as [[[res e] got] w1].
  destruct ((res =? -1) && (e =? ENOSYS)); [|do 3 eexists; reflexivity].
  destruct (sys_open w1) as [fd w2].
  destruct (fd <? 0); [do 3 eexists; reflexivity|].
  destruct (read_loop_spec size (Z.to_nat size) w2 (blit data O got) 0)
    as (r & data' & w' & Hrun & _); try lia.
  now exists r, data', w'.
Qed.

Lemma blit_nil (buf : list byte) : forall off, blit buf off [] = buf.
Proof.
  induction buf as [|b buf IH]; intros [|off]; simpl; try reflexivity.
  now rewrite IH.
Qed.

Lemma sys_getrandom_eq (w : world) (size : Z) :
  sys_getrandom w size
  = (transfer (os_getrandom (os w) O) size, snd (sys_getrandom w size)).
Proof. reflexivity. Qed.

Lemma sys_open_eq (w : world) : sys_open w = (os_open (os w) O, snd (sys_open w)).
Proof. reflexivity. Qed.

(** C7. Linux/FreeBSD branch of secp256k1_wrapper_fill_random, for a request
    size in the range of size_t. When getrandom fails with ENOSYS the
    function opens /dev/urandom; if that succeeds it returns 1 exactly when
    the reads, each delivering something, fill the buffer, and 0 exactly
    when a read fails or hits end of file before that; it always returns.
    When getrandom fails with any other errno it returns 0 having made no
    other system call, and when getrandom delivers bytes it returns 1
    exactly when it delivered all of them, again without any fallback. *)
Theorem fill_random_enosys_fallback (w : world) (data : list byte) (size : Z) :
  0 <= size <= SIZE_MAX ->
  match os_getrandom (os w) O with
  | SysErr e =>
      (e = ENOSYS ->
       exists r data' w',
         secp256k1_wrapper_fill_random w data size = Some (r, data', w')
         /\ (exists evs,
                trace w' = trace w ++ EvGetrandom size :: EvOpen :: evs)
         /\ (os_open (os w) O < 0 -> r = 0)
         /\ (0 <= os_open (os w) O ->
             (r = 1 <-> exists k, urandom_fills (os_read (os w)) size k)
             /\ (r = 0 <-> exists k, urandom_fails (os_read (os w)) size k)
             /\ (r = 1 -> (Z.to_nat size <= length data)%nat ->
                 exists k,
                   urandom_fills (os_read (os w)) size k
                   /\ firstn (Z.to_nat size) data'
                      = delivered_from (os_read (os w)) size 0 k)))
      /\ (e <> ENOSYS ->
          exists w',
            secp256k1_wrapper_fill_random w data size = Some (0, data, w')
            /\ trace w' = trace w ++ [EvGetrandom size])
  | SysData chunk =>
      exists r data' w',
        secp256k1_wrapper_fill_random w data size = Some (r, data', w')
        /\ trace w' = trace w ++ [EvGetrandom size]
        /\ data' = blit data O (firstn (Z.to_nat size) chunk)
        /\ (r = 1 <-> size <= Z.of_nat (length chunk))
        /\ (r = 0 <-> Z.of_nat (length chunk) < size)
  end.
Proof.
  intros Hsize. unfold secp256k1_wrapper_fill_random.
  rewrite sys_getrandom_eq. set (w1 := snd (sys_getrandom w size)).
  destruct (os_getrandom (os w) O) as [e|chunk] eqn:Egr.
  - cbn [transfer]. split.
    + intros ->. rewrite Z.eqb_refl. cbn [andb]. rewrite blit_nil.
      rewrite sys_open_eq. set (w2 := snd (sys_open w1)).
      change (os_open (os w1) O) with (os_open (os w) O).
      destruct (os_open (os w) O <? 0) eqn:Efd.
      * apply Z.ltb_lt in Efd. do 3 eexists. split; [reflexivity|].
        split; [exists []; simpl; now rewrite <- app_assoc|].
        split; [reflexivity | lia].
      * apply Z.ltb_ge in Efd.
        destruct (read_loop_spec size (Z.to_nat size) w2 data 0)
          as (r & data' & w' & Hrun & Hspec); try lia.
        exists r, data', w'. split; [exact Hrun|].
        assert (Hdata : r = 1 -> (Z.to_nat size <= length data)%nat ->
                        exists k,
                          urandom_fills (os_read (os w)) size k
                          /\ firstn (Z.to_nat size) data'
                             = delivered_from (os_read (os w)) size 0 k).
        { intros -> Hlen. pose proof Hrun as Hk.
          apply read_loop_data in Hk; [|lia|lia|exact Hlen].
          destruct Hk as (k & P & F & D).
          exists k. split; [now split | exact D]. }
        apply read_loop_quiet in Hrun.
        destruct Hrun as ([_ _ (evs & Htr & _)] & _ & _).
        split; [exists evs; rewrite Htr; simpl; now rewrite <- !app_assoc|].
        split; [lia|]. intros _.
        change (os_read (os w2)) with (os_read (os w)) in Hspec.
        rewrite <- and_assoc. split; [|exact Hdata]. clear Hdata.
        destruct Hspec as [(-> & k & P & F)|(-> & k & P & L & R)].
        -- assert (Hf : urandom_fills (os_read (os w)) size k) by now split.
           split; split; intros H; eauto; try lia.
           destruct H as [k' H].
           exfalso. eapply urandom_fills_fails_excl; eauto.
        -- assert (Hf : urandom_fails (os_read (os w)) size k)
             by (repeat split; assumption).
           split; split; intros H; eauto; try lia.
           destruct H as [k' H].
           exfalso. eapply urandom_fills_fails_excl; eauto.
    + intros Hne. replace (e =? ENOSYS) with false
        by (symmetry; now apply Z.eqb_neq).
      cbn. rewrite blit_nil. eexists. split; reflexivity.
  - cbn [transfer]. cbv zeta.
    set (got := firstn (Z.to_nat size) chunk).
    assert (Hgot : Z.of_nat (length got) = Z.min size (Z.of_nat (length chunk))).
    { unfold got. rewrite length_firstn. lia. }
    replace (Z.of_nat (length got) =? -1) with false
      by (symmetry; apply Z.eqb_neq; lia).
    cbn [andb]. do 3 eexists. split; [reflexivity|].
    split; [reflexivity|]. split; [reflexivity|].
    replace (0 <=? Z.of_nat (length got)) with true
      by (symmetry; apply Z.leb_le; lia).
    cbn [andb].
    destruct (Z.of_nat (length got) =? size) eqn:E;
      [apply Z.eqb_eq in E | apply Z.eqb_neq in E]; split; split; intros; lia.
Qed.

(** ** The candidate loop *)

Section WrapperFacts.

Variable lib : libsecp256k1.

Lemma draw_privkey_spec (fuel : nat) (ctx : secp256k1_context lib) :
  forall w privkey ok key w',
    draw_privkey lib fuel ctx w privkey = Some (ok, key, w') ->
    mem w' = mem w /\ stack w' = stack w
    /\ length key = length privkey
    /\ logged is_draw_event w w'
    /\ (ok = true -> secp256k1_ec_seckey_verify lib ctx key <> 0).
Proof.
  induction fuel as [|fuel IH]; intros w privkey ok key w' H;
    cbn [draw_privkey] in H; [discriminate|].
  destruct (secp256k1_wrapper_fill_random w privkey PRIVKEY_SIZE)
    as [[[r key1] w1]|] eqn:Efill; [|discriminate].
  apply fill_random_quiet in Efill. destruct Efill as ([M S T] & L & _).
  assert (T' : logged is_draw_event w w1).
  { eapply logged_weaken; [|exact T]. intros e He. now left. }
  destruct (r =? 0).
  - inversion H; subst. repeat split; auto. discriminate.
  - set (v := secp256k1_ec_seckey_verify lib ctx key1) in *.
    assert (T2 : logged is_draw_event w (log (EvSeckeyVerify v) w1)).
    { eapply logged_trans; [exact T'|].
      apply (logged_one _ (EvSeckeyVerify v)); [reflexivity|].
      right. now exists v. }
    destruct (v =? 0) eqn:Ev.
    + apply IH in H. destruct H as (M' & S' & L' & T3 & V).
      simpl in M', S'.
      split; [congruence|]. split; [congruence|]. split; [congruence|].
      split; [eapply logged_trans; eauto | exact V].
    + inversion H; subst. repeat split; auto.
      intros _. fold v. now apply Z.eqb_neq.
Qed.

(** What the loop returns does not depend on the fuel left over. *)
Lemma draw_privkey_more_fuel (fuel : nat) (ctx : secp256k1_context lib) :
  forall w privkey res (extra : nat),
    draw_privkey lib fuel ctx w privkey = Some res ->
    draw_privkey lib (fuel + extra) ctx w privkey = Some res.
Proof.
  induction fuel as [|fuel IH]; intros w privkey res extra H;
    cbn [draw_privkey] in H; [discriminate|].
  cbn [draw_privkey Nat.add].
  destruct (secp256k1_wrapper_fill_random w privkey PRIVKEY_SIZE)
    as [[[r key1] w1]|]; [|discriminate].
  destruct (r =? 0); [exact H|].
  destruct (secp256k1_ec_seckey_verify lib ctx key1 =? 0); [|exact H].
  now apply IH.
Qed.

(** More fuel does not change what a call returns. *)
Lemma generate_keys_more_fuel (fuel extra : nat) (w : world)
  (privkey_out pubkey_out compressed : Z) (r : gen_result) :
  secp256k1_wrapper_generate_keys lib fuel w privkey_out pubkey_out compressed
  = Some r ->
  secp256k1_wrapper_generate_keys lib (fuel + extra) w privkey_out pubkey_out
    compressed = Some r.
Proof.
  unfold secp256k1_wrapper_generate_keys.
  destruct (invalid_args privkey_out pubkey_out compressed); [trivial|].
  destruct (secp256k1_context_create lib SECP256K1_CONTEXT_SIGN) as [ctx|];
    [|trivial].
  destruct (secp256k1_wrapper_fill_random _ _ _) as [[[r1 seed] w1]|];
    [|trivial].
  destruct (r1 =? 0); [trivial|].
  destruct (secp256k1_context_randomize lib ctx seed) as [ok1 ctx1].
  destruct (ok1 =? 0); [trivial|].
  destruct (draw_privkey lib fuel ctx1 _ _) as [res|] eqn:Edraw;
    [|discriminate].
  now rewrite (draw_privkey_more_fuel _ _ _ _ _ extra Edraw).
Qed.

End WrapperFacts.

(** ** Paths through secp256k1_wrapper_generate_keys *)

(** Splits a goal [secp256k1_wrapper_generate_keys ... = Some r -> _] into
    one goal per return statement of the function: -1, -3 (seed), -2
    (randomize), -5 (create), -5 (serialize), 0, -3 (candidate), -2 (no
    context). *)
Ltac generate_paths :=
  unfold secp256k1_wrapper_generate_keys, returning;
  destruct (invalid_args _ _ _) eqn:Eargs;
  [ | destruct (secp256k1_context_create _ _) as [ctx0|] eqn:Ectx;
      [ destruct (secp256k1_wrapper_fill_random _ _ _)
          as [[[r1 seed] w1]|] eqn:Eseed;
        [ destruct (r1 =? 0) eqn:Er1;
          [ | destruct (secp256k1_context_randomize _ _ _)
                as [ok1 ctx1] eqn:Erand;
              destruct (ok1 =? 0) eqn:Eok1;
              [ | destruct (draw_privkey _ _ _ _ _)
                    as [[[[|] key] w2]|] eqn:Edraw;
                  [ destruct (secp256k1_ec_pubkey_create _ _ _)
                      as [ok2 pk] eqn:Ecreate;
                    destruct (ok2 =? 0) eqn:Eok2;
                    [ | destruct (secp256k1_ec_pubkey_serialize _ _ _ _ _)
                          as [ok3 enc] eqn:Eser;
                        destruct (ok3 =? 0) eqn:Eok3 ]
                  | | ] ] ]
        | ]
      | ] ];
  let H := fresh "H" in
  intros H; inversion H; subst; clear H; cbn [g_ret g_world g_frame].

Lemma invalid_args_iff (p1 p2 compressed : Z) :
  invalid_args p1 p2 compressed = true
  <-> p1 = NULL \/ p2 = NULL \/ (compressed <> 0 /\ compressed <> 1).
Proof.
  unfold invalid_args.
  rewrite !orb_true_iff, andb_true_iff, !negb_true_iff, !Z.eqb_eq, !Z.eqb_neq.
  tauto.
Qed.

(** C6. Called with a null buffer pointer or with [compressed] outside
    {0, 1}, both functions return -1 and hand back the world they were
    given: memory, kernel state and trace are untouched, so no context was
    created and no randomness drawn. *)
Theorem invalid_argument_without_effect (lib : libsecp256k1) (fuel : nat)
  (w : world) (p1 p2 compressed : Z) :
  p1 = NULL \/ p2 = NULL \/ (compressed <> 0 /\ compressed <> 1) ->
  (exists fr,
      secp256k1_wrapper_generate_keys lib fuel w p1 p2 compressed
      = Some {| g_ret := -1; g_world := w; g_frame := fr |})
  /\ secp256k1_wrapper_derive_pubkey lib w p1 p2 compressed = (-1, w).
Proof.
  intros H. apply invalid_args_iff in H.
  unfold secp256k1_wrapper_generate_keys, secp256k1_wrapper_derive_pubkey,
    returning.
  rewrite H. split; [eexists|]; reflexivity.
Qed.

(** The path that returns 0. *)
Lemma generate_keys_success (lib : libsecp256k1) (fuel : nat) (w : world)
  (privkey_out pubkey_out compressed : Z) (r : gen_result) :
  secp256k1_wrapper_generate_keys lib fuel w privkey_out pubkey_out compressed
  = Some r ->
  g_ret r = 0 ->
  exists (ctx : secp256k1_context lib) (key : list byte)
         (pk : secp256k1_pubkey lib) (enc : list byte) (ok2 ok3 : Z),
    invalid_args privkey_out pubkey_out compressed = false
    /\ secp256k1_context_create lib SECP256K1_CONTEXT_SIGN <> None
    /\ length key = 32%nat
    /\ secp256k1_ec_seckey_verify lib ctx key <> 0
    /\ secp256k1_ec_pubkey_create lib ctx key = (ok2, pk) /\ ok2 <> 0
    /\ secp256k1_ec_pubkey_serialize lib ctx pk (pubkey_len_of compressed)
         (flags_of compressed) = (ok3, enc) /\ ok3 <> 0
    /\ mem (g_world r)
       = memcpy
           (serialize_into (mem w) pubkey_out (pubkey_len_of compressed) enc)
           privkey_out key PRIVKEY_SIZE.
Proof.
  generate_paths; intros Hret; try discriminate Hret.
  apply fill_random_quiet in Eseed. destruct Eseed as ([M1 _ _] & _ & _).
  apply draw_privkey_spec in Edraw.
  destruct Edraw as (M2 & _ & L & _ & V).
  exists ctx1, key, pk, enc, ok2, ok3.
  apply Z.eqb_neq in Eok2, Eok3.
  rewrite uninit_length in L.
  repeat split; auto; [congruence|].
  cbn. rewrite M2. cbn. rewrite M1. reflexivity.
Qed.

Lemma load_memcpy (m : memory) (p : Z) (key : list byte) :
  length key = 32%nat ->
  load_bytes (memcpy m p key PRIVKEY_SIZE) p 32 = key.
Proof.
  intros L. unfold memcpy.
  replace (firstn (Z.to_nat PRIVKEY_SIZE) key) with key
    by (symmetry; apply firstn_all2; rewrite L; apply Nat.le_refl).
  rewrite <- L. apply load_store_same.
Qed.

(** C1. When secp256k1_wrapper_generate_keys returns 0, the 32 bytes at
    [privkey_out] are a key that secp256k1_ec_seckey_verify accepted; with
    the library's check deciding the curve validity predicate, they are a
    nonzero scalar below the group order. *)
Theorem generate_keys_privkey_valid (lib : libsecp256k1) (fuel : nat)
  (w : world) (privkey_out pubkey_out compressed : Z) (r : gen_result) :
  verify_is_curve_valid lib ->
  secp256k1_wrapper_generate_keys lib fuel w privkey_out pubkey_out compressed
  = Some r ->
  g_ret r = 0 ->
  (exists ctx,
      secp256k1_ec_seckey_verify lib ctx
        (load_bytes (mem (g_world r)) privkey_out 32) <> 0)
  /\ curve_valid (load_bytes (mem (g_world r)) privkey_out 32).
Proof.
  intros Hlib Hrun Hret.
  destruct (generate_keys_success _ _ _ _ _ _ _ Hrun Hret)
    as (ctx & key & pk & enc & ok2 & ok3 & _ & _ & L & V & _ & _ & _ & _ & M).
  rewrite M, load_memcpy by exact L.
  split; [now exists ctx | now apply (Hlib ctx)].
Qed.

(** ** Paths through secp256k1_wrapper_derive_pubkey *)

(** One goal per return statement: -1, -5 (verify), -5 (create),
    -5 (serialize), 0, -2. *)
Ltac derive_paths :=
  unfold secp256k1_wrapper_derive_pubkey; cbv zeta;
  destruct (invalid_args _ _ _) eqn:Eargs;
  [ | destruct (secp256k1_context_create _ _) as [ctx0|] eqn:Ectx;
      [ destruct (secp256k1_ec_seckey_verify _ _ _ =? 0) eqn:Ev;
        [ | destruct (secp256k1_ec_pubkey_create _ _ _) as [ok2 pk] eqn:Ecreate;
            destruct (ok2 =? 0) eqn:Eok2;
            [ | destruct (secp256k1_ec_pubkey_serialize _ _ _ _ _)
                  as [ok3 enc] eqn:Eser;
                destruct (ok3 =? 0) eqn:Eok3 ] ]
      | ] ];
  cbn [fst snd mem log with_mem context_destroy].

(** The only store secp256k1_wrapper_derive_pubkey performs is the one of
    secp256k1_ec_pubkey_serialize into [pubkey_out]. *)
Lemma derive_pubkey_stores (lib : libsecp256k1) (w : world)
  (privkey pubkey_out compressed : Z) (a : Z) :
  a < pubkey_out \/ pubkey_out + pubkey_len_of compressed <= a ->
  mem (snd (secp256k1_wrapper_derive_pubkey lib w privkey pubkey_out compressed)) a
  = mem w a.
Proof.
  intros Ha. derive_paths; try reflexivity;
    unfold serialize_into; apply store_bytes_outside;
    rewrite fit_length;
    (assert (0 <= pubkey_len_of compressed)
      by (unfold pubkey_len_of, PUBKEY_UNCOMPRESSION_SIZE,
            PUBKEY_COMPRESSION_SIZE; destruct (compressed =? 0); lia));
    lia.
Qed.

(** C8. secp256k1_wrapper_derive_pubkey stores nothing outside the
    [pubkey_out] region on any path, and on the paths that end before
    serialization it stores nothing at all; so when the output region does
    not overlap the 32 bytes at [privkey], these are unchanged on return,
    neither overwritten nor wiped. *)
Theorem derive_pubkey_preserves_privkey (lib : libsecp256k1) (w : world)
  (privkey pubkey_out compressed : Z) :
  privkey + PRIVKEY_SIZE <= pubkey_out
  \/ pubkey_out + pubkey_len_of compressed <= privkey ->
  let '(ret, w') :=
    secp256k1_wrapper_derive_pubkey lib w privkey pubkey_out compressed in
  load_bytes (mem w') privkey 32 = load_bytes (mem w) privkey 32
  /\ (forall a,
         a < pubkey_out \/ pubkey_out + pubkey_len_of compressed <= a ->
         mem w' a = mem w a)
  /\ (ret = -1 \/ ret = -2 -> mem w' = mem w).
Proof.
  intros Hdisj.
  pose proof (derive_pubkey_stores lib w privkey pubkey_out compressed) as Hst.
  destruct (secp256k1_wrapper_derive_pubkey lib w privkey pubkey_out compressed)
    as [ret w'] eqn:Hrun.
  cbn [snd] in Hst. split; [|split].
  - apply load_bytes_ext. intros a Ha. apply Hst.
    unfold PRIVKEY_SIZE in Hdisj. lia.
  - exact Hst.
  - revert Hrun. derive_paths; intros Hrun; inversion Hrun; subst;
      intros [H|H]; try discriminate H; reflexivity.
Qed.

Lemma load_serialize_into (m : memory) (output outputlen : Z) (enc : list byte) :
  load_bytes (serialize_into m output outputlen enc) output (Z.to_nat outputlen)
  = fit (Z.to_nat outputlen) enc.
Proof.
  unfold serialize_into.
  rewrite <- (fit_length (Z.to_nat outputlen) enc) at 2.
  apply load_store_same.
Qed.

Lemma invalid_args_nonnull (p1 p2 compressed : Z) :
  p1 <> NULL -> p2 <> NULL ->
  invalid_args p1 p2 compressed
  = negb (compressed =? 0) && negb (compressed =? 1).
Proof.
  intros H1 H2. unfold invalid_args.
  apply Z.eqb_neq in H1, H2. now rewrite H1, H2.
Qed.

(** C5. The result of secp256k1_wrapper_derive_pubkey depends on the 32 key
    bytes and on [compressed] only: two calls on non-null buffers that hold
    the same key bytes, in whatever memory, kernel state and trace, and
    wherever the buffers lie, return the same code and, when that is 0,
    leave the same bytes at their [pubkey_out]. *)
Theorem derive_pubkey_deterministic (lib : libsecp256k1) (w1 w2 : world)
  (privkey1 pubkey_out1 privkey2 pubkey_out2 compressed : Z) :
  privkey1 <> NULL -> pubkey_out1 <> NULL ->
  privkey2 <> NULL -> pubkey_out2 <> NULL ->
  load_bytes (mem w1) privkey1 32 = load_bytes (mem w2) privkey2 32 ->
  let run1 :=
    secp256k1_wrapper_derive_pubkey lib w1 privkey1 pubkey_out1 compressed in
  let run2 :=
    secp256k1_wrapper_derive_pubkey lib w2 privkey2 pubkey_out2 compressed in
  fst run1 = fst run2
  /\ (fst run1 = 0 ->
      load_bytes (mem (snd run1)) pubkey_out1
        (Z.to_nat (pubkey_len_of compressed))
      = load_bytes (mem (snd run2)) pubkey_out2
          (Z.to_nat (pubkey_len_of compressed))).
Proof.
  intros Hp1 Hq1 Hp2 Hq2 Hkey. cbv zeta.
  unfold secp256k1_wrapper_derive_pubkey.
  rewrite (invalid_args_nonnull _ _ _ Hp1 Hq1),
    (invalid_args_nonnull _ _ _ Hp2 Hq2).
  destruct (negb (compressed =? 0) && negb (compressed =? 1));
    [split; [reflexivity | discriminate]|].
  destruct (secp256k1_context_create lib SECP256K1_CONTEXT_SIGN) as [ctx|];
    [|split; [reflexivity | discriminate]].
  cbn [mem log]. change (Z.to_nat PRIVKEY_SIZE) with 32%nat. rewrite Hkey.
  destruct (secp256k1_ec_seckey_verify lib ctx (load_bytes (mem w2) privkey2 32)
            =? 0); [split; [reflexivity | discriminate]|].
  destruct (secp256k1_ec_pubkey_create lib ctx (load_bytes (mem w2) privkey2 32))
    as [ok2 pk].
  destruct (ok2 =? 0); [split; [reflexivity | discriminate]|].
  destruct (secp256k1_ec_pubkey_serialize lib ctx pk (pubkey_len_of compressed)
              (flags_of compressed)) as [ok3 enc].
  destruct (ok3 =? 0); [split; [reflexivity | discriminate]|].
  split; [reflexivity|]. intros _. cbn [fst snd mem log with_mem context_destroy].
  now rewrite !load_serialize_into.
Qed.

Lemma invalid_args_other_buffer (p1 p2 p2' compressed : Z) :
  invalid_args p1 p2 compressed = false -> p2' <> NULL ->
  invalid_args p1 p2' compressed = false.
Proof.
  unfold invalid_args. intros H Hp. apply Z.eqb_neq in Hp. rewrite Hp.
  destruct (p1 =? NULL); [discriminate|].
  destruct (p2 =? NULL); [discriminate|]. exact H.
Qed.

(** C4. After secp256k1_wrapper_generate_keys has returned 0 for buffers
    that do not overlap, secp256k1_wrapper_derive_pubkey on the generated
    private key and the same [compressed], into any non-null buffer, returns
    0 and writes the bytes that generation left at [pubkey_out]. The library
    is taken to compute the same results in every context, the randomized
    one of generation and the fresh one of derivation. *)
Theorem generate_then_derive_roundtrip (lib : libsecp256k1) (fuel : nat)
  (w : world) (privkey_out pubkey_out out2 compressed : Z) (r : gen_result) :
  context_independent lib ->
  secp256k1_wrapper_generate_keys lib fuel w privkey_out pubkey_out compressed
  = Some r ->
  g_ret r = 0 ->
  privkey_out + PRIVKEY_SIZE <= pubkey_out
  \/ pubkey_out + pubkey_len_of compressed <= privkey_out ->
  out2 <> NULL ->
  let run :=
    secp256k1_wrapper_derive_pubkey lib (g_world r) privkey_out out2 compressed
  in
  fst run = 0
  /\ load_bytes (mem (snd run)) out2 (Z.to_nat (pubkey_len_of compressed))
     = load_bytes (mem (g_world r)) pubkey_out
         (Z.to_nat (pubkey_len_of compressed)).
Proof.
  intros (Iv & Ic & Is) Hrun Hret Hdisj Hout. cbv zeta.
  destruct (generate_keys_success _ _ _ _ _ _ _ Hrun Hret)
    as (ctx & key & pk & enc & ok2 & ok3
        & Hargs & Hctx & L & V & Hc & Hok2 & Hs & Hok3 & M).
  assert (Hlen : 0 <= pubkey_len_of compressed)
    by (unfold pubkey_len_of, PUBKEY_UNCOMPRESSION_SIZE,
          PUBKEY_COMPRESSION_SIZE; destruct (compressed =? 0); lia).
  assert (Hpub : load_bytes (mem (g_world r)) pubkey_out
                   (Z.to_nat (pubkey_len_of compressed))
                 = fit (Z.to_nat (pubkey_len_of compressed)) enc).
  { rewrite M. unfold memcpy. rewrite load_store_disjoint.
    - apply load_serialize_into.
    - rewrite length_firstn, L. unfold PRIVKEY_SIZE in *. lia. }
  unfold secp256k1_wrapper_derive_pubkey.
  rewrite (invalid_args_other_buffer _ _ _ _ Hargs Hout).
  destruct (secp256k1_context_create lib SECP256K1_CONTEXT_SIGN) as [ctx0|];
    [|congruence].
  cbn [mem log]. change (Z.to_nat PRIVKEY_SIZE) with 32%nat.
  replace (load_bytes (mem (g_world r)) privkey_out 32) with key
    by (rewrite M; symmetry; now apply load_memcpy).
  rewrite (Iv ctx0 ctx key), (Ic ctx0 ctx key), Hc.
  apply Z.eqb_neq in V, Hok2, Hok3. rewrite V, Hok2.
  rewrite (Is ctx0 ctx), Hs, Hok3.
  cbn [fst snd mem log with_mem context_destroy].
  split; [reflexivity|]. now rewrite load_serialize_into, Hpub.
Qed.

(** ** Events of one call *)

Lemma new_events_app (w w' : world) (evs : list event) :
  trace w' = trace w ++ evs -> new_events w w' = evs.
Proof.
  intros H. unfold new_events.
  now rewrite H, skipn_app, skipn_all, Nat.sub_diag.
Qed.

Lemma logged_step (P : event -> Prop) (w w1 : world) (e : event) :
  logged P w w1 -> P e -> logged P w (log e w1).
Proof.
  intros H He. eapply logged_trans; [exact H|].
  now apply (logged_one P e).
Qed.

Lemma logged_with_mem (P : event -> Prop) (w w1 : world) (m : memory) :
  logged P w w1 -> logged P w (with_mem m w1).
Proof. intros H. exact H. Qed.

Lemma syscall_no_pubkey_failure (e : event) : is_syscall e -> no_pubkey_failure e.
Proof. intros H [-> | ->]; exact H. Qed.

Lemma draw_no_pubkey_failure (e : event) : is_draw_event e -> no_pubkey_failure e.
Proof.
  intros [H|[v ->]]; [now apply syscall_no_pubkey_failure|].
  intros [H|H]; discriminate H.
Qed.

Lemma nonzero_no_pubkey_failure (ok : Z) :
  (ok =? 0) = false ->
  no_pubkey_failure (EvPubkeyCreate ok) /\ no_pubkey_failure (EvPubkeySerialize ok).
Proof.
  intros H. apply Z.eqb_neq in H.
  split; intros [E|E]; inversion E; contradiction.
Qed.

Ltac no_failure :=
  match goal with
  | |- no_pubkey_failure (EvPubkeyCreate _) =>
      now apply nonzero_no_pubkey_failure
  | |- no_pubkey_failure (EvPubkeySerialize _) =>
      now apply nonzero_no_pubkey_failure
  | |- no_pubkey_failure _ => intros [E|E]; discriminate E
  | |- True => exact I
  end.

(** Proves [logged P w w'] for the world at a return statement, from the
    [logged P] facts of the calls on the way. *)
Ltac logged_chain :=
  unfold context_destroy;
  repeat first
    [ apply logged_refl
    | apply logged_step; [|no_failure]
    | apply logged_with_mem
    | eapply logged_trans; [|eassumption] ].

Section WrapperTraces.

Variable lib : libsecp256k1.

(** When the loop ends with an accepted candidate, the last event is the
    check that accepted it. *)
Lemma draw_privkey_accepts_last (fuel : nat) (ctx : secp256k1_context lib) :
  forall w privkey key w',
    draw_privkey lib fuel ctx w privkey = Some (true, key, w') ->
    exists evs,
      trace w' = trace w ++ evs
                 ++ [EvSeckeyVerify (secp256k1_ec_seckey_verify lib ctx key)]
      /\ Forall is_draw_event evs.
Proof.
  induction fuel as [|fuel IH]; intros w privkey key w' H;
    cbn [draw_privkey] in H; [discriminate|].
  destruct (secp256k1_wrapper_fill_random w privkey PRIVKEY_SIZE)
    as [[[r key1] w1]|] eqn:Efill; [|discriminate].
  apply fill_random_quiet in Efill.
  destruct Efill as ([_ _ (evs1 & T1 & F1)] & _ & _).
  assert (F1' : Forall is_draw_event evs1).
  { eapply Forall_impl; [|exact F1]. intros e He. now left. }
  destruct (r =? 0); [discriminate|].
  destruct (secp256k1_ec_seckey_verify lib ctx key1 =? 0) eqn:Ev.
  - apply IH in H. destruct H as (evs2 & T2 & F2).
    exists (evs1 ++ EvSeckeyVerify (secp256k1_ec_seckey_verify lib ctx key1)
                 :: evs2).
    split.
    + rewrite T2. cbn [trace log]. rewrite T1.
      rewrite <- !app_assoc. reflexivity.
    + apply Forall_app. split; [exact F1'|]. constructor; [|exact F2].
      right. eexists. reflexivity.
  - inversion H; subst. exists evs1. split; [|exact F1'].
    cbn [trace log]. rewrite T1. now rewrite <- app_assoc.
Qed.

(** A call of secp256k1_wrapper_generate_keys that does not return -5 has
    logged no failed public-key creation and no failed serialization. *)
Lemma generate_keys_failure_logged (fuel : nat) (w : world)
  (privkey_out pubkey_out compressed : Z) (r : gen_result) :
  secp256k1_wrapper_generate_keys lib fuel w privkey_out pubkey_out compressed
  = Some r ->
  g_ret r = -5 \/ logged no_pubkey_failure w (g_world r).
Proof.
  generate_paths; try (left; reflexivity); right;
    try (apply fill_random_quiet in Eseed;
         destruct Eseed as ([_ _ Ts] & _ & _);
         apply (logged_weaken _ _ _ _ syscall_no_pubkey_failure) in Ts);
    try (apply draw_privkey_spec in Edraw;
         destruct Edraw as (_ & _ & _ & Td & _);
         apply (logged_weaken _ _ _ _ draw_no_pubkey_failure) in Td);
    logged_chain.
Qed.

Lemma derive_pubkey_failure_logged (w : world)
  (privkey pubkey_out compressed : Z) :
  let run := secp256k1_wrapper_derive_pubkey lib w privkey pubkey_out compressed in
  fst run = -5 \/ logged no_pubkey_failure w (snd run).
Proof.
  cbv zeta. derive_paths; try (left; reflexivity); right; logged_chain.
Qed.

End WrapperTraces.

Lemma generate_keys_failure_code (lib : libsecp256k1) (fuel : nat)
  (w : world) (p1 p2 compressed : Z) (r : gen_result) :
  secp256k1_wrapper_generate_keys lib fuel w p1 p2 compressed = Some r ->
  In (EvPubkeyCreate 0) (new_events w (g_world r))
  \/ In (EvPubkeySerialize 0) (new_events w (g_world r)) ->
  g_ret r = -5.
Proof.
  intros Hrun Hin.
  destruct (generate_keys_failure_logged lib _ _ _ _ _ _ Hrun) as [H|H];
    [exact H|exfalso].
  destruct Hin as [Hin|Hin];
    apply (logged_not_in _ _ _ _ H) in Hin; auto;
    intros Hn; apply Hn; [now left | now right].
Qed.

Lemma derive_pubkey_failure_code (lib : libsecp256k1) (w : world)
  (p1 p2 compressed : Z) :
  let run := secp256k1_wrapper_derive_pubkey lib w p1 p2 compressed in
  In (EvPubkeyCreate 0) (new_events w (snd run))
  \/ In (EvPubkeySerialize 0) (new_events w (snd run)) ->
  fst run = -5.
Proof.
  cbv zeta. intros Hin.
  destruct (derive_pubkey_failure_logged lib w p1 p2 compressed) as [H|H];
    [exact H|exfalso].
  destruct Hin as [Hin|Hin];
    apply (logged_not_in _ _ _ _ H) in Hin; auto;
    intros Hn; apply Hn; [now left | now right].
Qed.

(** ** Caller memory across secp256k1_wrapper_generate_keys *)

(** What the calls on the way leave of the caller's memory. *)
Ltac path_memory :=
  try match goal with
      | E : secp256k1_wrapper_fill_random _ _ _ = Some _ |- _ =>
          apply fill_random_quiet in E;
          let M := fresh "Mseed" in
          let T := fresh "Tseed" in
          destruct E as ([M _ T] & _ & _); cbn [mem log] in M
      end;
  try match goal with
      | E : draw_privkey _ _ _ _ _ = Some _ |- _ =>
          let H := fresh "Hacc" in
          pose proof (draw_privkey_accepts_last _ _ _ _ _ _ _ E) as H
      end;
  try match goal with
      | E : draw_privkey _ _ _ _ _ = Some _ |- _ =>
          apply draw_privkey_spec in E;
          let M := fresh "Mdraw" in
          let L := fresh "Ldraw" in
          let V := fresh "Vdraw" in
          destruct E as (M & _ & L & _ & V); cbn [mem log] in M
      end.

Lemma pubkey_len_of_nonneg (compressed : Z) : 0 <= pubkey_len_of compressed.
Proof.
  unfold pubkey_len_of, PUBKEY_UNCOMPRESSION_SIZE, PUBKEY_COMPRESSION_SIZE.
  destruct (compressed =? 0); lia.
Qed.

(** Before its last store, the function has stored at most the output of
    secp256k1_ec_pubkey_serialize, at [pubkey_out]. *)
Lemma generate_keys_error_memory (lib : libsecp256k1) (fuel : nat) (w : world)
  (privkey_out pubkey_out compressed : Z) (r : gen_result) :
  secp256k1_wrapper_generate_keys lib fuel w privkey_out pubkey_out compressed
  = Some r ->
  g_ret r <> 0 ->
  (g_ret r = -1 \/ g_ret r = -2 \/ g_ret r = -3 \/ g_ret r = -5)
  /\ (g_ret r <> -5 -> mem (g_world r) = mem w)
  /\ (mem (g_world r) = mem w
      \/ exists enc,
           mem (g_world r)
           = serialize_into (mem w) pubkey_out (pubkey_len_of compressed) enc).
Proof.
  generate_paths; intros Hret; try (exfalso; apply Hret; reflexivity);
    path_memory; cbn [mem log with_mem context_destroy];
    (split; [auto 6|]);
    (split;
     [ intros H; first [now elim H | congruence]
     | first [left; congruence | right; exists enc; congruence] ]).
Qed.

Lemma secure_memzero_all (buf : list byte) :
  length buf = 32%nat -> secure_memzero buf PRIVKEY_SIZE = zeros 32.
Proof.
  intros L. unfold secure_memzero. change (Z.to_nat PRIVKEY_SIZE) with 32%nat.
  rewrite <- L. apply blit_zeros_all.
Qed.

(** The returns behind the candidate loop, 0 and -5, do wipe both stack
    arrays. *)
Lemma generate_keys_wipes_behind_loop (lib : libsecp256k1) (fuel : nat)
  (w : world) (privkey_out pubkey_out compressed : Z) (r : gen_result) :
  secp256k1_wrapper_generate_keys lib fuel w privkey_out pubkey_out compressed
  = Some r ->
  g_ret r = 0 \/ g_ret r = -5 ->
  fr_randomize (g_frame r) = zeros 32 /\ fr_privkey (g_frame r) = zeros 32.
Proof.
  generate_paths; intros [Hret|Hret]; try discriminate Hret;
    apply fill_random_quiet in Eseed; destruct Eseed as (_ & Ls & _);
    apply draw_privkey_spec in Edraw; destruct Edraw as (_ & _ & Lk & _);
    rewrite uninit_length in Ls, Lk;
    split; now apply secure_memzero_all.
Qed.

(** C9. secp256k1_wrapper_generate_keys, for buffers that do not overlap:
    on every return other than 0 (these are -1, -2, -3 and -5) the 32 bytes
    at [privkey_out] are what they were at entry, and on -1, -2 and -3 all
    of the caller's memory is; and a call that returns 0, the only one that
    stores to [privkey_out], has by then created and randomized the context,
    had a candidate accepted, created the public key and serialized it, each
    with success, in that order. *)
Theorem generate_keys_error_keeps_privkey_out (lib : libsecp256k1)
  (fuel : nat) (w : world) (privkey_out pubkey_out compressed : Z)
  (r : gen_result) :
  secp256k1_wrapper_generate_keys lib fuel w privkey_out pubkey_out compressed
  = Some r ->
  privkey_out + PRIVKEY_SIZE <= pubkey_out
  \/ pubkey_out + pubkey_len_of compressed <= privkey_out ->
  (g_ret r <> 0 ->
   load_bytes (mem (g_world r)) privkey_out 32
   = load_bytes (mem w) privkey_out 32
   /\ (g_ret r = -1 \/ g_ret r = -2 \/ g_ret r = -3 \/ g_ret r = -5)
   /\ (g_ret r <> -5 -> mem (g_world r) = mem w))
  /\ (g_ret r = 0 ->
      exists evs1 evs2 ok1 v ok2 ok3,
        new_events w (g_world r)
        = EvContextCreate SECP256K1_CONTEXT_SIGN :: evs1
          ++ EvContextRandomize ok1 :: evs2
          ++ [EvSeckeyVerify v; EvPubkeyCreate ok2; EvPubkeySerialize ok3;
              EvContextDestroy]
        /\ ok1 <> 0 /\ v <> 0 /\ ok2 <> 0 /\ ok3 <> 0
        /\ Forall is_syscall evs1 /\ Forall is_draw_event evs2).
Proof.
  intros Hrun Hdisj. split.
  - intros Hret.
    destruct (generate_keys_error_memory _ _ _ _ _ _ _ Hrun Hret)
      as (Hcode & Hmem & Hst).
    split; [|split; assumption].
    destruct Hst as [->|[enc ->]]; [reflexivity|].
    unfold serialize_into. apply load_store_disjoint.
    rewrite fit_length. pose proof (pubkey_len_of_nonneg compressed).
    unfold PRIVKEY_SIZE in Hdisj. lia.
  - revert Hrun. generate_paths; intros Hret; try discriminate Hret.
    path_memory. destruct Tseed as (evs1 & T1 & F1).
    destruct Hacc as (evs2 & T2 & F2).
    exists evs1, evs2, ok1, (secp256k1_ec_seckey_verify lib ctx1 key), ok2, ok3.
    apply Z.eqb_neq in Eok1, Eok2, Eok3.
    repeat split; auto.
    apply new_events_app. cbn [trace log with_mem context_destroy].
    rewrite T2. cbn [trace log]. rewrite T1. cbn [trace log].
    rewrite <- !app_assoc. reflexivity.
Qed.

(** ** An invalid caller-supplied key *)

(** C3, as the code has it. For a caller-supplied private key that
    secp256k1_ec_seckey_verify rejects (buffers non-null, [compressed] in
    {0, 1}, context created), secp256k1_wrapper_derive_pubkey returns -5,
    having destroyed the context and stored nothing: the code it also
    returns when creation or serialization of the public key fails. In
    secp256k1_wrapper_generate_keys a return of -5 comes only after a
    candidate was accepted and the creation or the serialization of its
    public key failed, never from a rejected candidate. *)
Theorem derive_invalid_key_returns_minus5 (lib : libsecp256k1) (w : world)
  (privkey pubkey_out compressed : Z) (ctx : secp256k1_context lib) :
  invalid_args privkey pubkey_out compressed = false ->
  secp256k1_context_create lib SECP256K1_CONTEXT_SIGN = Some ctx ->
  secp256k1_ec_seckey_verify lib ctx (load_bytes (mem w) privkey 32) = 0 ->
  (exists w',
      secp256k1_wrapper_derive_pubkey lib w privkey pubkey_out compressed
      = (-5, w')
      /\ mem w' = mem w
      /\ new_events w w'
         = [EvContextCreate SECP256K1_CONTEXT_SIGN; EvSeckeyVerify 0;
            EvContextDestroy])
  /\ (forall wd p1 p2 cd,
         let run := secp256k1_wrapper_derive_pubkey lib wd p1 p2 cd in
         In (EvPubkeyCreate 0) (new_events wd (snd run))
         \/ In (EvPubkeySerialize 0) (new_events wd (snd run)) ->
         fst run = -5)
  /\ (forall fuel wg p1 p2 cg r,
         secp256k1_wrapper_generate_keys lib fuel wg p1 p2 cg = Some r ->
         g_ret r = -5 ->
         exists evs v,
           v <> 0
           /\ (new_events wg (g_world r)
               = evs ++ [EvSeckeyVerify v; EvPubkeyCreate 0; EvContextDestroy]
               \/ exists ok2,
                   ok2 <> 0
                   /\ new_events wg (g_world r)
                      = evs ++ [EvSeckeyVerify v; EvPubkeyCreate ok2;
                                EvPubkeySerialize 0; EvContextDestroy])).
Proof.
  intros Hargs Hctx Hv. split; [|split].
  - unfold secp256k1_wrapper_derive_pubkey. rewrite Hargs, Hctx.
    cbn [mem log]. change (Z.to_nat PRIVKEY_SIZE) with 32%nat.
    rewrite Hv. cbn [Z.eqb]. eexists. split; [reflexivity|].
    split; [reflexivity|]. apply new_events_app.
    cbn [trace log context_destroy]. now rewrite <- !app_assoc.
  - intros wd p1 p2 cd. apply derive_pubkey_failure_code.
  - clear Hargs Hctx Hv. intros fuel wg p1 p2 cg r.
    generate_paths; intros Hret; try discriminate Hret;
      path_memory; destruct Tseed as (evs1 & T1 & _);
      destruct Hacc as (evs2 & T2 & _);
      apply Z.eqb_eq in Eok2 || apply Z.eqb_eq in Eok3; subst;
      exists (EvContextCreate SECP256K1_CONTEXT_SIGN :: evs1
              ++ EvContextRandomize ok1 :: evs2),
        (secp256k1_ec_seckey_verify lib ctx1 key);
      (split; [now apply Vdraw|]).
    + left. apply new_events_app. cbn [trace log with_mem context_destroy].
      rewrite T2. cbn [trace log]. rewrite T1. cbn [trace log].
      rewrite <- !app_assoc. cbn [app]. rewrite <- !app_assoc. reflexivity.
    + right. exists ok2. apply Z.eqb_neq in Eok2. split; [exact Eok2|].
      apply new_events_app. cbn [trace log with_mem context_destroy].
      rewrite T2. cbn [trace log]. rewrite T1. cbn [trace log].
      rewrite <- !app_assoc. cbn [app]. rewrite <- !app_assoc. reflexivity.
Qed.

(** ** The library instance and concrete runs *)

Lemma curve_validb_spec (k : list byte) : curve_validb k = true <-> curve_valid k.
Proof.
  unfold curve_validb, curve_valid.
  rewrite !andb_true_iff, Nat.eqb_eq, !Z.ltb_lt. tauto.
Qed.

Lemma toy_verify_is_curve_valid (s : toy_switches) : verify_is_curve_valid (toy s).
Proof.
  intros ctx k. cbn. rewrite <- curve_validb_spec.
  destruct (curve_validb k); cbn; split; intros H; try easy.
Qed.

Lemma toy_context_independent (s : toy_switches) : context_independent (toy s).
Proof. repeat split. Qed.

(** C3, as stated, fails: the all-zero key is rejected with -5, and -5 is
    also what a failed creation and a failed serialization of the public
    key of a valid key return, from derivation and from generation. *)
Lemma invalid_key_code_is_shared :
  curve_validb (load_bytes (mem w_zero_key) 100 32) = false
  /\ curve_validb (load_bytes (mem w_key_one) 100 32) = true
  /\ fst (secp256k1_wrapper_derive_pubkey (toy all_ok) w_zero_key 100 200 1)
     = -5
  /\ fst (secp256k1_wrapper_derive_pubkey (toy create_fails) w_key_one 100 200 1)
     = -5
  /\ fst (secp256k1_wrapper_derive_pubkey (toy serialize_fails) w_key_one
            100 200 1)
     = -5
  /\ option_map g_ret
       (secp256k1_wrapper_generate_keys (toy create_fails) 2 w_second_draw
          100 200 1)
     = Some (-5).
Proof. vm_compute. repeat split. Qed.

(** C2 fails on the code: when a draw inside the candidate loop fails,
    secp256k1_wrapper_generate_keys returns -3 with the stack array
    [privkey] still holding the earlier candidate, or the bytes of a partial
    read. *)
Lemma generate_keys_draw_failure_leaves_candidate :
  (exists r,
      secp256k1_wrapper_generate_keys (toy all_ok) 2 w_draw_fails 100 200 1
      = Some r
      /\ g_ret r = -3
      /\ fr_privkey (g_frame r) = key_ff
      /\ fr_privkey (g_frame r) <> zeros 32
      /\ new_events w_draw_fails (g_world r)
         = [EvContextCreate SECP256K1_CONTEXT_SIGN; EvGetrandom 32;
            EvContextRandomize 1; EvGetrandom 32; EvSeckeyVerify 0;
            EvGetrandom 32; EvContextDestroy])
  /\ (exists r,
         secp256k1_wrapper_generate_keys (toy all_ok) 2 w_partial_read 100 200 1
         = Some r
         /\ g_ret r = -3
         /\ fr_privkey (g_frame r) = repeat x11 16 ++ repeat xaa 16
         /\ fr_privkey (g_frame r) <> zeros 32).
Proof.
  split; eexists; (split; [vm_compute; reflexivity|]);
    repeat split; vm_compute; discriminate.
Qed.

(** ** The theorems at concrete runs *)

Lemma generate_keys_privkey_valid_witness :
  exists r,
    secp256k1_wrapper_generate_keys (toy all_ok) 2 w_second_draw 100 200 1
    = Some r
    /\ g_ret r = 0
    /\ load_bytes (mem (g_world r)) 100 32 = key_one
    /\ curve_valid (load_bytes (mem (g_world r)) 100 32).
Proof.
  assert (E : exists r,
             secp256k1_wrapper_generate_keys (toy all_ok) 2 w_second_draw
               100 200 1 = Some r
             /\ g_ret r = 0
             /\ load_bytes (mem (g_world r)) 100 32 = key_one)
    by (eexists; split; [vm_compute; reflexivity|]; split; reflexivity).
  destruct E as (r & E & Hret & Hkey). exists r.
  split; [exact E|]. split; [exact Hret|]. split; [exact Hkey|].
  exact (proj2 (generate_keys_privkey_valid (toy all_ok) 2 w_second_draw
                  100 200 1 r (toy_verify_is_curve_valid all_ok) E Hret)).
Defined.

Lemma derive_invalid_key_returns_minus5_witness :
  curve_validb (load_bytes (mem w_zero_key) 100 32) = false
  /\ exists w',
       secp256k1_wrapper_derive_pubkey (toy all_ok) w_zero_key 100 200 1
       = (-5, w')
       /\ mem w' = mem w_zero_key.
Proof.
  split; [vm_compute; reflexivity|].
  destruct (derive_invalid_key_returns_minus5 (toy all_ok) w_zero_key
              100 200 1 [] eq_refl eq_refl eq_refl)
    as [(w' & Hrun & Hmem & _) _].
  exists w'. split; assumption.
Defined.

Lemma generate_then_derive_roundtrip_witness :
  exists r,
    secp256k1_wrapper_generate_keys (toy all_ok) 2 w_second_draw 100 200 1
    = Some r
    /\ g_ret r = 0
    /\ fst (secp256k1_wrapper_derive_pubkey (toy all_ok) (g_world r) 100 300 1)
       = 0
    /\ load_bytes
         (mem (snd (secp256k1_wrapper_derive_pubkey (toy all_ok) (g_world r)
                      100 300 1))) 300 33
       = load_bytes (mem (g_world r)) 200 33.
Proof.
  assert (E : exists r,
             secp256k1_wrapper_generate_keys (toy all_ok) 2 w_second_draw
               100 200 1 = Some r
             /\ g_ret r = 0)
    by (eexists; split; [vm_compute; reflexivity | reflexivity]).
  destruct E as (r & E & Hret). exists r.
  split; [exact E|]. split; [exact Hret|].
  apply (generate_then_derive_roundtrip (toy all_ok) 2 w_second_draw
           100 200 300 1 r (toy_context_independent all_ok) E Hret).
  - left. unfold PRIVKEY_SIZE. lia.
  - unfold NULL. lia.
Defined.

Lemma derive_pubkey_deterministic_witness :
  fst (secp256k1_wrapper_derive_pubkey (toy all_ok) w_key_one 100 200 1)
  = fst (secp256k1_wrapper_derive_pubkey (toy all_ok) w_key_one_elsewhere
           300 400 1)
  /\ load_bytes
       (mem (snd (secp256k1_wrapper_derive_pubkey (toy all_ok) w_key_one
                    100 200 1))) 200 33
     = load_bytes
         (mem (snd (secp256k1_wrapper_derive_pubkey (toy all_ok)
                      w_key_one_elsewhere 300 400 1))) 400 33.
Proof.
  assert (H1 : 100 <> NULL) by (unfold NULL; lia).
  assert (H2 : 200 <> NULL) by (unfold NULL; lia).
  assert (H3 : 300 <> NULL) by (unfold NULL; lia).
  assert (H4 : 400 <> NULL) by (unfold NULL; lia).
  destruct (derive_pubkey_deterministic (toy all_ok) w_key_one
              w_key_one_elsewhere 100 200 300 400 1 H1 H2 H3 H4 eq_refl)
    as [Hcode Hbytes].
  split; [exact Hcode|]. apply Hbytes. vm_compute. reflexivity.
Defined.

Lemma invalid_argument_without_effect_witness :
  secp256k1_wrapper_derive_pubkey (toy all_ok) w_key_one NULL 200 1
  = (-1, w_key_one)
  /\ secp256k1_wrapper_derive_pubkey (toy all_ok) w_key_one 100 200 2
     = (-1, w_key_one)
  /\ exists fr,
       secp256k1_wrapper_generate_keys (toy all_ok) 2 w_second_draw 100 NULL 1
       = Some {| g_ret := -1; g_world := w_second_draw; g_frame := fr |}.
Proof.
  split; [|split].
  - exact (proj2 (invalid_argument_without_effect (toy all_ok) 2 w_key_one
                    NULL 200 1 (or_introl eq_refl))).
  - apply (invalid_argument_without_effect (toy all_ok) 2 w_key_one 100 200 2).
    right. right. split; lia.
  - exact (proj1 (invalid_argument_without_effect (toy all_ok) 2 w_second_draw
                    100 NULL 1 (or_intror (or_introl eq_refl)))).
Defined.

Lemma fill_random_enosys_fallback_witness :
  0 <= 32 <= SIZE_MAX
  /\ exists r data' w',
       secp256k1_wrapper_fill_random w_enosys (zeros 32) 32
       = Some (r, data', w')
       /\ r = 1
       /\ data' = repeat x11 16 ++ repeat x22 16
       /\ exists k, urandom_fills (os_read (os w_enosys)) 32 k.
Proof.
  assert (Hs : 0 <= 32 <= SIZE_MAX) by (unfold SIZE_MAX; lia).
  split; [exact Hs|].
  destruct (fill_random_enosys_fallback w_enosys (zeros 32) 32 Hs) as [H _].
  destruct (H eq_refl) as (r & data' & w' & Hrun & _ & _ & Hiff).
  exists r, data', w'. split; [exact Hrun|].
  assert (Hr : r = 1 /\ data' = repeat x11 16 ++ repeat x22 16).
  { vm_compute in Hrun. inversion Hrun. split; reflexivity. }
  destruct Hr as [Hr Hd]. split; [exact Hr|]. split; [exact Hd|].
  apply Hiff; [vm_compute; discriminate | exact Hr].
Defined.

Lemma derive_pubkey_preserves_privkey_witness :
  100 + PRIVKEY_SIZE <= 200
  /\ fst (secp256k1_wrapper_derive_pubkey (toy all_ok) w_key_one 100 200 1) = 0
  /\ load_bytes
       (mem (snd (secp256k1_wrapper_derive_pubkey (toy all_ok) w_key_one
                    100 200 1))) 100 32
     = load_bytes (mem w_key_one) 100 32.
Proof.
  assert (Hd : 100 + PRIVKEY_SIZE <= 200) by (unfold PRIVKEY_SIZE; lia).
  split; [exact Hd|]. split; [vm_compute; reflexivity|].
  pose proof (derive_pubkey_preserves_privkey (toy all_ok) w_key_one
                100 200 1 (or_introl Hd)) as H.
  destruct (secp256k1_wrapper_derive_pubkey (toy all_ok) w_key_one 100 200 1)
    as [ret w'].
  exact (proj1 H).
Defined.

Lemma generate_keys_error_keeps_privkey_out_witness :
  exists r,
    secp256k1_wrapper_generate_keys (toy serialize_fails) 2 w_second_draw
      100 200 1 = Some r
    /\ g_ret r = -5
    /\ load_bytes (mem (g_world r)) 100 32
       = load_bytes (mem w_second_draw) 100 32.
Proof.
  assert (E : exists r,
             secp256k1_wrapper_generate_keys (toy serialize_fails) 2
               w_second_draw 100 200 1 = Some r
             /\ g_ret r = -5)
    by (eexists; split; [vm_compute; reflexivity | reflexivity]).
  destruct E as (r & E & Hret). exists r.
  split; [exact E|]. split; [exact Hret|].
  assert (Hd : 100 + PRIVKEY_SIZE <= 200) by (unfold PRIVKEY_SIZE; lia).
  destruct (generate_keys_error_keeps_privkey_out (toy serialize_fails) 2
              w_second_draw 100 200 1 r E (or_introl Hd)) as [H _].
  apply H. rewrite Hret. discriminate.
Defined.

(** * Further properties of the wrapper *)

(** ** secure_memzero *)

Lemma blit_prefix (buf : list byte) :
  forall bs, (length bs <= length buf)%nat ->
  blit buf O bs = bs ++ skipn (length bs) buf.
Proof.
  induction buf as [|b buf IH]; intros [|x bs] H; simpl in *;
    try reflexivity; try lia.
  f_equal. apply IH. lia.
Qed.

(** X1. secure_memzero(p, n) zeroes the first [n] bytes of the array and
    leaves the bytes behind them, and the length, as they were. *)
Theorem secure_memzero_wipes_prefix (p : list byte) (n : Z) :
  0 <= n <= Z.of_nat (length p) ->
  secure_memzero p n = zeros (Z.to_nat n) ++ skipn (Z.to_nat n) p
  /\ length (secure_memzero p n) = length p.
Proof.
  intros Hn. unfold secure_memzero. split; [|apply blit_length].
  rewrite blit_prefix by (rewrite zeros_length; lia).
  now rewrite zeros_length.
Qed.

Lemma secure_memzero_wipes_prefix_witness :
  0 <= 2 <= Z.of_nat (length [x11; x22; x33])
  /\ secure_memzero [x11; x22; x33] 2 = [x00; x00; x33].
Proof.
  assert (H : 0 <= 2 <= Z.of_nat (length [x11; x22; x33])) by (simpl; lia).
  split; [exact H|].
  exact (proj1 (secure_memzero_wipes_prefix [x11; x22; x33] 2 H)).
Defined.

(** ** The life of the context *)

Lemma syscall_not_lifecycle (e : event) : is_syscall e -> ~ is_lifecycle e.
Proof. destruct e; simpl; tauto. Qed.

Lemma draw_not_lifecycle (e : event) : is_draw_event e -> ~ is_lifecycle e.
Proof.
  intros [H|[v ->]]; [now apply syscall_not_lifecycle | simpl; tauto].
Qed.

(** As [logged_chain], for any property of events that holds of the
    library events by computation. *)
Ltac logged_by_computation :=
  unfold context_destroy;
  repeat first
    [ apply logged_refl
    | apply logged_step; [|simpl; tauto]
    | apply logged_with_mem
    | eapply logged_trans; [|eassumption] ].

Lemma created_then_destroyed (P : event -> Prop) (w wl : world) (flags : Z) :
  logged P (log (EvContextCreate flags) w) wl ->
  exists mid,
    new_events w (context_destroy wl)
    = EvContextCreate flags :: mid ++ [EvContextDestroy]
    /\ Forall P mid.
Proof.
  intros (mid & T & F). exists mid. split; [|exact F].
  apply new_events_app. cbn [context_destroy trace log]. rewrite T.
  cbn [trace log]. now rewrite <- !app_assoc.
Qed.

(** X2. secp256k1_wrapper_generate_keys creates at most one context, and a
    context it created it destroys exactly once, as the last thing it does:
    with invalid arguments it logs nothing, when creation fails it logs
    only the attempt, and otherwise its events are the creation, events
    that neither create nor destroy a context, and the destruction. *)
Theorem generate_keys_context_lifecycle (lib : libsecp256k1) (fuel : nat)
  (w : world) (privkey_out pubkey_out compressed : Z) (r : gen_result) :
  secp256k1_wrapper_generate_keys lib fuel w privkey_out pubkey_out compressed
  = Some r ->
  if invalid_args privkey_out pubkey_out compressed
  then new_events w (g_world r) = []
  else
    match secp256k1_context_create lib SECP256K1_CONTEXT_SIGN with
    | None =>
        new_events w (g_world r) = [EvContextCreate SECP256K1_CONTEXT_SIGN]
    | Some _ =>
        exists mid,
          new_events w (g_world r)
          = EvContextCreate SECP256K1_CONTEXT_SIGN :: mid
            ++ [EvContextDestroy]
          /\ Forall (fun e => ~ is_lifecycle e) mid
    end.
Proof.
  generate_paths;
    try (apply new_events_app; cbn [trace log]; now rewrite ?app_nil_r);
    apply created_then_destroyed;
    try (apply fill_random_quiet in Eseed;
         destruct Eseed as ([_ _ Ts] & _ & _);
         apply (logged_weaken _ _ _ _ syscall_not_lifecycle) in Ts);
    try (apply draw_privkey_spec in Edraw;
         destruct Edraw as (_ & _ & _ & Td & _);
         apply (logged_weaken _ _ _ _ draw_not_lifecycle) in Td);
    logged_by_computation.
Qed.

(** X3. secp256k1_wrapper_derive_pubkey has the same discipline: nothing
    logged on invalid arguments, only the attempt when creation fails, and
    otherwise creation first, destruction last, and in between only calls
    of the library on the key. *)
Theorem derive_pubkey_context_lifecycle (lib : libsecp256k1) (w : world)
  (privkey pubkey_out compressed : Z) :
  let run := secp256k1_wrapper_derive_pubkey lib w privkey pubkey_out compressed in
  if invalid_args privkey pubkey_out compressed
  then snd run = w
  else
    match secp256k1_context_create lib SECP256K1_CONTEXT_SIGN with
    | None =>
        new_events w (snd run) = [EvContextCreate SECP256K1_CONTEXT_SIGN]
    | Some _ =>
        exists mid,
          new_events w (snd run)
          = EvContextCreate SECP256K1_CONTEXT_SIGN :: mid
            ++ [EvContextDestroy]
          /\ Forall (fun e => ~ is_lifecycle e /\ ~ is_syscall e) mid
    end.
Proof.
  cbv zeta. derive_paths; try reflexivity;
    try (apply new_events_app; cbn [trace log]; reflexivity);
    apply created_then_destroyed; logged_by_computation.
Qed.

(** ** What secp256k1_wrapper_derive_pubkey computes *)

(** Closes the statement below on a path that does not return 0. *)
Ltac derive_case :=
  cbn [fst snd os mem log with_mem context_destroy];
  repeat split; intros;
  repeat match goal with
         | H : _ /\ _ |- _ => destruct H
         | H : exists _, _ |- _ => destruct H
         | H : Some _ = Some _ |- _ => inversion H; subst; clear H
         | E : ?t = (_, _), H : context [?t] |- _ =>
             rewrite E in H; cbn [fst snd] in H
         end;
  cbn [fst snd] in *;
  try solve [auto 6 | discriminate | congruence | contradiction].

(** X4. secp256k1_wrapper_derive_pubkey never asks the kernel for anything
    (the kernel state is the one it was given), returns one of 0, -1, -2,
    -5, returns -1 exactly on invalid arguments and -2 exactly when, with
    valid arguments, no context could be created; it returns 0 exactly when
    the key was accepted and its public key created and serialized, and
    then the [pubkey_len] bytes at [pubkey_out] are that serialization. *)
Theorem derive_pubkey_result (lib : libsecp256k1) (w : world)
  (privkey pubkey_out compressed : Z) :
  let run := secp256k1_wrapper_derive_pubkey lib w privkey pubkey_out compressed in
  let key := load_bytes (mem w) privkey 32 in
  let len := pubkey_len_of compressed in
  let accepted ctx :=
    secp256k1_ec_seckey_verify lib ctx key <> 0
    /\ fst (secp256k1_ec_pubkey_create lib ctx key) <> 0
    /\ fst (secp256k1_ec_pubkey_serialize lib ctx
              (snd (secp256k1_ec_pubkey_create lib ctx key)) len
              (flags_of compressed)) <> 0 in
  os (snd run) = os w
  /\ (fst run = 0 \/ fst run = -1 \/ fst run = -2 \/ fst run = -5)
  /\ (fst run = -1 <-> invalid_args privkey pubkey_out compressed = true)
  /\ (fst run = -2 <->
      invalid_args privkey pubkey_out compressed = false
      /\ secp256k1_context_create lib SECP256K1_CONTEXT_SIGN = None)
  /\ (fst run = 0 <->
      invalid_args privkey pubkey_out compressed = false
      /\ exists ctx,
           secp256k1_context_create lib SECP256K1_CONTEXT_SIGN = Some ctx
           /\ accepted ctx)
  /\ (fst run = 0 ->
      forall ctx,
        secp256k1_context_create lib SECP256K1_CONTEXT_SIGN = Some ctx ->
        load_bytes (mem (snd run)) pubkey_out (Z.to_nat len)
        = fit (Z.to_nat len)
            (snd (secp256k1_ec_pubkey_serialize lib ctx
                    (snd (secp256k1_ec_pubkey_create lib ctx key)) len
                    (flags_of compressed)))).
Proof.
  cbv zeta. unfold secp256k1_wrapper_derive_pubkey.
  change (Z.to_nat PRIVKEY_SIZE) with 32%nat. cbn [mem log].
  destruct (invalid_args privkey pubkey_out compressed) eqn:Eargs;
    [derive_case|].
  destruct (secp256k1_context_create lib SECP256K1_CONTEXT_SIGN) as [ctx0|]
    eqn:Ectx; [|derive_case].
  set (key := load_bytes (mem w) privkey 32).
  destruct (secp256k1_ec_seckey_verify lib ctx0 key =? 0) eqn:Ev;
    [apply Z.eqb_eq in Ev; derive_case | apply Z.eqb_neq in Ev].
  destruct (secp256k1_ec_pubkey_create lib ctx0 key) as [ok2 pk] eqn:Ecreate.
  destruct (ok2 =? 0) eqn:Eok2;
    [apply Z.eqb_eq in Eok2; derive_case | apply Z.eqb_neq in Eok2].
  destruct (secp256k1_ec_pubkey_serialize lib ctx0 pk
              (pubkey_len_of compressed) (flags_of compressed))
    as [ok3 enc] eqn:Eser.
  destruct (ok3 =? 0) eqn:Eok3;
    [apply Z.eqb_eq in Eok3; derive_case | apply Z.eqb_neq in Eok3].
  cbn [fst snd os mem log with_mem context_destroy].
  split; [reflexivity|]. split; [auto|].
  split; [split; intros H; discriminate H|].
  split; [split; [intros H; discriminate H | intros [_ H]; discriminate H]|].
  split; [split; [intros _ | reflexivity]|].
  - split; [reflexivity|]. exists ctx0. split; [reflexivity|].
    rewrite Ecreate. cbn [fst snd]. rewrite Eser. cbn [fst]. auto.
  - intros _ c Hc. assert (c = ctx0) by congruence. subst c.
    rewrite Ecreate. cbn [snd]. rewrite Eser. cbn [snd].
    apply load_serialize_into.
Qed.

(** ** The seed and the caller's memory in secp256k1_wrapper_generate_keys *)

Lemma syscall_not_randomize (e : event) : is_syscall e -> ~ is_randomize e.
Proof. destruct e; simpl; tauto. Qed.

(** X5. Once secp256k1_wrapper_generate_keys has passed the seed to
    secp256k1_context_randomize, whatever that returned and however the call
    ends, the stack array [randomize] is all zero at the return. *)
Theorem generate_keys_wipes_seed (lib : libsecp256k1) (fuel : nat)
  (w : world) (privkey_out pubkey_out compressed : Z) (r : gen_result) :
  secp256k1_wrapper_generate_keys lib fuel w privkey_out pubkey_out compressed
  = Some r ->
  (exists ok, In (EvContextRandomize ok) (new_events w (g_world r))) ->
  fr_randomize (g_frame r) = zeros 32.
Proof.
  generate_paths; intros [ok Hin];
    try (apply fill_random_quiet in Eseed;
         destruct Eseed as ([_ _ Ts] & Ls & _);
         rewrite uninit_length in Ls);
    first
      [ now apply secure_memzero_all
      | exfalso;
        apply (logged_weaken _ _ _ _ syscall_not_randomize) in Ts;
        apply (logged_not_in (fun e => ~ is_randomize e) _ _ _) in Hin;
        [exact Hin | logged_by_computation | simpl; tauto]
      | exfalso;
        apply (logged_not_in (fun e => ~ is_randomize e) _ _ _) in Hin;
        [exact Hin | logged_by_computation | simpl; tauto] ].
Qed.

Lemma generate_keys_wipes_seed_witness :
  exists r,
    secp256k1_wrapper_generate_keys (toy all_ok) 2 w_draw_fails 100 200 1
    = Some r
    /\ g_ret r = -3
    /\ fr_randomize (g_frame r) = zeros 32.
Proof.
  assert (E : exists r,
             secp256k1_wrapper_generate_keys (toy all_ok) 2 w_draw_fails
               100 200 1 = Some r
             /\ g_ret r = -3
             /\ In (EvContextRandomize 1) (new_events w_draw_fails (g_world r)))
    by (eexists; split; [vm_compute; reflexivity|]; split;
        [reflexivity | vm_compute; auto]).
  destruct E as (r & E & Hret & Hin). exists r.
  split; [exact E|]. split; [exact Hret|].
  apply (generate_keys_wipes_seed (toy all_ok) 2 w_draw_fails 100 200 1 r E).
  now exists 1.
Defined.

Lemma generate_keys_stores (lib : libsecp256k1) (fuel : nat)
  (w : world) (privkey_out pubkey_out compressed : Z) (r : gen_result)
  (a : Z) :
  secp256k1_wrapper_generate_keys lib fuel w privkey_out pubkey_out compressed
  = Some r ->
  a < pubkey_out \/ pubkey_out + pubkey_len_of compressed <= a ->
  a < privkey_out \/ privkey_out + PRIVKEY_SIZE <= a ->
  mem (g_world r) a = mem w a.
Proof.
  intros Hrun Hpub Hpriv.
  pose proof (pubkey_len_of_nonneg compressed) as Hlen.
  destruct (Z.eq_dec (g_ret r) 0) as [Hret|Hret].
  - destruct (generate_keys_success _ _ _ _ _ _ _ Hrun Hret)
      as (ctx & key & pk & enc & ok2 & ok3
          & _ & _ & L & _ & _ & _ & _ & _ & M).
    rewrite M. unfold memcpy, serialize_into.
    rewrite store_bytes_outside
      by (rewrite length_firstn, L; unfold PRIVKEY_SIZE in *; lia).
    apply store_bytes_outside. rewrite fit_length. lia.
  - destruct (generate_keys_error_memory _ _ _ _ _ _ _ Hrun Hret)
      as (_ & _ & [M|[enc M]]); rewrite M; [reflexivity|].
    unfold serialize_into. apply store_bytes_outside.
    rewrite fit_length. lia.
Qed.

(** X6. secp256k1_wrapper_generate_keys stores only into the [pubkey_len]
    bytes at [pubkey_out] and the 32 bytes at [privkey_out]: every other
    byte of the caller's memory is what it was, on every return. *)
Theorem generate_keys_stores_only_outputs (lib : libsecp256k1) (fuel : nat)
  (w : world) (privkey_out pubkey_out compressed : Z) (r : gen_result)
  (a : Z) :
  secp256k1_wrapper_generate_keys lib fuel w privkey_out pubkey_out compressed
  = Some r ->
  a < pubkey_out \/ pubkey_out + pubkey_len_of compressed <= a ->
  a < privkey_out \/ privkey_out + PRIVKEY_SIZE <= a ->
  mem (g_world r) a = mem w a.
Proof. apply generate_keys_stores. Qed.

Lemma generate_keys_stores_only_outputs_witness :
  exists r,
    secp256k1_wrapper_generate_keys (toy all_ok) 2 w_second_draw 100 200 1
    = Some r
    /\ g_ret r = 0
    /\ mem (g_world r) 132 = mem w_second_draw 132
    /\ mem (g_world r) 233 = mem w_second_draw 233.
Proof.
  assert (E : exists r,
             secp256k1_wrapper_generate_keys (toy all_ok) 2 w_second_draw
               100 200 1 = Some r /\ g_ret r = 0)
    by (eexists; split; [vm_compute; reflexivity | reflexivity]).
  destruct E as (r & E & Hret). exists r.
  split; [exact E|]. split; [exact Hret|]. split.
  - apply (generate_keys_stores_only_outputs (toy all_ok) 2 w_second_draw
             100 200 1 r 132 E); [left; lia | right; unfold PRIVKEY_SIZE; lia].
  - apply (generate_keys_stores_only_outputs (toy all_ok) 2 w_second_draw
             100 200 1 r 233 E);
      [right; vm_compute; discriminate | right; unfold PRIVKEY_SIZE; lia].
Defined.

Lemma generate_keys_context_lifecycle_witness :
  exists r,
    secp256k1_wrapper_generate_keys (toy all_ok) 2 w_draw_fails 100 200 1
    = Some r
    /\ new_events w_draw_fails (g_world r)
       = EvContextCreate SECP256K1_CONTEXT_SIGN
         :: [EvGetrandom 32; EvContextRandomize 1; EvGetrandom 32;
             EvSeckeyVerify 0; EvGetrandom 32]
         ++ [EvContextDestroy].
Proof.
  assert (E : exists r,
             secp256k1_wrapper_generate_keys (toy all_ok) 2 w_draw_fails
               100 200 1 = Some r
             /\ new_events w_draw_fails (g_world r)
                = [EvContextCreate SECP256K1_CONTEXT_SIGN; EvGetrandom 32;
                   EvContextRandomize 1; EvGetrandom 32; EvSeckeyVerify 0;
                   EvGetrandom 32; EvContextDestroy])
    by (eexists; split; [vm_compute; reflexivity | reflexivity]).
  destruct E as (r & E & Hev). exists r. split; [exact E|].
  pose proof (generate_keys_context_lifecycle (toy all_ok) 2 w_draw_fails
                100 200 1 r E) as H.
  cbn in H. destruct H as (mid & H & _). rewrite Hev. reflexivity.
Defined.

(** ** Uninitialised stack arrays *)

Lemma blit_all (buf : list byte) :
  forall bs, length bs = length buf -> blit buf O bs = bs.
Proof.
  induction buf as [|b buf IH]; intros [|x bs] Hlen; simpl in *;
    try discriminate; try reflexivity.
  f_equal. apply IH. lia.
Qed.

Lemma read_loop_with_stack (s : nat -> byte) (fuel : nat) :
  forall w data size off,
    read_loop fuel (with_stack s w) data size off
    = on_world (with_stack s) (read_loop fuel w data size off).
Proof.
  induction fuel as [|fuel IH]; intros w data size off; cbn [read_loop];
    destruct (off <? size); try reflexivity.
  destruct (sys_read_eq w (size - off)) as [Erd _].
  destruct (sys_read_eq (with_stack s w) (size - off)) as [Erd' _].
  rewrite Erd, Erd'.
  change (os_read (os (with_stack s w)) O) with (os_read (os w) O).
  destruct (transfer (os_read (os w) O) (size - off)) as [[n e] got].
  destruct (n <=? 0); [reflexivity|].
  change (snd (sys_read (with_stack s w) (size - off)))
    with (with_stack s (snd (sys_read w (size - off)))).
  apply IH.
Qed.

Lemma fill_random_with_stack (s : nat -> byte) (w : world) (data : list byte)
  (size : Z) :
  secp256k1_wrapper_fill_random (with_stack s w) data size
  = on_world (with_stack s) (secp256k1_wrapper_fill_random w data size).
Proof.
  unfold secp256k1_wrapper_fill_random.
  rewrite (sys_getrandom_eq w), (sys_getrandom_eq (with_stack s w)).
  change (os_getrandom (os (with_stack s w)) O) with (os_getrandom (os w) O).
  destruct (transfer (os_getrandom (os w) O) size) as [[res e] got].
  destruct ((res =? -1) && (e =? ENOSYS)); [|reflexivity].
  rewrite (sys_open_eq (snd (sys_getrandom w size))),
    (sys_open_eq (snd (sys_getrandom (with_stack s w) size))).
  change (os_open (os (snd (sys_getrandom (with_stack s w) size))) O)
    with (os_open (os (snd (sys_getrandom w size))) O).
  destruct (os_open (os (snd (sys_getrandom w size))) O <? 0);
    [reflexivity|].
  apply (read_loop_with_stack s (Z.to_nat size)
           (snd (sys_open (snd (sys_getrandom w size))))).
Qed.

(** The return value and the world after the loop do not depend on the
    buffer. *)
Lemma read_loop_any_buffer (fuel : nat) :
  forall w d1 d2 size off r d1' w',
    read_loop fuel w d1 size off = Some (r, d1', w') ->
    exists d2', read_loop fuel w d2 size off = Some (r, d2', w').
Proof.
  induction fuel as [|fuel IH]; intros w d1 d2 size off r d1' w' H;
    cbn [read_loop] in *; destruct (off <? size); try discriminate.
  - inversion H; subst. eexists. reflexivity.
  - destruct (sys_read w (size - off)) as [[[n e] got] w1].
    destruct (n <=? 0).
    + inversion H; subst. eexists. reflexivity.
    + eapply IH. exact H.
  - inversion H; subst. eexists. reflexivity.
Qed.

Lemma fill_random_overwrites_buffer_gen (w : world) (d1 d2 : list byte)
  (size r : Z) (d1' : list byte) (w' : world) :
  0 <= size <= SIZE_MAX ->
  length d1 = Z.to_nat size -> length d2 = Z.to_nat size ->
  secp256k1_wrapper_fill_random w d1 size = Some (r, d1', w') ->
  exists d2',
    secp256k1_wrapper_fill_random w d2 size = Some (r, d2', w')
    /\ (r = 1 -> d2' = d1').
Proof.
  intros Hsize L1 L2. unfold secp256k1_wrapper_fill_random.
  rewrite sys_getrandom_eq. set (w1 := snd (sys_getrandom w size)).
  destruct (os_getrandom (os w) O) as [e|chunk]; cbn [transfer].
  - rewrite !blit_nil. destruct ((-1 =? -1) && (e =? ENOSYS)).
    + rewrite sys_open_eq. set (w2 := snd (sys_open w1)).
      destruct (os_open (os w1) O <? 0).
      * intros H. inversion H; subst. eexists. split; [reflexivity|].
        discriminate.
      * intros H1.
        destruct (read_loop_any_buffer _ _ _ d2 _ _ _ _ _ H1) as [d2' H2].
        exists d2'. split; [exact H2|]. intros ->.
        pose proof (read_loop_quiet _ _ _ _ _ _ _ _ H1) as (_ & Ld1 & _).
        pose proof (read_loop_quiet _ _ _ _ _ _ _ _ H2) as (_ & Ld2 & _).
        apply read_loop_data in H1; [|lia|lia|lia].
        apply read_loop_data in H2; [|lia|lia|lia].
        destruct H1 as (k1 & P1 & F1 & D1). destruct H2 as (k2 & P2 & F2 & D2).
        assert (Hk : k1 = k2).
        { destruct (Nat.lt_trichotomy k1 k2) as [Hlt|[Heq|Hgt]]; [|exact Heq|].
          - exfalso. specialize (P2 k1 Hlt). rewrite F1 in P2.
            unfold read_ret in P2. rewrite Z.sub_diag in P2.
            pose proof (transfer_nothing (os_read (os w2) k1)). lia.
          - exfalso. specialize (P1 k2 Hgt). rewrite F2 in P1.
            unfold read_ret in P1. rewrite Z.sub_diag in P1.
            pose proof (transfer_nothing (os_read (os w2) k2)). lia. }
        subst k2. cbn [Z.to_nat firstn app] in D1, D2.
        rewrite firstn_all2 in D1 by lia. rewrite firstn_all2 in D2 by lia.
        congruence.
    + intros H. inversion H; subst. eexists. split; [reflexivity|].
      discriminate.
  - cbv zeta. set (got := firstn (Z.to_nat size) chunk).
    replace (Z.of_nat (length got) =? -1) with false
      by (symmetry; apply Z.eqb_neq; lia).
    cbn [andb]. intros H. inversion H; subst. eexists.
    split; [reflexivity|].
    destruct ((0 <=? Z.of_nat (length got)) && (Z.of_nat (length got) =? size))
      eqn:E; [|discriminate].
    intros _. apply andb_true_iff in E. destruct E as [_ E].
    apply Z.eqb_eq in E. rewrite !blit_all by lia. reflexivity.
Qed.

(** X7. secp256k1_wrapper_fill_random, Linux/FreeBSD branch, for a buffer
    of exactly [size] bytes: its return value and the kernel state after it
    do not depend on what the buffer held, and when it returns 1 neither
    does the buffer afterwards; no byte of the old contents survives a
    success. *)
Theorem fill_random_overwrites_buffer (w : world) (d1 d2 : list byte)
  (size r : Z) (d1' : list byte) (w' : world) :
  0 <= size <= SIZE_MAX ->
  length d1 = Z.to_nat size -> length d2 = Z.to_nat size ->
  secp256k1_wrapper_fill_random w d1 size = Some (r, d1', w') ->
  exists d2',
    secp256k1_wrapper_fill_random w d2 size = Some (r, d2', w')
    /\ (r = 1 -> d2' = d1').
Proof. apply fill_random_overwrites_buffer_gen. Qed.

Section StackGarbage.

Variable lib : libsecp256k1.

Lemma draw_privkey_with_stack (s : nat -> byte) (fuel : nat)
  (ctx : secp256k1_context lib) :
  forall w privkey,
    draw_privkey lib fuel ctx (with_stack s w) privkey
    = on_world (with_stack s) (draw_privkey lib fuel ctx w privkey).
Proof.
  induction fuel as [|fuel IH]; intros w privkey; cbn [draw_privkey];
    [reflexivity|].
  rewrite fill_random_with_stack.
  destruct (secp256k1_wrapper_fill_random w privkey PRIVKEY_SIZE)
    as [[[r key1] w1]|]; cbn [on_world]; [|reflexivity].
  destruct (r =? 0); [reflexivity|].
  destruct (secp256k1_ec_seckey_verify lib ctx key1 =? 0); [|reflexivity].
  apply (IH (log (EvSeckeyVerify (secp256k1_ec_seckey_verify lib ctx key1)) w1)).
Qed.

(** The candidate loop does not depend on what the array held at entry. *)
Lemma draw_privkey_any_buffer (fuel : nat) (ctx : secp256k1_context lib) :
  forall w k1 k2 ok key w',
    length k1 = 32%nat -> length k2 = 32%nat ->
    draw_privkey lib fuel ctx w k1 = Some (ok, key, w') ->
    exists key2,
      draw_privkey lib fuel ctx w k2 = Some (ok, key2, w')
      /\ (ok = true -> key2 = key).
Proof.
  destruct fuel as [|fuel]; intros w k1 k2 ok key w' L1 L2 H;
    cbn [draw_privkey] in *; [discriminate|].
  destruct (secp256k1_wrapper_fill_random w k1 PRIVKEY_SIZE)
    as [[[r key1] w1]|] eqn:E1; [|discriminate].
  assert (Hs : 0 <= PRIVKEY_SIZE <= SIZE_MAX)
    by (unfold PRIVKEY_SIZE, SIZE_MAX; lia).
  destruct (fill_random_overwrites_buffer_gen w k1 k2 PRIVKEY_SIZE r key1 w1
              Hs L1 L2 E1) as (key1' & E2 & Heq).
  rewrite E2.
  destruct (fill_random_quiet _ _ _ _ _ _ E1) as (_ & _ & [R|R]); subst r.
  - cbn [Z.eqb] in *. inversion H; subst. eexists. split; [reflexivity|].
    discriminate.
  - cbn [Z.eqb] in *. rewrite (Heq eq_refl).
    destruct (secp256k1_ec_seckey_verify lib ctx key1 =? 0).
    + exists key. split; [exact H | reflexivity].
    + inversion H; subst. eexists. split; reflexivity.
Qed.

End StackGarbage.

(** X8. What secp256k1_wrapper_generate_keys returns and does to the
    caller's memory, the kernel and the trace does not depend on what its
    stack arrays held at entry: run over any other stack contents, it
    returns the same code and leaves the same world. *)
Theorem generate_keys_ignores_stack_garbage (lib : libsecp256k1)
  (fuel : nat) (w : world) (s : nat -> byte)
  (privkey_out pubkey_out compressed : Z) (r : gen_result) :
  secp256k1_wrapper_generate_keys lib fuel w privkey_out pubkey_out compressed
  = Some r ->
  exists r',
    secp256k1_wrapper_generate_keys lib fuel (with_stack s w)
      privkey_out pubkey_out compressed = Some r'
    /\ g_ret r' = g_ret r
    /\ g_world r' = with_stack s (g_world r).
Proof.
  unfold secp256k1_wrapper_generate_keys, returning.
  destruct (invalid_args privkey_out pubkey_out compressed).
  { intros H. inversion H; subst. eexists. repeat split. }
  destruct (secp256k1_context_create lib SECP256K1_CONTEXT_SIGN) as [ctx|].
  2:{ intros H. inversion H; subst. eexists. repeat split. }
  assert (Hs : 0 <= PRIVKEY_SIZE <= SIZE_MAX)
    by (unfold PRIVKEY_SIZE, SIZE_MAX; lia).
  change (log (EvContextCreate SECP256K1_CONTEXT_SIGN) (with_stack s w))
    with (with_stack s (log (EvContextCreate SECP256K1_CONTEXT_SIGN) w)).
  rewrite fill_random_with_stack.
  destruct (secp256k1_wrapper_fill_random
              (log (EvContextCreate SECP256K1_CONTEXT_SIGN) w)
              (uninit w 0 (Z.to_nat PRIVKEY_SIZE)) PRIVKEY_SIZE)
    as [[[r1 seed] w1]|] eqn:E1; [|discriminate].
  destruct (fill_random_overwrites_buffer_gen _ _
              (uninit (with_stack s w) 0 (Z.to_nat PRIVKEY_SIZE))
              _ _ _ _ Hs (uninit_length _ _ _) (uninit_length _ _ _) E1)
    as (seed' & E1' & Hseed).
  rewrite E1'. cbn [on_world].
  destruct (fill_random_quiet _ _ _ _ _ _ E1) as (_ & _ & [R|R]); subst r1;
    cbn [Z.eqb].
  { intros H. inversion H; subst. eexists. repeat split. }
  rewrite (Hseed eq_refl).
  destruct (secp256k1_context_randomize lib ctx seed) as [ok1 ctx1].
  destruct (ok1 =? 0).
  { intros H. inversion H; subst. eexists. repeat split. }
  change (log (EvContextRandomize ok1) (with_stack s w1))
    with (with_stack s (log (EvContextRandomize ok1) w1)).
  rewrite draw_privkey_with_stack.
  destruct (draw_privkey lib fuel ctx1 (log (EvContextRandomize ok1) w1)
              (uninit w (Z.to_nat PRIVKEY_SIZE) (Z.to_nat PRIVKEY_SIZE)))
    as [[[ok key] w2]|] eqn:E2; [|discriminate].
  destruct (draw_privkey_any_buffer lib _ _ _ _
              (uninit (with_stack s w) (Z.to_nat PRIVKEY_SIZE)
                 (Z.to_nat PRIVKEY_SIZE))
              _ _ _ (uninit_length _ _ _) (uninit_length _ _ _) E2)
    as (key' & E2' & Hkey).
  rewrite E2'. cbn [on_world].
  destruct ok.
  2:{ intros H. inversion H; subst. eexists. repeat split. }
  rewrite (Hkey eq_refl).
  destruct (secp256k1_ec_pubkey_create lib ctx1 key) as [ok2 pk].
  destruct (ok2 =? 0).
  { intros H. inversion H; subst. eexists. repeat split. }
  destruct (secp256k1_ec_pubkey_serialize lib ctx1 pk
              (pubkey_len_of compressed) (flags_of compressed)) as [ok3 enc].
  destruct (ok3 =? 0); intros H; inversion H; subst; eexists; repeat split.
Qed.

Lemma generate_keys_ignores_stack_garbage_witness :
  exists r r',
    secp256k1_wrapper_generate_keys (toy all_ok) 2 w_second_draw 100 200 1
    = Some r
    /\ secp256k1_wrapper_generate_keys (toy all_ok) 2
         (with_stack (fun _ => x13) w_second_draw) 100 200 1 = Some r'
    /\ g_ret r' = g_ret r
    /\ load_bytes (mem (g_world r')) 100 32
       = load_bytes (mem (g_world r)) 100 32.
Proof.
  assert (E : exists r,
             secp256k1_wrapper_generate_keys (toy all_ok) 2 w_second_draw
               100 200 1 = Some r)
    by (eexists; vm_compute; reflexivity).
  destruct E as (r & E).
  destruct (generate_keys_ignores_stack_garbage (toy all_ok) 2 w_second_draw
              (fun _ => x13) 100 200 1 r E) as (r' & E' & Hret & Hw).
  exists r, r'. split; [exact E|]. split; [exact E'|]. split; [exact Hret|].
  rewrite Hw. reflexivity.
Defined.

Lemma fill_random_overwrites_buffer_witness :
  exists d' w',
    secp256k1_wrapper_fill_random w_enosys (repeat x99 32) 32
    = Some (1, d', w')
    /\ secp256k1_wrapper_fill_random w_enosys (zeros 32) 32
       = Some (1, d', w').
Proof.
  assert (Hs : 0 <= 32 <= SIZE_MAX) by (unfold SIZE_MAX; lia).
  assert (E : exists d' w',
             secp256k1_wrapper_fill_random w_enosys (repeat x99 32) 32
             = Some (1, d', w'))
    by (do 2 eexists; vm_compute; reflexivity).
  destruct E as (d' & w' & E).
  destruct (fill_random_overwrites_buffer w_enosys (repeat x99 32) (zeros 32)
              32 1 d' w' Hs eq_refl eq_refl E) as (d2' & E2 & Hd).
  exists d', w'. split; [exact E|]. rewrite <- (Hd eq_refl). exact E2.
Defined.

(** ** Rejection sampling *)

Lemma fill_random_delivers (w : world) (data chunk : list byte) :
  os_getrandom (os w) O = SysData chunk ->
  length chunk = 32%nat -> length data = 32%nat ->
  secp256k1_wrapper_fill_random w data PRIVKEY_SIZE
  = Some (1, chunk, snd (sys_getrandom w PRIVKEY_SIZE)).
Proof.
  intros Hgr Lc Ld. unfold secp256k1_wrapper_fill_random.
  rewrite sys_getrandom_eq, Hgr. cbn [transfer].
  change (Z.to_nat PRIVKEY_SIZE) with 32%nat.
  rewrite firstn_all2 by lia. rewrite Lc. cbn.
  now rewrite blit_all by lia.
Qed.

Section RejectionSampling.

Variable lib : libsecp256k1.

Lemma draw_privkey_first_accepted (ctx : secp256k1_context lib) (n : nat) :
  forall (extra : nat) (w : world) (privkey : list byte)
         (cand : nat -> list byte),
    length privkey = 32%nat ->
    (forall j, (j <= n)%nat ->
               os_getrandom (os w) j = SysData (cand j)
               /\ length (cand j) = 32%nat) ->
    (forall j, (j < n)%nat -> secp256k1_ec_seckey_verify lib ctx (cand j) = 0) ->
    secp256k1_ec_seckey_verify lib ctx (cand n) <> 0 ->
    exists w',
      draw_privkey lib (S n + extra) ctx w privkey = Some (true, cand n, w').
Proof.
  induction n as [|n IH]; intros extra w privkey cand Lp Hgr Hrej Hacc;
    cbn [draw_privkey Nat.add];
    destruct (Hgr O ltac:(lia)) as [H0 L0];
    rewrite (fill_random_delivers _ _ _ H0 L0 Lp); cbn [Z.eqb].
  - apply Z.eqb_neq in Hacc. rewrite Hacc. eexists. reflexivity.
  - rewrite (Hrej O ltac:(lia)). cbn [Z.eqb].
    apply (IH extra _ (cand O) (fun j => cand (S j)) L0).
    + intros j Hj. apply (Hgr (S j)). lia.
    + intros j Hj. apply (Hrej (S j)). lia.
    + exact Hacc.
Qed.

(** X9. secp256k1_wrapper_generate_keys samples by rejection and returns:
    when getrandom delivers a 32-byte seed and then 32-byte candidates of
    which the first [n] are rejected and the next is accepted, and the
    library creates and serializes its public key, then with fuel for
    [n + 1] draws the call returns 0 and the 32 bytes at [privkey_out] are
    that candidate, byte for byte, and for buffers that do not overlap the
    bytes at [pubkey_out] are the serialization of its public key. *)
Theorem generate_keys_returns_first_accepted (w : world)
  (privkey_out pubkey_out compressed : Z) (n extra : nat)
  (seed : list byte) (cand : nat -> list byte)
  (ctx0 ctx1 : secp256k1_context lib) (ok1 ok2 ok3 : Z)
  (pk : secp256k1_pubkey lib) (enc : list byte) :
  invalid_args privkey_out pubkey_out compressed = false ->
  secp256k1_context_create lib SECP256K1_CONTEXT_SIGN = Some ctx0 ->
  os_getrandom (os w) O = SysData seed -> length seed = 32%nat ->
  secp256k1_context_randomize lib ctx0 seed = (ok1, ctx1) -> ok1 <> 0 ->
  (forall j, (j <= n)%nat ->
             os_getrandom (os w) (S j) = SysData (cand j)
             /\ length (cand j) = 32%nat) ->
  (forall j, (j < n)%nat -> secp256k1_ec_seckey_verify lib ctx1 (cand j) = 0) ->
  secp256k1_ec_seckey_verify lib ctx1 (cand n) <> 0 ->
  secp256k1_ec_pubkey_create lib ctx1 (cand n) = (ok2, pk) -> ok2 <> 0 ->
  secp256k1_ec_pubkey_serialize lib ctx1 pk (pubkey_len_of compressed)
    (flags_of compressed) = (ok3, enc) -> ok3 <> 0 ->
  exists r,
    secp256k1_wrapper_generate_keys lib (S n + extra) w
      privkey_out pubkey_out compressed = Some r
    /\ g_ret r = 0
    /\ load_bytes (mem (g_world r)) privkey_out 32 = cand n
    /\ (privkey_out + PRIVKEY_SIZE <= pubkey_out
        \/ pubkey_out + pubkey_len_of compressed <= privkey_out ->
        load_bytes (mem (g_world r)) pubkey_out
          (Z.to_nat (pubkey_len_of compressed))
        = fit (Z.to_nat (pubkey_len_of compressed)) enc).
Proof.
  intros Hargs Hctx Hseed Lseed Hrand Hok1 Hgr Hrej Hacc Hcreate Hok2
    Hser Hok3.
  assert (Hrun : exists r,
             secp256k1_wrapper_generate_keys lib (S n + extra) w
               privkey_out pubkey_out compressed = Some r
             /\ g_ret r = 0
             /\ mem (g_world r)
                = memcpy
                    (serialize_into (mem w) pubkey_out
                       (pubkey_len_of compressed) enc)
                    privkey_out (cand n) PRIVKEY_SIZE).
  { unfold secp256k1_wrapper_generate_keys, returning.
    rewrite Hargs, Hctx.
    rewrite (fill_random_delivers
               (log (EvContextCreate SECP256K1_CONTEXT_SIGN) w) _ seed
               Hseed Lseed (uninit_length _ _ _)).
    cbn [Z.eqb]. rewrite Hrand. apply Z.eqb_neq in Hok1. rewrite Hok1.
    destruct (draw_privkey_first_accepted ctx1 n extra
                (log (EvContextRandomize ok1)
                   (snd (sys_getrandom
                           (log (EvContextCreate SECP256K1_CONTEXT_SIGN) w)
                           PRIVKEY_SIZE)))
                (uninit w (Z.to_nat PRIVKEY_SIZE) (Z.to_nat PRIVKEY_SIZE))
                cand (uninit_length _ _ _) Hgr Hrej Hacc) as (w2 & Hdraw).
    rewrite Hdraw, Hcreate. apply Z.eqb_neq in Hok2, Hok3. rewrite Hok2.
    rewrite Hser, Hok3. eexists. split; [reflexivity|].
    split; [reflexivity|]. cbn [g_world mem log with_mem context_destroy].
    apply draw_privkey_spec in Hdraw. destruct Hdraw as (M & _).
    cbn [mem log] in M. rewrite M. reflexivity. }
  destruct Hrun as (r & Hrun & Hret & M). exists r.
  destruct (Hgr n (Nat.le_refl n)) as [_ Ln].
  split; [exact Hrun|]. split; [exact Hret|]. split.
  - rewrite M. now apply load_memcpy.
  - intros Hdisj. rewrite M. unfold memcpy.
    pose proof (pubkey_len_of_nonneg compressed).
    rewrite load_store_disjoint
      by (rewrite length_firstn, Ln; unfold PRIVKEY_SIZE in *; lia).
    apply load_serialize_into.
Qed.

End RejectionSampling.

(** ** Failed creation and failed serialization of the public key *)

Lemma generate_keys_pubkey_step_fails (lib : libsecp256k1) (w : world)
  (p1 p2 compressed : Z) (n extra : nat) (cand : nat -> list byte)
  (ctx1 : secp256k1_context lib) :
  invalid_args p1 p2 compressed = false ->
  generation_accepts lib w n cand ctx1 ->
  pubkey_create_fails lib ctx1 (cand n)
  \/ pubkey_serialize_fails lib ctx1 (cand n) compressed ->
  exists r,
    secp256k1_wrapper_generate_keys lib (S n + extra) w p1 p2 compressed
    = Some r
    /\ g_ret r = -5
    /\ forall a, a < p2 \/ p2 + pubkey_len_of compressed <= a ->
                 mem (g_world r) a = mem w a.
Proof.
  intros Hargs (ctx0 & seed & ok1 & Hctx & Hseed & Lseed & Hrand & Hok1
                & Hgr & Hrej & Hacc) Hfail.
  unfold secp256k1_wrapper_generate_keys, returning.
  rewrite Hargs, Hctx.
  rewrite (fill_random_delivers
             (log (EvContextCreate SECP256K1_CONTEXT_SIGN) w) _ seed
             Hseed Lseed (uninit_length _ _ _)).
  cbn [Z.eqb]. rewrite Hrand. apply Z.eqb_neq in Hok1. rewrite Hok1.
  destruct (draw_privkey_first_accepted lib ctx1 n extra
              (log (EvContextRandomize ok1)
                 (snd (sys_getrandom
                         (log (EvContextCreate SECP256K1_CONTEXT_SIGN) w)
                         PRIVKEY_SIZE)))
              (uninit w (Z.to_nat PRIVKEY_SIZE) (Z.to_nat PRIVKEY_SIZE))
              cand (uninit_length _ _ _) Hgr Hrej Hacc) as (w2 & Hdraw).
  rewrite Hdraw.
  apply draw_privkey_spec in Hdraw. destruct Hdraw as (M & _).
  cbn [mem log] in M.
  unfold pubkey_create_fails, pubkey_serialize_fails in Hfail.
  destruct (secp256k1_ec_pubkey_create lib ctx1 (cand n)) as [ok2 pk].
  cbn [fst snd] in Hfail. destruct Hfail as [Hc|[Hc Hs]].
  - subst ok2. cbn [Z.eqb]. eexists. split; [reflexivity|].
    split; [reflexivity|]. intros a _.
    cbn [g_world mem log context_destroy]. now rewrite M.
  - apply Z.eqb_neq in Hc. rewrite Hc.
    destruct (secp256k1_ec_pubkey_serialize lib ctx1 pk
                (pubkey_len_of compressed) (flags_of compressed))
      as [ok3 enc].
    cbn [fst] in Hs. subst ok3. cbn [Z.eqb]. eexists.
    split; [reflexivity|]. split; [reflexivity|]. intros a Ha.
    cbn [g_world mem log with_mem context_destroy]. unfold serialize_into.
    pose proof (pubkey_len_of_nonneg compressed).
    rewrite store_bytes_outside by (rewrite fit_length; lia).
    now rewrite M.
Qed.

Lemma derive_pubkey_step_fails (lib : libsecp256k1) (w : world)
  (p1 p2 compressed : Z) (ctx : secp256k1_context lib) :
  invalid_args p1 p2 compressed = false ->
  secp256k1_context_create lib SECP256K1_CONTEXT_SIGN = Some ctx ->
  secp256k1_ec_seckey_verify lib ctx (load_bytes (mem w) p1 32) <> 0 ->
  pubkey_create_fails lib ctx (load_bytes (mem w) p1 32)
  \/ pubkey_serialize_fails lib ctx (load_bytes (mem w) p1 32) compressed ->
  fst (secp256k1_wrapper_derive_pubkey lib w p1 p2 compressed) = -5
  /\ forall a, a < p2 \/ p2 + pubkey_len_of compressed <= a ->
               mem (snd (secp256k1_wrapper_derive_pubkey lib w p1 p2
                           compressed)) a
               = mem w a.
Proof.
  intros Hargs Hctx Hacc Hfail.
  unfold secp256k1_wrapper_derive_pubkey. rewrite Hargs, Hctx.
  cbn [mem log]. change (Z.to_nat PRIVKEY_SIZE) with 32%nat.
  apply Z.eqb_neq in Hacc. rewrite Hacc.
  unfold pubkey_create_fails, pubkey_serialize_fails in Hfail.
  destruct (secp256k1_ec_pubkey_create lib ctx (load_bytes (mem w) p1 32))
    as [ok2 pk].
  cbn [fst snd] in Hfail. destruct Hfail as [Hc|[Hc Hs]].
  - subst ok2. cbn [Z.eqb fst snd]. split; [reflexivity|]. reflexivity.
  - apply Z.eqb_neq in Hc. rewrite Hc.
    destruct (secp256k1_ec_pubkey_serialize lib ctx pk
                (pubkey_len_of compressed) (flags_of compressed))
      as [ok3 enc].
    cbn [fst] in Hs. subst ok3. cbn [Z.eqb fst snd]. split; [reflexivity|].
    intros a Ha. cbn [mem log with_mem context_destroy].
    unfold serialize_into. pose proof (pubkey_len_of_nonneg compressed).
    now rewrite store_bytes_outside by (rewrite fit_length; lia).
Qed.

(** C10. In secp256k1_wrapper_generate_keys and in
    secp256k1_wrapper_derive_pubkey alike, with valid arguments, once a key
    has been accepted, the call returns -5 both when
    secp256k1_ec_pubkey_create returns 0 on that key and when it succeeds
    and secp256k1_ec_pubkey_serialize returns 0: one code for both
    failures. Generation is brought to the accepted key by a kernel that
    delivers the seed and the candidates, and then returns with fuel for the
    draws made. Besides the code the caller sees the same memory in both
    cases wherever the serialization was not directed: every byte outside
    the [pubkey_len] bytes at [pubkey_out] is as before the call. *)
Theorem pubkey_failures_share_code (lib : libsecp256k1) (w : world)
  (p1 p2 compressed : Z) :
  invalid_args p1 p2 compressed = false ->
  (forall (n extra : nat) (cand : nat -> list byte)
          (ctx1 : secp256k1_context lib),
      generation_accepts lib w n cand ctx1 ->
      pubkey_create_fails lib ctx1 (cand n)
      \/ pubkey_serialize_fails lib ctx1 (cand n) compressed ->
      exists r,
        secp256k1_wrapper_generate_keys lib (S n + extra) w p1 p2 compressed
        = Some r
        /\ g_ret r = -5
        /\ forall a, a < p2 \/ p2 + pubkey_len_of compressed <= a ->
                     mem (g_world r) a = mem w a)
  /\ (forall ctx : secp256k1_context lib,
         secp256k1_context_create lib SECP256K1_CONTEXT_SIGN = Some ctx ->
         secp256k1_ec_seckey_verify lib ctx (load_bytes (mem w) p1 32) <> 0 ->
         pubkey_create_fails lib ctx (load_bytes (mem w) p1 32)
         \/ pubkey_serialize_fails lib ctx (load_bytes (mem w) p1 32)
              compressed ->
         fst (secp256k1_wrapper_derive_pubkey lib w p1 p2 compressed) = -5
         /\ forall a, a < p2 \/ p2 + pubkey_len_of compressed <= a ->
                      mem (snd (secp256k1_wrapper_derive_pubkey lib w p1 p2
                                  compressed)) a
                      = mem w a).
Proof.
  intros Hargs. split.
  - intros n extra cand ctx1. now apply generate_keys_pubkey_step_fails.
  - intros ctx. now apply derive_pubkey_step_fails.
Qed.

Lemma second_draw_accepts (s : toy_switches) :
  create_context_ok s = true -> randomize_ok s = true ->
  generation_accepts (toy s) w_second_draw 1
    (fun j => match j with O => key_ff | _ => key_one end) seed_bytes.
Proof.
  intros Hc Hr. exists [], seed_bytes, 1. cbn. rewrite Hc, Hr.
  split; [reflexivity|]. split; [reflexivity|]. split; [reflexivity|].
  split; [reflexivity|]. split; [discriminate|]. split; [|split].
  - intros [|[|j]] Hj; [split; reflexivity | split; reflexivity | lia].
  - intros [|j] Hj; [reflexivity | lia].
  - discriminate.
Qed.

Lemma pubkey_failures_share_code_witness :
  (exists r1 r2,
      secp256k1_wrapper_generate_keys (toy create_fails) 2 w_second_draw
        100 200 1 = Some r1
      /\ secp256k1_wrapper_generate_keys (toy serialize_fails) 2 w_second_draw
           100 200 1 = Some r2
      /\ g_ret r1 = -5 /\ g_ret r2 = -5)
  /\ fst (secp256k1_wrapper_derive_pubkey (toy create_fails) w_key_one
            100 200 1) = -5
  /\ fst (secp256k1_wrapper_derive_pubkey (toy serialize_fails) w_key_one
            100 200 1) = -5.
Proof.
  split; [|split].
  - destruct (proj1 (pubkey_failures_share_code (toy create_fails)
                       w_second_draw 100 200 1 eq_refl)
                1%nat 0%nat
                (fun j => match j with O => key_ff | _ => key_one end)
                seed_bytes
                (second_draw_accepts create_fails eq_refl eq_refl)
                (or_introl eq_refl)) as (r1 & E1 & R1 & _).
    destruct (proj1 (pubkey_failures_share_code (toy serialize_fails)
                       w_second_draw 100 200 1 eq_refl)
                1%nat 0%nat
                (fun j => match j with O => key_ff | _ => key_one end)
                seed_bytes
                (second_draw_accepts serialize_fails eq_refl eq_refl)
                (or_intror (conj (fun H => Z.neq_succ_diag_l 0 H) eq_refl)))
      as (r2 & E2 & R2 & _).
    exists r1, r2. repeat split; assumption.
  - refine (proj1 (proj2 (pubkey_failures_share_code (toy create_fails)
                            w_key_one 100 200 1 eq_refl)
                     [] eq_refl _ (or_introl eq_refl))).
    vm_compute. discriminate.
  - refine (proj1 (proj2 (pubkey_failures_share_code (toy serialize_fails)
                            w_key_one 100 200 1 eq_refl)
                     [] eq_refl _
                     (or_intror (conj _ eq_refl)))).
    + vm_compute. discriminate.
    + vm_compute. discriminate.
Defined.

Lemma generate_keys_returns_first_accepted_witness :
  exists r,
    secp256k1_wrapper_generate_keys (toy all_ok) 2 w_second_draw 100 200 1
    = Some r
    /\ g_ret r = 0
    /\ load_bytes (mem (g_world r)) 100 32 = key_one.
Proof.
  destruct (generate_keys_returns_first_accepted (toy all_ok) w_second_draw
              100 200 1 1 0 seed_bytes
              (fun j => match j with O => key_ff | _ => key_one end)
              [] seed_bytes 1 1 1 1
              (byte_of_Z 3 :: be_bytes 32 1))
    as (r & Hrun & Hret & Hkey & _);
    try reflexivity; try discriminate.
  - intros [|[|j]] Hj; [split; reflexivity | split; reflexivity | lia].
  - intros [|j] Hj; [reflexivity | lia].
  - exists r. repeat split; assumption.
Defined.

(** ** The other platform branches of secp256k1_wrapper_fill_random *)

(** X10. Windows branch, for a size in the range of size_t: a request
    above ULONG_MAX returns 0 without calling BCryptGenRandom and without
    touching the buffer; any other request calls BCryptGenRandom once with
    exactly [size] as the byte count (the cast to ULONG loses nothing) and
    returns 1 exactly when that call succeeded, the buffer of [size] bytes
    then holding what the call delivered. *)
Theorem fill_random_win32_never_truncates (bcrypt : entropy_answer)
  (data : list byte) (size : Z) :
  0 <= size <= SIZE_MAX ->
  let '(r, data', calls) :=
    secp256k1_wrapper_fill_random_win32 bcrypt data size in
  (ULONG_MAX < size -> r = 0 /\ data' = data /\ calls = [])
  /\ (size <= ULONG_MAX ->
      calls = [CallBCryptGenRandom size]
      /\ (r = 1 <-> bcrypt <> None)
      /\ (r = 0 <-> bcrypt = None)
      /\ (length data = Z.to_nat size ->
          forall supply, bcrypt = Some supply ->
                         data' = map supply (seq 0 (Z.to_nat size)))).
Proof.
  intros Hsize. unfold secp256k1_wrapper_fill_random_win32.
  destruct (size >? ULONG_MAX) eqn:E.
  - apply Z.gtb_lt in E. split; [auto | lia].
  - assert (Hle : size <= ULONG_MAX) by (rewrite Z.gtb_ltb in E; apply Z.ltb_ge in E; exact E).
    rewrite Z.mod_small by lia.
    destruct bcrypt as [supply|]; cbn [entropy_fill Z.eqb].
    + split; [lia|]. intros _. split; [reflexivity|].
      split; [split; [discriminate | reflexivity]|].
      split; [split; discriminate|].
      intros L s Hs. inversion Hs; subst.
      now rewrite blit_all by (now rewrite length_map, length_seq).
    + split; [lia|]. intros _. split; [reflexivity|].
      split; [split; [discriminate | congruence]|].
      split; [split; reflexivity|]. discriminate.
Qed.

Lemma fill_random_win32_never_truncates_witness :
  0 <= 2 ^ 32 + 32 <= SIZE_MAX
  /\ secp256k1_wrapper_fill_random_win32 (Some (fun _ => x42)) [x00] (2 ^ 32 + 32)
     = (0, [x00], []).
Proof.
  assert (Hs : 0 <= 2 ^ 32 + 32 <= SIZE_MAX) by (unfold SIZE_MAX; lia).
  split; [exact Hs|].
  pose proof (fill_random_win32_never_truncates (Some (fun _ => x42)) [x00]
                (2 ^ 32 + 32) Hs) as H.
  destruct (secp256k1_wrapper_fill_random_win32 (Some (fun _ => x42)) [x00]
              (2 ^ 32 + 32)) as [[r d] calls].
  destruct H as [H _].
  destruct H as (-> & -> & ->); [unfold ULONG_MAX; lia | reflexivity].
Defined.

(** X11. macOS branch, whatever the build switches: the sources are tried in
    the order SecRandomCopyBytes (when built in), CCRandomGenerateBytes,
    getentropy (when built in and [size <= 256]), each asked for exactly
    [size] bytes; the function returns 1 as soon as one succeeds, calling no
    later source, and 0 when all that were tried failed; getentropy is never
    asked for more than 256 bytes. *)
Theorem fill_random_apple_order (USE_SECURITY_RNG MAC_10_12 : bool)
  (secrandom ccrandom getentropy : entropy_answer)
  (data : list byte) (size : Z) :
  let '(r, data', calls) :=
    secp256k1_wrapper_fill_random_apple USE_SECURITY_RNG MAC_10_12
      secrandom ccrandom getentropy data size in
  let tried :=
    (if USE_SECURITY_RNG then [(CallSecRandomCopyBytes size, secrandom)] else [])
    ++ [(CallCCRandomGenerateBytes size, ccrandom)]
    ++ (if MAC_10_12 && (size <=? 256)
        then [(CallGetentropy size, getentropy)] else []) in
  (r, calls) = first_success tried
  /\ Forall getentropy_within_cap calls
  /\ Forall (fun c => call_count c = size) calls
  /\ (r = 0 -> data' = data).
Proof.
  unfold secp256k1_wrapper_fill_random_apple.
  destruct USE_SECURITY_RNG, MAC_10_12, (size <=? 256) eqn:Ecap,
    secrandom, ccrandom, getentropy;
    try apply Z.leb_le in Ecap;
    cbn; repeat split; repeat constructor; cbn; try lia; try discriminate.
Qed.

(** X12. OpenBSD branch: a request above 256 bytes returns 0 without calling
    getentropy and without touching the buffer; any other request calls
    getentropy once, for [size] bytes, and returns 1 exactly when it
    succeeded, the buffer of [size] bytes then holding what it delivered. *)
Theorem fill_random_openbsd_cap (getentropy : entropy_answer)
  (data : list byte) (size : Z) :
  let '(r, data', calls) :=
    secp256k1_wrapper_fill_random_openbsd getentropy data size in
  Forall getentropy_within_cap calls
  /\ (256 < size -> r = 0 /\ data' = data /\ calls = [])
  /\ (size <= 256 ->
      calls = [CallGetentropy size]
      /\ (r = 1 <-> getentropy <> None)
      /\ (r = 0 <-> getentropy = None)
      /\ (length data = Z.to_nat size ->
          forall supply, getentropy = Some supply ->
                         data' = map supply (seq 0 (Z.to_nat size)))).
Proof.
  unfold secp256k1_wrapper_fill_random_openbsd.
  destruct (size <=? 256) eqn:Ecap;
    [apply Z.leb_le in Ecap | apply Z.leb_gt in Ecap].
  - destruct getentropy as [supply|]; cbn [entropy_fill Z.eqb].
    + split; [repeat constructor; exact Ecap|]. split; [lia|]. intros _.
      split; [reflexivity|].
      split; [split; [discriminate | reflexivity]|].
      split; [split; discriminate|].
      intros L s Hs. inversion Hs; subst.
      now rewrite blit_all by (now rewrite length_map, length_seq).
    + split; [repeat constructor; exact Ecap|]. split; [lia|]. intros _.
      split; [reflexivity|].
      split; [split; [discriminate | congruence]|].
      split; [split; reflexivity|]. discriminate.
  - split; [constructor|]. split; [auto | lia].
Qed.

(** * The helpers of tests/test_wrapper.c *)

Lemma secure_memzero_wipes_all (p : list byte) (n : Z) :
  length p = Z.to_nat n -> secure_memzero p n = zeros (Z.to_nat n).
Proof.
  intros L. unfold secure_memzero. rewrite <- L. apply blit_zeros_all.
Qed.

Lemma portable_memzero_loop (fuel : nat) :
  forall m vp n a,
    0 <= n -> (Z.to_nat n <= fuel)%nat ->
    Tests.secure_memzero_loop fuel m vp n a
    = if (vp <=? a) && (a <? vp + n) then x00 else m a.
Proof.
  induction fuel as [|fuel IH]; intros m vp n a Hn Hfuel;
    cbn [Tests.secure_memzero_loop]; destruct (n =? 0) eqn:En;
    try (apply Z.eqb_eq in En; subst n;
         replace (a <? vp + 0) with (a <? vp) by (f_equal; lia);
         destruct (vp <=? a) eqn:E1; destruct (a <? vp) eqn:E2;
         try reflexivity;
         apply Z.leb_le in E1; apply Z.ltb_lt in E2; lia).
  - apply Z.eqb_neq in En. lia.
  - apply Z.eqb_neq in En. rewrite IH by lia.
    unfold store_bytes. cbn [length Z.of_nat].
    destruct (vp + 1 <=? a) eqn:E1; destruct (a <? vp + 1 + (n - 1)) eqn:E2;
      destruct (vp <=? a) eqn:E3; destruct (a <? vp + n) eqn:E4;
      destruct (a <? vp + Z.pos (Pos.of_succ_nat 0)) eqn:E5;
      cbn [andb];
      try apply Z.leb_le in E1; try apply Z.leb_gt in E1;
      try apply Z.ltb_lt in E2; try apply Z.ltb_ge in E2;
      try apply Z.leb_le in E3; try apply Z.leb_gt in E3;
      try apply Z.ltb_lt in E4; try apply Z.ltb_ge in E4;
      try apply Z.ltb_lt in E5; try apply Z.ltb_ge in E5;
      try reflexivity; try lia.
    replace (a - vp) with 0 by lia. reflexivity.
Qed.

Lemma demo_memzero_loop_same (fuel : nat) :
  forall m vp n,
    Demo.secure_memzero_loop fuel m vp n = Tests.secure_memzero_loop fuel m vp n.
Proof.
  induction fuel as [|fuel IH]; intros m vp n; cbn; [reflexivity|].
  now rewrite IH.
Qed.

Lemma portable_memzero_spec (m : memory) (p n a : Z) :
  0 <= n ->
  Tests.secure_memzero m p n a = store_bytes m p (zeros (Z.to_nat n)) a
  /\ Demo.secure_memzero m p n a = store_bytes m p (zeros (Z.to_nat n)) a.
Proof.
  intros Hn. unfold Demo.secure_memzero. rewrite demo_memzero_loop_same.
  unfold Tests.secure_memzero. rewrite portable_memzero_loop by lia.
  unfold store_bytes. rewrite zeros_length, Z2Nat.id by lia.
  destruct ((p <=? a) && (a <? p + n)) eqn:E; [|split; reflexivity].
  unfold zeros. rewrite nth_repeat. split; reflexivity.
Qed.

Lemma secure_memzero_loaded (m : memory) (p n : Z) (len : nat) :
  0 <= n <= Z.of_nat len ->
  load_bytes (store_bytes m p (zeros (Z.to_nat n))) p len
  = secure_memzero (load_bytes m p len) n.
Proof.
  intros Hn. apply nth_ext with (d := x00) (d' := x00).
  - unfold secure_memzero. now rewrite blit_length, !load_bytes_length.
  - intros i Hi. rewrite load_bytes_length in Hi.
    rewrite load_bytes_nth by exact Hi.
    unfold secure_memzero.
    rewrite blit_prefix by (rewrite zeros_length, load_bytes_length; lia).
    rewrite zeros_length.
    destruct (Nat.lt_ge_cases i (Z.to_nat n)) as [Hlt|Hge].
    + rewrite store_bytes_inside by (now rewrite zeros_length).
      rewrite app_nth1 by (now rewrite zeros_length). reflexivity.
    + rewrite store_bytes_outside by (rewrite zeros_length; lia).
      rewrite app_nth2 by (rewrite zeros_length; lia).
      rewrite zeros_length, nth_skipn.
      rewrite load_bytes_nth by lia. f_equal. lia.
Qed.

Lemma tests_memzero_loaded (m : memory) (p n : Z) (len : nat) :
  0 <= n <= Z.of_nat len ->
  load_bytes (Tests.secure_memzero m p n) p len
  = secure_memzero (load_bytes m p len) n.
Proof.
  intros Hn. rewrite <- secure_memzero_loaded by exact Hn.
  apply load_bytes_ext. intros a _.
  apply (portable_memzero_spec m p n a). lia.
Qed.

(** X13. The byte-by-byte volatile loop that the tests and the demo use as
    secure_memzero does to a buffer in memory what the wrapper's
    secure_memzero does to an array: the first [n] bytes become zero, and no
    other byte of memory changes. *)
Theorem portable_secure_memzero_agrees (m : memory) (p n : Z) (len : nat) :
  0 <= n <= Z.of_nat len ->
  load_bytes (Tests.secure_memzero m p n) p len
  = secure_memzero (load_bytes m p len) n
  /\ load_bytes (Demo.secure_memzero m p n) p len
     = secure_memzero (load_bytes m p len) n
  /\ (forall a, a < p \/ p + n <= a ->
                Tests.secure_memzero m p n a = m a
                /\ Demo.secure_memzero m p n a = m a).
Proof.
  intros Hn. split; [|split].
  - now apply tests_memzero_loaded.
  - rewrite <- secure_memzero_loaded by exact Hn.
    apply load_bytes_ext. intros a _.
    apply (portable_memzero_spec m p n a). lia.
  - intros a Ha.
    destruct (portable_memzero_spec m p n a ltac:(lia)) as [-> ->].
    rewrite store_bytes_outside by (rewrite zeros_length; lia). auto.
Qed.

Lemma portable_secure_memzero_agrees_witness :
  0 <= 2 <= Z.of_nat 3
  /\ load_bytes (Tests.secure_memzero (fun _ => x77) 10 2) 10 3
     = [x00; x00; x77].
Proof.
  assert (H : 0 <= 2 <= Z.of_nat 3) by (simpl; lia).
  split; [exact H|].
  rewrite (proj1 (portable_secure_memzero_agrees (fun _ => x77) 10 2 3 H)).
  reflexivity.
Defined.

Lemma is_all_zeros_loop_spec (fuel : nat) :
  forall m buf len i,
    0 <= i -> (Z.to_nat (len - i) <= fuel)%nat ->
    Tests.is_all_zeros_loop fuel m buf len i = 1
    \/ Tests.is_all_zeros_loop fuel m buf len i = 0.
Proof.
  induction fuel as [|fuel IH]; intros m buf len i Hi Hf;
    cbn [Tests.is_all_zeros_loop]; destruct (i <? len); auto.
  destruct (negb (Byte.eqb (m (buf + i)) x00)); auto.
  apply IH; lia.
Qed.

Lemma is_all_zeros_loop_iff (fuel : nat) :
  forall m buf len i,
    0 <= i -> (Z.to_nat (len - i) <= fuel)%nat ->
    (Tests.is_all_zeros_loop fuel m buf len i = 1
     <-> forall a, buf + i <= a < buf + len -> m a = x00).
Proof.
  induction fuel as [|fuel IH]; intros m buf len i Hi Hf;
    cbn [Tests.is_all_zeros_loop]; destruct (i <? len) eqn:E;
    try (apply Z.ltb_ge in E; split; [intros _ a Ha; lia | reflexivity]).
  - apply Z.ltb_lt in E. lia.
  - apply Z.ltb_lt in E.
    destruct (Byte.eqb (m (buf + i)) x00) eqn:Eb; cbn [negb].
    + apply Byte.byte_dec_bl in Eb. rewrite IH by lia. split.
      * intros H a Ha. destruct (Z.eq_dec a (buf + i)) as [->|Hne];
          [exact Eb | apply H; lia].
      * intros H a Ha. apply H. lia.
    + split; [discriminate|]. intros H. exfalso.
      assert (Hz : m (buf + i) = x00) by (apply H; lia).
      rewrite Hz in Eb. discriminate Eb.
Qed.

(** X14. is_all_zeros(buf, len) returns 1 exactly when the [len] bytes at
    [buf] are all zero, and 0 otherwise; in particular it returns 1 on a
    buffer the tests' secure_memzero has just wiped. *)
Theorem is_all_zeros_decides (m : memory) (buf len : Z) :
  0 <= len ->
  (Tests.is_all_zeros m buf len = 1
   <-> load_bytes m buf (Z.to_nat len) = zeros (Z.to_nat len))
  /\ (Tests.is_all_zeros m buf len = 0
      <-> load_bytes m buf (Z.to_nat len) <> zeros (Z.to_nat len))
  /\ Tests.is_all_zeros (Tests.secure_memzero m buf len) buf len = 1.
Proof.
  intros Hlen. unfold Tests.is_all_zeros.
  assert (Hiff : forall m',
             Tests.is_all_zeros_loop (Z.to_nat len) m' buf len 0 = 1
             <-> load_bytes m' buf (Z.to_nat len) = zeros (Z.to_nat len)).
  { intros m'. rewrite is_all_zeros_loop_iff by lia. split.
    - intros H. apply nth_ext with (d := x00) (d' := x00).
      + now rewrite load_bytes_length, zeros_length.
      + intros i Hi. rewrite load_bytes_length in Hi.
        rewrite load_bytes_nth by exact Hi. unfold zeros.
        rewrite nth_repeat. apply H. lia.
    - intros H a Ha.
      replace a with (buf + Z.of_nat (Z.to_nat (a - buf))) by lia.
      rewrite <- (load_bytes_nth m' buf (Z.to_nat len) _ x00) by lia.
      rewrite H. unfold zeros. apply nth_repeat. }
  split; [apply Hiff|]. split.
  - rewrite <- Hiff.
    destruct (is_all_zeros_loop_spec (Z.to_nat len) m buf len 0) as [H|H];
      try lia; rewrite H; split; intros; try discriminate; try lia;
      congruence.
  - apply Hiff.
    rewrite (tests_memzero_loaded m buf len (Z.to_nat len)) by lia.
    apply secure_memzero_wipes_all. apply load_bytes_length.
Qed.

Lemma is_all_zeros_decides_witness :
  0 <= 3
  /\ Tests.is_all_zeros (store_bytes blank 10 [x00; x00; x01]) 10 3 = 0
  /\ Tests.is_all_zeros (store_bytes blank 10 [x00; x00; x01]) 10 2 = 1.
Proof.
  assert (H3 : 0 <= 3) by lia. assert (H2 : 0 <= 2) by lia.
  split; [exact H3|]. split.
  - apply (proj2 (proj1 (proj2 (is_all_zeros_decides
                                   (store_bytes blank 10 [x00; x00; x01])
                                   10 3 H3)))).
    vm_compute. discriminate.
  - exact (proj2 (proj1 (is_all_zeros_decides
                           (store_bytes blank 10 [x00; x00; x01]) 10 2 H2))
             eq_refl).
Defined.

(** X15. What the tests assert after a successful generation: on the key
    secp256k1_wrapper_generate_keys left at [privkey_out], the helper
    is_valid_privkey, which asks the library in a context of its own,
    returns the library's acceptance, not 0, and changes no memory. The
    library is taken to decide validity alike in every context, and to
    create the helper's context. *)
Theorem generated_key_passes_is_valid_privkey (lib : libsecp256k1)
  (fuel : nat) (w : world) (privkey_out pubkey_out compressed : Z)
  (r : gen_result) (ctx : secp256k1_context lib) :
  context_independent lib ->
  secp256k1_context_create lib SECP256K1_CONTEXT_NONE = Some ctx ->
  secp256k1_wrapper_generate_keys lib fuel w privkey_out pubkey_out compressed
  = Some r ->
  g_ret r = 0 ->
  exists v w',
    Tests.is_valid_privkey lib (g_world r) privkey_out = Some (v, w')
    /\ v <> 0
    /\ mem w' = mem (g_world r).
Proof.
  intros (Iv & _ & _) Hctx Hrun Hret.
  destruct (generate_keys_success _ _ _ _ _ _ _ Hrun Hret)
    as (ctx1 & key & pk & enc & ok2 & ok3
        & _ & _ & L & V & _ & _ & _ & _ & M).
  unfold Tests.is_valid_privkey. rewrite Hctx. cbn [mem log].
  change (Z.to_nat PRIVKEY_SIZE) with 32%nat.
  rewrite M, load_memcpy by exact L. rewrite <- M.
  do 2 eexists. split; [reflexivity|]. split; [|reflexivity].
  now rewrite (Iv ctx ctx1 key).
Qed.

Lemma generated_key_passes_is_valid_privkey_witness :
  exists r v w',
    secp256k1_wrapper_generate_keys (toy all_ok) 2 w_second_draw 100 200 1
    = Some r
    /\ Tests.is_valid_privkey (toy all_ok) (g_world r) 100 = Some (v, w')
    /\ v <> 0.
Proof.
  assert (E : exists r,
             secp256k1_wrapper_generate_keys (toy all_ok) 2 w_second_draw
               100 200 1 = Some r /\ g_ret r = 0)
    by (eexists; split; [vm_compute; reflexivity | reflexivity]).
  destruct E as (r & E & Hret).
  destruct (generated_key_passes_is_valid_privkey (toy all_ok) 2 w_second_draw
              100 200 1 r [] (toy_context_independent all_ok) eq_refl E Hret)
    as (v & w' & Hv & Hnz & _).
  exists r, v, w'. repeat split; assumption.
Defined.

(** * examples/demo.c *)

(** ** print_hex *)

Lemma load_bytes_cons (m : memory) (p : Z) (n : nat) :
  load_bytes m p (S n) = m p :: load_bytes m (p + 1) n.
Proof.
  unfold load_bytes. cbn [seq map]. f_equal.
  - f_equal. lia.
  - rewrite <- seq_shift, map_map. apply map_ext. intros i. f_equal. lia.
Qed.

Lemma print_hex_loop_eq (fuel : nat) :
  forall m data len i,
    0 <= i -> (Z.to_nat (len - i) <= fuel)%nat ->
    Demo.print_hex_loop fuel m data len i
    = flat_map Demo.printf_02X (load_bytes m (data + i) (Z.to_nat (len - i))).
Proof.
  induction fuel as [|fuel IH]; intros m data len i Hi Hf;
    cbn [Demo.print_hex_loop]; destruct (i <? len) eqn:E;
    try (apply Z.ltb_ge in E;
         replace (Z.to_nat (len - i)) with O by lia; reflexivity).
  - apply Z.ltb_lt in E. lia.
  - apply Z.ltb_lt in E.
    replace (Z.to_nat (len - i)) with (S (Z.to_nat (len - (i + 1)))) by lia.
    rewrite load_bytes_cons. cbn [flat_map]. f_equal.
    rewrite IH by lia. f_equal. f_equal. lia.
Qed.

Lemma print_hex_eq (m : memory) (data len : Z) :
  Demo.print_hex m data len
  = flat_map Demo.printf_02X (load_bytes m data (Z.to_nat len)) ++ [x0a].
Proof.
  unfold Demo.print_hex. rewrite print_hex_loop_eq by lia.
  now rewrite Z.add_0_r, Z.sub_0_r.
Qed.

Lemma printf_02X_read_back (c : byte) (rest : list byte) :
  Demo.parse_hex (Demo.printf_02X c ++ rest)
  = option_map (cons c) (Demo.parse_hex rest).
Proof.
  cbn [Demo.printf_02X app Demo.parse_hex].
  assert (H : Demo.hex_value (Demo.hex_upper (byte_val c / 16))
              = Some (byte_val c / 16)
              /\ Demo.hex_value (Demo.hex_upper (byte_val c mod 16))
                 = Some (byte_val c mod 16)
              /\ byte_of_Z (16 * (byte_val c / 16) + byte_val c mod 16) = c)
    by (destruct c; vm_compute; repeat split).
  destruct H as (-> & -> & E).
  destruct (Demo.parse_hex rest); [|reflexivity].
  cbn [option_map]. now rewrite E.
Qed.

(** X16. print_hex writes two upper-case hex digits per byte and a
    newline, 2 * len + 1 characters, and the line reads back as exactly the
    [len] bytes printed: two buffers print alike only when they hold the
    same bytes. *)
Theorem print_hex_reads_back (m : memory) (data len : Z) :
  Demo.parse_hex (Demo.print_hex m data len)
  = Some (load_bytes m data (Z.to_nat len))
  /\ length (Demo.print_hex m data len) = (2 * Z.to_nat len + 1)%nat
  /\ (forall m2 data2,
         Demo.print_hex m2 data2 len = Demo.print_hex m data len ->
         load_bytes m2 data2 (Z.to_nat len) = load_bytes m data (Z.to_nat len)).
Proof.
  assert (Hback : forall bs,
             Demo.parse_hex (flat_map Demo.printf_02X bs ++ [x0a]) = Some bs).
  { induction bs as [|b bs IH]; [reflexivity|].
    cbn [flat_map]. rewrite <- app_assoc, printf_02X_read_back, IH.
    reflexivity. }
  split; [|split].
  - rewrite print_hex_eq. apply Hback.
  - rewrite print_hex_eq, length_app.
    generalize (load_bytes_length m data (Z.to_nat len)).
    generalize (load_bytes m data (Z.to_nat len)) as bs.
    intros bs <-. induction bs as [|b bs IH]; [reflexivity|].
    cbn [flat_map length] in *. rewrite length_app. cbn [Demo.printf_02X length].
    lia.
  - intros m2 data2 H. apply (f_equal Demo.parse_hex) in H.
    rewrite !print_hex_eq, !Hback in H. now inversion H.
Qed.

(** ** The C library functions *)

Lemma byte_val_inj (a b : byte) : byte_val a = byte_val b -> a = b.
Proof.
  unfold byte_val. intros H. apply N2Z.inj in H.
  pose proof (Byte.of_to_N a) as Ha. rewrite H, Byte.of_to_N in Ha.
  now inversion Ha.
Qed.

Lemma tolower_nul (c : byte) : Libc.tolower c = x00 <-> c = x00.
Proof. destruct c; vm_compute; split; intros H; (reflexivity || discriminate H). Qed.

Lemma tolower_idem (c : byte) : Libc.tolower (Libc.tolower c) = Libc.tolower c.
Proof. destruct c; reflexivity. Qed.

Lemma eqb_nul_tolower (c : byte) :
  Byte.eqb (Libc.tolower c) x00 = Byte.eqb c x00.
Proof. destruct c; reflexivity. Qed.

Lemma c_str_tolower (s : list byte) :
  Libc.c_str (map Libc.tolower s) = map Libc.tolower (Libc.c_str s).
Proof.
  induction s as [|c s IH]; [reflexivity|].
  cbn [map Libc.c_str]. rewrite eqb_nul_tolower.
  destruct (Byte.eqb c x00); [reflexivity|]. cbn [map]. now rewrite IH.
Qed.

Lemma strlen_tolower (s : list byte) :
  Libc.strlen (map Libc.tolower s) = Libc.strlen s.
Proof. unfold Libc.strlen. now rewrite c_str_tolower, length_map. Qed.

Lemma strcasecmp_tolower (s : list byte) :
  forall t, Libc.strcasecmp (map Libc.tolower s) t = Libc.strcasecmp s t.
Proof.
  induction s as [|c s IH]; intros [|c2 t]; cbn [map Libc.strcasecmp];
    rewrite ?tolower_idem, ?eqb_nul_tolower, ?IH; reflexivity.
Qed.

Lemma eqb_nul (c : byte) : Byte.eqb c x00 = true <-> c = x00.
Proof.
  split; [apply Byte.byte_dec_bl | apply Byte.byte_dec_lb].
Qed.

(** strcasecmp returns 0 exactly on strings that are equal once lowered. *)
Lemma strcasecmp_zero_iff (s : list byte) :
  forall t,
    Libc.strcasecmp s t = 0
    <-> map Libc.tolower (Libc.c_str s) = map Libc.tolower (Libc.c_str t).
Proof.
  assert (Hval : forall c, byte_val (Libc.tolower c) = 0 <-> c = x00).
  { intros c. rewrite <- tolower_nul. split; [|intros ->; reflexivity].
    intros H. apply byte_val_inj. exact H. }
  induction s as [|c1 s IH]; intros [|c2 t]; cbn [Libc.strcasecmp Libc.c_str map].
  - tauto.
  - destruct (Byte.eqb c2 x00) eqn:E2.
    + apply eqb_nul in E2. subst c2. cbn. tauto.
    + split; [|discriminate]. intros H.
      assert (c2 = x00) by (apply Hval; lia). subst c2. discriminate E2.
  - destruct (Byte.eqb c1 x00) eqn:E1.
    + apply eqb_nul in E1. subst c1. cbn. tauto.
    + split; [|discriminate]. intros H.
      assert (c1 = x00) by (apply Hval; exact H). subst c1. discriminate E1.
  - destruct (byte_val (Libc.tolower c1) - byte_val (Libc.tolower c2) =? 0)
      eqn:Ed.
    + apply Z.eqb_eq in Ed.
      assert (Hl : Libc.tolower c1 = Libc.tolower c2)
        by (apply byte_val_inj; lia).
      destruct (Byte.eqb c1 x00) eqn:E1.
      * apply eqb_nul in E1. subst c1.
        assert (c2 = x00) by (apply tolower_nul; now rewrite <- Hl).
        subst c2. cbn. tauto.
      * destruct (Byte.eqb c2 x00) eqn:E2.
        { apply eqb_nul in E2. subst c2.
          assert (c1 = x00) by (apply tolower_nul; now rewrite Hl).
          subst c1. discriminate E1. }
        cbn [map]. rewrite IH, Hl. split; [congruence|].
        intros H. now inversion H.
    + apply Z.eqb_neq in Ed. split; [intros H; contradiction|].
      intros H. exfalso.
      destruct (Byte.eqb c1 x00) eqn:E1; destruct (Byte.eqb c2 x00) eqn:E2;
        try discriminate H.
      * apply eqb_nul in E1, E2. subst. apply Ed. reflexivity.
      * cbn [map] in H. inversion H as [[Hh Ht]]. apply Ed. rewrite Hh. lia.
Qed.

(** ** parse_compressed_arg *)

Lemma hd_tolower (s : list byte) :
  hd x00 (map Libc.tolower s) = Libc.tolower (hd x00 s).
Proof. destruct s; reflexivity. Qed.

Lemma parse_compressed_arg_lowered (s : list byte) (default_val : Z) :
  Demo.parse_compressed_arg (Some (map Libc.tolower s)) default_val
  = Demo.parse_compressed_arg (Some s) default_val.
Proof.
  unfold Demo.parse_compressed_arg.
  now rewrite strlen_tolower, hd_tolower, tolower_idem, !strcasecmp_tolower.
Qed.

(** X17. parse_compressed_arg ignores the case of its argument: two
    strings that are equal once every letter is lowered get the same
    answer, for any default. *)
Theorem parse_compressed_arg_ignores_case (s1 s2 : list byte)
  (default_val : Z) :
  map Libc.tolower s1 = map Libc.tolower s2 ->
  Demo.parse_compressed_arg (Some s1) default_val
  = Demo.parse_compressed_arg (Some s2) default_val.
Proof.
  intros H.
  rewrite <- (parse_compressed_arg_lowered s1),
    <- (parse_compressed_arg_lowered s2).
  now rewrite H.
Qed.

Lemma parse_compressed_arg_ignores_case_witness :
  Demo.parse_compressed_arg
    (Some ["U"%byte; "n"%byte; "C"%byte; "O"%byte; "m"%byte; "P"%byte;
           "r"%byte; "E"%byte; "s"%byte; "S"%byte; "e"%byte; "D"%byte]) 1
  = Demo.parse_compressed_arg (Some Demo.str_uncompressed) 1
  /\ Demo.parse_compressed_arg (Some Demo.str_uncompressed) 1 = 0.
Proof.
  split; [|reflexivity].
  apply parse_compressed_arg_ignores_case. reflexivity.
Defined.

Lemma strlen_one (s : list byte) :
  Libc.strlen s = 1 -> Libc.c_str s = [hd x00 s].
Proof.
  unfold Libc.strlen. destruct s as [|c s]; cbn [Libc.c_str hd length].
  - intros H. discriminate H.
  - destruct (Byte.eqb c x00); cbn [length]; [intros H; discriminate H|].
    destruct (Libc.c_str s); cbn [length]; [reflexivity | lia].
Qed.

Lemma strcasecmp_literal (s lit : list byte) :
  map Libc.tolower (Libc.c_str lit) = lit ->
  ((Libc.strcasecmp s lit =? 0) = true
   <-> map Libc.tolower (Libc.c_str s) = lit).
Proof.
  intros Hlit. rewrite Z.eqb_eq, strcasecmp_zero_iff, Hlit. tauto.
Qed.

(** X18. The spellings parse_compressed_arg accepts, with [l] the argument
    up to its NUL, lowered: it answers 1 for "c", "1" and "compressed", 0
    for "u", "0" and "uncompressed", and the default for a null pointer and
    for every other string. *)
Theorem parse_compressed_arg_spellings (s : list byte) (default_val : Z) :
  let l := map Libc.tolower (Libc.c_str s) in
  let answer := Demo.parse_compressed_arg (Some s) default_val in
  (l = ["c"%byte] \/ l = ["1"%byte] \/ l = Demo.str_compressed -> answer = 1)
  /\ (l = ["u"%byte] \/ l = ["0"%byte] \/ l = Demo.str_uncompressed ->
      answer = 0)
  /\ (~ (l = ["c"%byte] \/ l = ["1"%byte] \/ l = Demo.str_compressed) ->
      ~ (l = ["u"%byte] \/ l = ["0"%byte] \/ l = Demo.str_uncompressed) ->
      answer = default_val)
  /\ Demo.parse_compressed_arg None default_val = default_val.
Proof.
  cbv zeta. unfold Demo.parse_compressed_arg.
  pose proof (strcasecmp_literal s Demo.str_compressed eq_refl) as Hc.
  pose proof (strcasecmp_literal s Demo.str_uncompressed eq_refl) as Hu.
  set (l := map Libc.tolower (Libc.c_str s)) in *.
  destruct (Libc.strlen s =? 1) eqn:E1.
  - apply Z.eqb_eq in E1. apply strlen_one in E1.
    assert (Hl : l = [Libc.tolower (hd x00 s)]) by (unfold l; now rewrite E1).
    set (c := Libc.tolower (hd x00 s)) in *.
    assert (Hnc : (Libc.strcasecmp s Demo.str_compressed =? 0) = false).
    { destruct (Libc.strcasecmp s Demo.str_compressed =? 0); [|reflexivity].
      destruct Hc as [Hc _]. specialize (Hc eq_refl).
      rewrite Hl in Hc. discriminate Hc. }
    assert (Hnu : (Libc.strcasecmp s Demo.str_uncompressed =? 0) = false).
    { destruct (Libc.strcasecmp s Demo.str_uncompressed =? 0); [|reflexivity].
      destruct Hu as [Hu _]. specialize (Hu eq_refl).
      rewrite Hl in Hu. discriminate Hu. }
    rewrite Hnc, Hnu, Hl.
    destruct (Byte.eqb c "c"%byte) eqn:Ec;
      [apply Byte.byte_dec_bl in Ec; rewrite Ec;
       repeat split; intros; try reflexivity;
       repeat match goal with H : _ \/ _ |- _ => destruct H end;
       try discriminate; exfalso; auto|].
    destruct (Byte.eqb c "u"%byte) eqn:Eu;
      [apply Byte.byte_dec_bl in Eu; rewrite Eu;
       repeat split; intros; try reflexivity;
       repeat match goal with H : _ \/ _ |- _ => destruct H end;
       try discriminate; exfalso; auto|].
    destruct (Byte.eqb c "0"%byte) eqn:E0;
      [apply Byte.byte_dec_bl in E0; rewrite E0;
       repeat split; intros; try reflexivity;
       repeat match goal with H : _ \/ _ |- _ => destruct H end;
       try discriminate; exfalso; auto|].
    destruct (Byte.eqb c "1"%byte) eqn:En;
      [apply Byte.byte_dec_bl in En; rewrite En;
       repeat split; intros; try reflexivity;
       repeat match goal with H : _ \/ _ |- _ => destruct H end;
       try discriminate; exfalso; auto|].
    repeat split; intros; try reflexivity;
      repeat match goal with H : _ \/ _ |- _ => destruct H end;
      try discriminate;
      match goal with
      | H : [c] = [_] |- _ =>
          inversion H as [Hc'];
          rewrite Hc' in *; discriminate
      end.
  - assert (Hlen : length l <> 1%nat).
    { unfold l. rewrite length_map. apply Z.eqb_neq in E1.
      unfold Libc.strlen in E1. lia. }
    destruct (Libc.strcasecmp s Demo.str_compressed =? 0) eqn:Ec.
    + destruct Hc as [Hc _]. specialize (Hc eq_refl). rewrite Hc.
      repeat split; intros; try reflexivity;
        repeat match goal with H : _ \/ _ |- _ => destruct H end;
        try discriminate; exfalso; auto.
    + assert (Hncl : l <> Demo.str_compressed)
        by (intros H; apply Hc in H; discriminate H).
      destruct (Libc.strcasecmp s Demo.str_uncompressed =? 0) eqn:Eu.
      * destruct Hu as [Hu _]. specialize (Hu eq_refl). rewrite Hu.
        repeat split; intros; try reflexivity;
          repeat match goal with H : _ \/ _ |- _ => destruct H end;
          try discriminate; exfalso; auto.
      * assert (Hnul : l <> Demo.str_uncompressed)
          by (intros H; apply Hu in H; discriminate H).
        repeat split; intros; try reflexivity;
          repeat match goal with H : _ \/ _ |- _ => destruct H end;
          try contradiction;
          match goal with
          | H : l = [_] |- _ => rewrite H in Hlen; cbn in Hlen; lia
          end.
Qed.

(** ** One iteration of the loop of main *)

Lemma memcmp_loop_zero_iff (n : nat) :
  forall m p q,
    Libc.memcmp_loop n m p q = 0 <-> load_bytes m p n = load_bytes m q n.
Proof.
  induction n as [|n IH]; intros m p q; cbn [Libc.memcmp_loop];
    [unfold load_bytes; cbn; tauto|].
  rewrite !load_bytes_cons.
  destruct (byte_val (m p) - byte_val (m q) =? 0) eqn:E.
  - apply Z.eqb_eq in E.
    assert (Hh : m p = m q) by (apply byte_val_inj; lia).
    rewrite IH, Hh. split; [congruence|]. intros H. now inversion H.
  - apply Z.eqb_neq in E. split; [intros H; contradiction|].
    intros H. inversion H as [[Hh Ht]]. rewrite Hh in E. lia.
Qed.

Lemma demo_memzero_at (m : memory) (p n a : Z) :
  0 <= n ->
  Demo.secure_memzero m p n a
  = if (p <=? a) && (a <? p + n) then x00 else m a.
Proof.
  intros Hn. rewrite (proj2 (portable_memzero_spec m p n a Hn)).
  unfold store_bytes. rewrite zeros_length, Z2Nat.id by lia.
  destruct ((p <=? a) && (a <? p + n)); [|reflexivity].
  unfold zeros. apply nth_repeat.
Qed.

Lemma memset_zero_at (m : memory) (p n a : Z) :
  0 <= n ->
  Libc.memset m p x00 n a = if (p <=? a) && (a <? p + n) then x00 else m a.
Proof.
  intros Hn. unfold Libc.memset, store_bytes.
  rewrite repeat_length, Z2Nat.id by lia.
  destruct ((p <=? a) && (a <? p + n)); [|reflexivity].
  apply nth_repeat.
Qed.

Lemma load_bytes_zeros (m : memory) (p : Z) (n : nat) :
  (forall a, p <= a < p + Z.of_nat n -> m a = x00) ->
  load_bytes m p n = zeros n.
Proof.
  intros H. apply nth_ext with (d := x00) (d' := x00).
  - now rewrite load_bytes_length, zeros_length.
  - intros i Hi. rewrite load_bytes_length in Hi.
    rewrite load_bytes_nth by exact Hi. unfold zeros. rewrite nth_repeat.
    apply H. lia.
Qed.

Lemma generate_keys_minus1 (lib : libsecp256k1) (fuel : nat) (w : world)
  (privkey_out pubkey_out compressed : Z) (r : gen_result) :
  secp256k1_wrapper_generate_keys lib fuel w privkey_out pubkey_out compressed
  = Some r ->
  g_ret r = -1 ->
  invalid_args privkey_out pubkey_out compressed = true.
Proof. generate_paths; intros H; (reflexivity || discriminate H). Qed.

(** Derivation straight after a successful generation, for buffers that do
    not overlap. *)
Lemma derive_after_generate (lib : libsecp256k1) (fuel : nat) (w : world)
  (privkey_out pubkey_out out2 compressed : Z) (r : gen_result) :
  context_independent lib ->
  secp256k1_wrapper_generate_keys lib fuel w privkey_out pubkey_out compressed
  = Some r ->
  g_ret r = 0 ->
  privkey_out + PRIVKEY_SIZE <= pubkey_out
  \/ pubkey_out + pubkey_len_of compressed <= privkey_out ->
  out2 <> NULL ->
  let run :=
    secp256k1_wrapper_derive_pubkey lib (g_world r) privkey_out out2 compressed
  in
  fst run = 0
  /\ load_bytes (mem (snd run)) out2 (Z.to_nat (pubkey_len_of compressed))
     = load_bytes (mem (g_world r)) pubkey_out
         (Z.to_nat (pubkey_len_of compressed)).
Proof.
  intros (Iv & Ic & Is) Hrun Hret Hdisj Hout. cbv zeta.
  destruct (generate_keys_success _ _ _ _ _ _ _ Hrun Hret)
    as (ctx & key & pk & enc & ok2 & ok3
        & Hargs & Hctx & L & V & Hc & Hok2 & Hs & Hok3 & M).
  pose proof (pubkey_len_of_nonneg compressed) as Hlen.
  assert (Hpub : load_bytes (mem (g_world r)) pubkey_out
                   (Z.to_nat (pubkey_len_of compressed))
                 = fit (Z.to_nat (pubkey_len_of compressed)) enc).
  { rewrite M. unfold memcpy. rewrite load_store_disjoint.
    - apply load_serialize_into.
    - rewrite length_firstn, L. unfold PRIVKEY_SIZE in *. lia. }
  unfold secp256k1_wrapper_derive_pubkey.
  rewrite (invalid_args_other_buffer _ _ _ _ Hargs Hout).
  destruct (secp256k1_context_create lib SECP256K1_CONTEXT_SIGN) as [ctx0|];
    [|congruence].
  cbn [mem log]. change (Z.to_nat PRIVKEY_SIZE) with 32%nat.
  replace (load_bytes (mem (g_world r)) privkey_out 32) with key
    by (rewrite M; symmetry; now apply load_memcpy).
  rewrite (Iv ctx0 ctx key), (Ic ctx0 ctx key), Hc.
  apply Z.eqb_neq in V, Hok2, Hok3. rewrite V, Hok2.
  rewrite (Is ctx0 ctx), Hs, Hok3.
  cbn [fst snd mem log with_mem context_destroy].
  split; [reflexivity|]. now rewrite load_serialize_into, Hpub.
Qed.

Lemma in_range_false (p n a : Z) :
  a < p \/ p + n <= a -> (p <=? a) && (a <? p + n) = false.
Proof.
  intros H. destruct (p <=? a) eqn:E1; [|reflexivity].
  apply Z.leb_le in E1. cbn [andb]. apply Z.ltb_ge. lia.
Qed.

Lemma in_range_true (p n a : Z) :
  p <= a < p + n -> (p <=? a) && (a <? p + n) = true.
Proof.
  intros H. apply andb_true_iff. split; [apply Z.leb_le | apply Z.ltb_lt]; lia.
Qed.

Lemma pubkey_len_of_cases (compressed : Z) :
  pubkey_len_of compressed = 33 \/ pubkey_len_of compressed = 65.
Proof.
  unfold pubkey_len_of, PUBKEY_UNCOMPRESSION_SIZE, PUBKEY_COMPRESSION_SIZE.
  destruct (compressed =? 0); auto.
Qed.

Section DemoIteration.

Variable lib : libsecp256k1.
Variable bufs : Demo.buffers.
Variable fuel : nat.

Hypothesis Hlib : context_independent lib.
Hypothesis Hbufs : separate bufs.

Lemma demo_args_valid (compressed : Z) :
  compressed = 0 \/ compressed = 1 ->
  invalid_args (Demo.privkey bufs) (Demo.pubkey bufs) compressed = false.
Proof.
  intros Hc. destruct Hbufs as (H1 & H2 & _).
  destruct (invalid_args _ _ compressed) eqn:E; [|reflexivity].
  apply invalid_args_iff in E. lia.
Qed.

(** The memory main hands to secp256k1_wrapper_generate_keys. *)
Lemma demo_memsets_at (m : memory) (a : Z) :
  Libc.memset (Libc.memset m (Demo.pubkey bufs) x00 PUBKEY_UNCOMPRESSION_SIZE)
    (Demo.derived_pubkey bufs) x00 PUBKEY_UNCOMPRESSION_SIZE a
  = if (Demo.derived_pubkey bufs <=? a) && (a <? Demo.derived_pubkey bufs + 65)
    then x00
    else if (Demo.pubkey bufs <=? a) && (a <? Demo.pubkey bufs + 65)
         then x00 else m a.
Proof.
  unfold PUBKEY_UNCOMPRESSION_SIZE. now rewrite !memset_zero_at by lia.
Qed.

Lemma demo_pair_outcome_shared (i compressed : Z) (w : world)
  (out : list Demo.printed) (w' : world) :
  compressed = 0 \/ compressed = 1 ->
  Demo.pair lib bufs fuel i compressed (pubkey_len_of compressed) w
  = Some (out, w') ->
  (exists gres,
      out = [Demo.ErrGenerateFailed gres i]
      /\ (gres = -2 \/ gres = -3 \/ gres = -5)
      /\ load_bytes (mem w') (Demo.privkey bufs) 32
         = load_bytes (mem w) (Demo.privkey bufs) 32)
  \/ (exists h1 h2,
         out = [Demo.PrPrivateKey i; Demo.PrHex h1;
                Demo.PrPublicKey i; Demo.PrHex h2;
                Demo.PrDerivedPublicKey i; Demo.PrHex h2;
                Demo.PrMatch i]
         /\ load_bytes (mem w') (Demo.privkey bufs) 32 = zeros 32
         /\ load_bytes (mem w') (Demo.pubkey bufs) 65 = zeros 65
         /\ load_bytes (mem w') (Demo.derived_pubkey bufs) 65 = zeros 65).
Proof.
  intros Hc. unfold Demo.pair.
  set (p := Demo.privkey bufs). set (q := Demo.pubkey bufs).
  set (d := Demo.derived_pubkey bufs).
  destruct Hbufs as (Hp & Hq & Hd & D1 & D2 & D3). fold p q d in Hp, Hq, Hd, D1, D2, D3.
  set (len := pubkey_len_of compressed).
  assert (Hlen : len = 33 \/ len = 65) by apply pubkey_len_of_cases.
  set (w0 := with_mem _ (with_mem _ w)).
  assert (Hw0 : forall a,
             mem w0 a
             = if (d <=? a) && (a <? d + 65) then x00
               else if (q <=? a) && (a <? q + 65) then x00 else mem w a)
    by (intros a; apply demo_memsets_at).
  destruct (secp256k1_wrapper_generate_keys lib fuel w0 p q compressed)
    as [r|] eqn:Hgen; [|discriminate].
  destruct (g_ret r =? 0) eqn:Eret; cbn [negb].
  - (* generation succeeded *)
    apply Z.eqb_eq in Eret. intros Hout. right.
    assert (Hpq : p + PRIVKEY_SIZE <= q \/ q + len <= p)
      by (unfold PRIVKEY_SIZE; lia).
    destruct (derive_after_generate lib fuel w0 p q d compressed r Hlib Hgen
                Eret Hpq Hd) as [Hdres Hsame].
    pose proof (derive_pubkey_stores lib (g_world r) p d compressed) as Hst.
    fold len in Hsame, Hst.
    remember (secp256k1_wrapper_derive_pubkey lib (g_world r) p d compressed)
      as run eqn:Erun.
    destruct run as [dres w2]. clear Erun.
    cbn [fst snd] in Hdres, Hsame, Hst. subst dres. cbn [Z.eqb negb] in Hout.
    inversion Hout; subst out w'; clear Hout.
    assert (Hq2 : load_bytes (mem w2) q (Z.to_nat len)
                  = load_bytes (mem (g_world r)) q (Z.to_nat len)).
    { apply load_bytes_ext. intros a Ha. apply Hst. lia. }
    assert (Hcmp : Libc.memcmp (mem w2) q d len = 0).
    { unfold Libc.memcmp. apply memcmp_loop_zero_iff. congruence. }
    rewrite Hcmp. cbn [Z.eqb].
    exists (Demo.print_hex (mem w2) p PRIVKEY_SIZE),
      (Demo.print_hex (mem w2) q len).
    split.
    { f_equal. f_equal. f_equal. f_equal. f_equal. f_equal. f_equal.
      rewrite !print_hex_eq. congruence. }
    assert (Hgst : forall a,
               (a < q \/ q + len <= a) -> (a < p \/ p + 32 <= a) ->
               mem (g_world r) a = mem w0 a).
    { intros a H1 H2.
      apply (generate_keys_stores lib fuel w0 p q compressed r a Hgen);
        [exact H1 | unfold PRIVKEY_SIZE; exact H2]. }
    cbn [mem with_mem]. unfold PRIVKEY_SIZE.
    split; [|split]; apply load_bytes_zeros; intros a Ha;
      rewrite !demo_memzero_at by lia.
    + rewrite (in_range_false q len a) by lia.
      rewrite (in_range_false d len a) by lia.
      now rewrite (in_range_true p 32 a) by lia.
    + destruct (Z.lt_ge_cases a (q + len)) as [Hin|Hout].
      * now rewrite (in_range_true q len a) by lia.
      * rewrite (in_range_false q len a) by lia.
        rewrite (in_range_false d len a) by lia.
        rewrite (in_range_false p 32 a) by lia.
        rewrite Hst by lia. rewrite Hgst by lia. rewrite Hw0.
        rewrite (in_range_false d 65 a) by lia.
        now rewrite (in_range_true q 65 a) by lia.
    + rewrite (in_range_false q len a) by lia.
      destruct (Z.lt_ge_cases a (d + len)) as [Hin|Hout].
      * now rewrite (in_range_true d len a) by lia.
      * rewrite (in_range_false d len a) by lia.
        rewrite (in_range_false p 32 a) by lia.
        rewrite Hst by lia. rewrite Hgst by lia. rewrite Hw0.
        now rewrite (in_range_true d 65 a) by lia.
  - (* generation failed *)
    apply Z.eqb_neq in Eret. intros Hout. left.
    inversion Hout; subst out w'; clear Hout.
    exists (g_ret r). split; [reflexivity|].
    destruct (generate_keys_error_memory _ _ _ _ _ _ _ Hgen Eret)
      as (Hcode & _ & Hmem).
    split.
    + destruct Hcode as [H1|H]; [|exact H].
      apply (generate_keys_minus1 _ _ _ _ _ _ _ Hgen) in H1.
      fold p q in H1. pose proof (demo_args_valid compressed Hc) as Hv.
      fold p q in Hv. congruence.
    + apply load_bytes_ext. intros a Ha.
      assert (Ha0 : mem w0 a = mem w a).
      { rewrite Hw0. rewrite (in_range_false d 65 a) by lia.
        now rewrite (in_range_false q 65 a) by lia. }
      destruct Hmem as [->|[enc ->]]; [exact Ha0|].
      unfold serialize_into. fold len.
      rewrite store_bytes_outside by (rewrite fit_length; lia).
      exact Ha0.
Qed.

End DemoIteration.

Lemma toy_bufs_separate : separate toy_bufs.
Proof. unfold separate, toy_bufs, NULL; cbn. lia. Qed.

(** ** Kernels on which an iteration ends *)

Lemma getrandom_later_refl (o : OS) : getrandom_later o o.
Proof. exists O. reflexivity. Qed.

Lemma getrandom_later_trans (o1 o2 o3 : OS) :
  getrandom_later o1 o2 -> getrandom_later o2 o3 -> getrandom_later o1 o3.
Proof.
  intros [k1 H1] [k2 H2]. exists (k1 + k2)%nat. intros i.
  rewrite H2, H1. f_equal. lia.
Qed.

Lemma getrandom_later_available (o o' : OS) :
  getrandom_later o o' -> getrandom_available o -> getrandom_available o'.
Proof. intros [k H] Ha j. rewrite H. apply Ha. Qed.

Lemma getrandom_later_bounded (lib : libsecp256k1) (fuel : nat) (o o' : OS) :
  getrandom_later o o' -> sampling_bounded lib fuel o ->
  sampling_bounded lib fuel o'.
Proof.
  intros [k H] Hb start. destruct (Hb (k + start)%nat) as (j & Hj & He).
  exists j. split; [exact Hj|]. rewrite H.
  now replace (k + (start + j))%nat with (k + start + j)%nat by lia.
Qed.

(** With getrandom implemented, one call of secp256k1_wrapper_fill_random
    for 32 bytes is one call of getrandom, and a result other than 0 means
    the kernel delivered the 32 bytes now in the buffer. *)
Lemma fill_random_available (w : world) (data : list byte) :
  os_getrandom (os w) O <> SysErr ENOSYS ->
  length data = 32%nat ->
  exists r data',
    secp256k1_wrapper_fill_random w data PRIVKEY_SIZE
    = Some (r, data', snd (sys_getrandom w PRIVKEY_SIZE))
    /\ (r <> 0 ->
        exists chunk,
          os_getrandom (os w) O = SysData chunk
          /\ (32 <= length chunk)%nat /\ data' = firstn 32 chunk).
Proof.
  intros Hav Ld. unfold secp256k1_wrapper_fill_random.
  rewrite sys_getrandom_eq.
  destruct (os_getrandom (os w) O) as [e|chunk] eqn:Egr; cbn [transfer].
  - cbn [Z.eqb Pos.eqb andb].
    destruct (e =? ENOSYS) eqn:Ee;
      [apply Z.eqb_eq in Ee; subst e; now contradiction Hav|].
    do 2 eexists. split; [reflexivity|]. cbn. intros H. now contradiction H.
  - cbv zeta. change (Z.to_nat PRIVKEY_SIZE) with 32%nat.
    set (got := firstn 32 chunk).
    replace (Z.of_nat (length got) =? -1) with false
      by (symmetry; apply Z.eqb_neq; lia).
    cbn [andb]. do 2 eexists. split; [reflexivity|].
    destruct ((0 <=? Z.of_nat (length got))
              && (Z.of_nat (length got) =? PRIVKEY_SIZE)) eqn:E;
      [|intros H; now contradiction H].
    intros _. apply andb_true_iff in E. destruct E as [_ E].
    apply Z.eqb_eq in E. unfold PRIVKEY_SIZE in E.
    assert (Lg : length got = 32%nat) by lia.
    subst got. exists chunk. split; [reflexivity|]. split.
    + rewrite length_firstn in Lg. lia.
    + apply blit_all. lia.
Qed.

Lemma sys_getrandom_later (w : world) (size : Z) :
  forall i, os_getrandom (os (snd (sys_getrandom w size))) i
            = os_getrandom (os w) (S i).
Proof. reflexivity. Qed.

Section SamplingEnds.

Variable lib : libsecp256k1.

(** The sampling loop ends within [fuel] draws when one of the next [fuel]
    answers of getrandom ends a draw. *)
Lemma draw_privkey_ends (ctx : secp256k1_context lib) (fuel : nat) :
  forall (w : world) (privkey : list byte),
    length privkey = 32%nat ->
    getrandom_available (os w) ->
    (exists j, (j < fuel)%nat /\ ends_draw lib (os_getrandom (os w) j)) ->
    exists res key w',
      draw_privkey lib fuel ctx w privkey = Some (res, key, w')
      /\ getrandom_later (os w) (os w').
Proof.
  induction fuel as [|fuel IH]; intros w privkey Lp Hav (j & Hj & He);
    [lia|].
  cbn [draw_privkey].
  destruct (fill_random_available w privkey (Hav O) Lp)
    as (r & key1 & Hfill & Hgot).
  rewrite Hfill. set (w1 := snd (sys_getrandom w PRIVKEY_SIZE)).
  assert (L1 : getrandom_later (os w) (os w1))
    by (exists 1%nat; intros i; apply sys_getrandom_later).
  destruct (r =? 0) eqn:Er.
  - do 3 eexists. split; [reflexivity | exact L1].
  - apply Z.eqb_neq in Er. destruct (Hgot Er) as (chunk & Hc & Lc & ->).
    destruct (secp256k1_ec_seckey_verify lib ctx (firstn 32 chunk) =? 0)
      eqn:Ev.
    + apply Z.eqb_eq in Ev.
      destruct j as [|j].
      { exfalso. rewrite Hc in He. cbn [ends_draw] in He.
        destruct He as [He|He]; [lia | exact (He ctx Ev)]. }
      destruct (IH (log (EvSeckeyVerify
                           (secp256k1_ec_seckey_verify lib ctx
                              (firstn 32 chunk))) w1)
                  (firstn 32 chunk))
        as (res & key & w' & Hrun & L2).
      * rewrite length_firstn. lia.
      * intros i. cbn [os log]. unfold w1. rewrite sys_getrandom_later.
        apply Hav.
      * exists j. split; [lia|]. cbn [os log]. unfold w1.
        now rewrite sys_getrandom_later.
      * exists res, key, w'. split; [exact Hrun|].
        apply getrandom_later_trans with (os w1); [exact L1 | exact L2].
    + do 3 eexists. split; [reflexivity | exact L1].
Qed.

(** secp256k1_wrapper_generate_keys returns, with fuel for [fuel] draws,
    when getrandom is implemented and one of the [fuel] answers behind the
    seed ends a draw. *)
Lemma generate_keys_ends (fuel : nat) (w : world) (p1 p2 compressed : Z) :
  getrandom_available (os w) ->
  (exists j, (j < fuel)%nat /\ ends_draw lib (os_getrandom (os w) (S j))) ->
  exists r,
    secp256k1_wrapper_generate_keys lib fuel w p1 p2 compressed = Some r
    /\ getrandom_later (os w) (os (g_world r)).
Proof.
  intros Hav Hend. unfold secp256k1_wrapper_generate_keys, returning.
  destruct (invalid_args p1 p2 compressed).
  { eexists. split; [reflexivity | apply getrandom_later_refl]. }
  destruct (secp256k1_context_create lib SECP256K1_CONTEXT_SIGN) as [ctx0|].
  2:{ eexists. split; [reflexivity | apply getrandom_later_refl]. }
  set (wc := log (EvContextCreate SECP256K1_CONTEXT_SIGN) w).
  destruct (fill_random_available wc
              (uninit w 0 (Z.to_nat PRIVKEY_SIZE)) (Hav O)
              (uninit_length _ _ _)) as (r1 & seed & Hfill & _).
  rewrite Hfill. set (w1 := snd (sys_getrandom wc PRIVKEY_SIZE)).
  assert (L1 : getrandom_later (os w) (os w1))
    by (exists 1%nat; intros i;
        exact (sys_getrandom_later wc PRIVKEY_SIZE i)).
  destruct (r1 =? 0).
  { eexists. split; [reflexivity | exact L1]. }
  destruct (secp256k1_context_randomize lib ctx0 seed) as [ok1 ctx1].
  destruct (ok1 =? 0).
  { eexists. split; [reflexivity | exact L1]. }
  destruct Hend as (j & Hj & He).
  destruct (draw_privkey_ends ctx1 fuel (log (EvContextRandomize ok1) w1)
              (uninit w (Z.to_nat PRIVKEY_SIZE) (Z.to_nat PRIVKEY_SIZE))
              (uninit_length _ _ _))
    as (res & key & w2 & Hdraw & L2).
  { intros i. cbn [os log]. unfold w1. rewrite sys_getrandom_later.
    apply Hav. }
  { exists j. split; [exact Hj|]. cbn [os log]. unfold w1.
    now rewrite sys_getrandom_later. }
  rewrite Hdraw.
  assert (L : getrandom_later (os w) (os w2))
    by (apply getrandom_later_trans with (os w1); [exact L1 | exact L2]).
  destruct res.
  - destruct (secp256k1_ec_pubkey_create lib ctx1 key) as [ok2 pk].
    destruct (ok2 =? 0).
    { eexists. split; [reflexivity | exact L]. }
    destruct (secp256k1_ec_pubkey_serialize lib ctx1 pk
                (pubkey_len_of compressed) (flags_of compressed))
      as [ok3 enc].
    destruct (ok3 =? 0); eexists; (split; [reflexivity | exact L]).
  - eexists. split; [reflexivity | exact L].
Qed.

Lemma derive_pubkey_os (w : world) (p1 p2 compressed : Z) :
  os (snd (secp256k1_wrapper_derive_pubkey lib w p1 p2 compressed)) = os w.
Proof.
  unfold secp256k1_wrapper_derive_pubkey.
  destruct (invalid_args p1 p2 compressed); [reflexivity|].
  destruct (secp256k1_context_create lib SECP256K1_CONTEXT_SIGN) as [ctx|];
    [|reflexivity].
  destruct (secp256k1_ec_seckey_verify lib ctx _ =? 0); [reflexivity|].
  destruct (secp256k1_ec_pubkey_create lib ctx _) as [ok2 pk].
  destruct (ok2 =? 0); [reflexivity|].
  destruct (secp256k1_ec_pubkey_serialize lib ctx pk _ _) as [ok3 enc].
  destruct (ok3 =? 0); reflexivity.
Qed.

Variable bufs : Demo.buffers.

(** An iteration of the demo's loop ends on such a kernel. *)
Lemma demo_pair_ends (fuel : nat) (i compressed pubkey_len : Z) (w : world) :
  getrandom_available (os w) ->
  sampling_bounded lib fuel (os w) ->
  exists out w',
    Demo.pair lib bufs fuel i compressed pubkey_len w = Some (out, w')
    /\ getrandom_later (os w) (os w').
Proof.
  intros Hav Hb. unfold Demo.pair.
  set (w0 := with_mem _ (with_mem _ w)).
  destruct (generate_keys_ends fuel w0 (Demo.privkey bufs) (Demo.pubkey bufs)
              compressed Hav (Hb 1%nat)) as (r & Hgen & L).
  rewrite Hgen. change (os w0) with (os w) in L.
  destruct (negb (g_ret r =? 0)).
  { do 2 eexists. split; [reflexivity | exact L]. }
  pose proof (derive_pubkey_os (g_world r) (Demo.privkey bufs)
                (Demo.derived_pubkey bufs) compressed) as Ho.
  destruct (secp256k1_wrapper_derive_pubkey lib (g_world r)
              (Demo.privkey bufs) (Demo.derived_pubkey bufs) compressed)
    as [dres w2].
  cbn [snd] in Ho.
  destruct (negb (dres =? 0)); do 2 eexists;
    (split; [reflexivity | cbn [os with_mem]; rewrite Ho; exact L]).
Qed.

(** The loop of the demo ends on such a kernel. *)
Lemma demo_pairs_ends (fuel : nat) (compressed pubkey_len : Z) (n : nat) :
  forall (i : Z) (w : world),
    getrandom_available (os w) ->
    sampling_bounded lib fuel (os w) ->
    exists out w',
      Demo.pairs lib bufs fuel n i compressed pubkey_len w = Some (out, w').
Proof.
  induction n as [|n IH]; intros i w Hav Hb; cbn [Demo.pairs].
  - do 2 eexists. reflexivity.
  - destruct (demo_pair_ends fuel i compressed pubkey_len w Hav Hb)
      as (out1 & w1 & H1 & L).
    rewrite H1.
    destruct (IH (i + 1) w1 (getrandom_later_available _ _ L Hav)
                (getrandom_later_bounded _ _ _ _ L Hb))
      as (outs & w2 & H2).
    rewrite H2. do 2 eexists. reflexivity.
Qed.

End SamplingEnds.

Lemma second_draw_available : getrandom_available (os w_second_draw).
Proof. intros [|[|[|[|j]]]] H; vm_compute in H; discriminate H. Qed.

Lemma second_draw_bounded (s : toy_switches) :
  sampling_bounded (toy s) 2 (os w_second_draw).
Proof.
  intros [|[|[|start]]].
  - exists 0%nat. split; [lia|]. right. intros ctx H. discriminate H.
  - exists 1%nat. split; [lia|]. right. intros ctx H. discriminate H.
  - exists 0%nat. split; [lia|]. right. intros ctx H. discriminate H.
  - exists 0%nat. split; [lia|]. rewrite Nat.add_0_r.
    destruct start; exact I.
Qed.

Lemma one_pair_available : getrandom_available (os w_one_pair).
Proof. intros [|[|[|j]]] H; vm_compute in H; discriminate H. Qed.

Lemma one_pair_bounded (s : toy_switches) :
  sampling_bounded (toy s) 2 (os w_one_pair).
Proof.
  intros [|[|start]].
  - exists 0%nat. split; [lia|]. right. intros ctx H. discriminate H.
  - exists 0%nat. split; [lia|]. right. intros ctx H. discriminate H.
  - exists 0%nat. split; [lia|]. rewrite Nat.add_0_r.
    destruct start; exact I.
Qed.

(** X19. One iteration of the demo's loop, with a library that decides
    validity alike in every context and three separate arrays. The
    iteration ends, with fuel for [fuel] draws, when getrandom is
    implemented and never delivers [fuel] rejected candidates in a row.
    Whenever it ends, either generation failed, the only line is the
    failure with code -2, -3 or -5 and the private-key array is as before;
    or the seven lines of a pair were printed, the public key and the
    derived public key as the same hex line, ending in the match line, and
    afterwards the three arrays hold only zeros. *)
Theorem demo_iteration_outcome (lib : libsecp256k1) (bufs : Demo.buffers)
  (fuel : nat) (i compressed : Z) (w : world) :
  context_independent lib ->
  separate bufs ->
  compressed = 0 \/ compressed = 1 ->
  (getrandom_available (os w) -> sampling_bounded lib fuel (os w) ->
   exists out w',
     Demo.pair lib bufs fuel i compressed (pubkey_len_of compressed) w
     = Some (out, w'))
  /\ (forall out w',
         Demo.pair lib bufs fuel i compressed (pubkey_len_of compressed) w
         = Some (out, w') ->
         (exists gres,
             out = [Demo.ErrGenerateFailed gres i]
             /\ (gres = -2 \/ gres = -3 \/ gres = -5)
             /\ load_bytes (mem w') (Demo.privkey bufs) 32
                = load_bytes (mem w) (Demo.privkey bufs) 32)
         \/ (exists h1 h2,
                out = [Demo.PrPrivateKey i; Demo.PrHex h1;
                       Demo.PrPublicKey i; Demo.PrHex h2;
                       Demo.PrDerivedPublicKey i; Demo.PrHex h2;
                       Demo.PrMatch i]
                /\ load_bytes (mem w') (Demo.privkey bufs) 32 = zeros 32
                /\ load_bytes (mem w') (Demo.pubkey bufs) 65 = zeros 65
                /\ load_bytes (mem w') (Demo.derived_pubkey bufs) 65
                   = zeros 65)).
Proof.
  intros Hlib Hbufs Hc. split.
  - intros Hav Hb.
    destruct (demo_pair_ends lib bufs fuel i compressed
                (pubkey_len_of compressed) w Hav Hb) as (out & w' & H & _).
    now exists out, w'.
  - intros out w'. apply demo_pair_outcome_shared; assumption.
Qed.

Lemma demo_iteration_outcome_witness :
  exists out w',
    Demo.pair (toy all_ok) toy_bufs 2 0 1 (pubkey_len_of 1) w_second_draw
    = Some (out, w')
    /\ In (Demo.PrMatch 0) out
    /\ load_bytes (mem w') 100 32 = zeros 32.
Proof.
  destruct (demo_iteration_outcome (toy all_ok) toy_bufs 2 0 1 w_second_draw
              (toy_context_independent all_ok) toy_bufs_separate
              (or_intror eq_refl)) as [Hends Hout].
  destruct (Hends second_draw_available (second_draw_bounded all_ok))
    as (out & w' & E).
  exists out, w'. split; [exact E|].
  destruct (Hout out w' E)
    as [(gres & Eout & _)|(h1 & h2 & Eout & Hp & _)].
  - exfalso. rewrite Eout in E. vm_compute in E. discriminate E.
  - split; [rewrite Eout; cbn; tauto | exact Hp].
Defined.

(** ** The loop of main *)

Lemma demo_pairs_shared (lib : libsecp256k1) (bufs : Demo.buffers)
  (fuel : nat) (compressed : Z) :
  context_independent lib ->
  separate bufs ->
  compressed = 0 \/ compressed = 1 ->
  forall (n : nat) (i : Z) (w : world) (out : list Demo.printed) (w' : world),
    Demo.pairs lib bufs fuel n i compressed (pubkey_len_of compressed) w
    = Some (out, w') ->
    Forall expected_line out
    /\ length (filter reports out) = n
    /\ (load_bytes (mem w') (Demo.privkey bufs) 32 = zeros 32
        \/ load_bytes (mem w') (Demo.privkey bufs) 32
           = load_bytes (mem w) (Demo.privkey bufs) 32).
Proof.
  intros Hlib Hbufs Hc.
  induction n as [|n IH]; intros i w out w' H; cbn [Demo.pairs] in H.
  - inversion H; subst. cbn. auto.
  - destruct (Demo.pair lib bufs fuel i compressed (pubkey_len_of compressed) w)
      as [[out1 w1]|] eqn:E1; [|discriminate].
    destruct (Demo.pairs lib bufs fuel n (i + 1) compressed
                (pubkey_len_of compressed) w1)
      as [[outs w2]|] eqn:E2; [|discriminate].
    inversion H; subst out w'; clear H.
    destruct (IH _ _ _ _ E2) as (F2 & N2 & M2).
    destruct (demo_pair_outcome_shared lib bufs fuel Hlib Hbufs i compressed
                w out1 w1 Hc E1)
      as [(gres & -> & Hg & Hm)|(h1 & h2 & -> & Hp & _)].
    + split; [|split].
      * constructor; [exact Hg | exact F2].
      * cbn. now rewrite N2.
      * destruct M2 as [M2|M2]; [left; exact M2 | right; congruence].
    + split; [|split].
      * repeat (constructor; [exact I|]). exact F2.
      * cbn. now rewrite N2.
      * destruct M2 as [M2|M2]; [left; exact M2 | left; congruence].
Qed.

(** X20. The loop of the demo, under the same assumptions. It ends, with
    fuel for [fuel] draws in each iteration, when getrandom is implemented
    and never delivers [fuel] rejected candidates in a row. Whenever it
    ends, it has reported one outcome for each of its [n] iterations, a
    failed generation having ended one iteration and not the loop; no line
    reports a mismatch or a failed derivation, a failed generation is
    reported with -2, -3 or -5, and the private-key array holds zeros or
    what it held before the loop. *)
Theorem demo_loop_reports_each_pair (lib : libsecp256k1)
  (bufs : Demo.buffers) (fuel n : nat) (i compressed : Z) (w : world) :
  context_independent lib ->
  separate bufs ->
  compressed = 0 \/ compressed = 1 ->
  (getrandom_available (os w) -> sampling_bounded lib fuel (os w) ->
   exists out w',
     Demo.pairs lib bufs fuel n i compressed (pubkey_len_of compressed) w
     = Some (out, w'))
  /\ (forall out w',
         Demo.pairs lib bufs fuel n i compressed (pubkey_len_of compressed) w
         = Some (out, w') ->
         Forall expected_line out
         /\ length (filter reports out) = n
         /\ (load_bytes (mem w') (Demo.privkey bufs) 32 = zeros 32
             \/ load_bytes (mem w') (Demo.privkey bufs) 32
                = load_bytes (mem w) (Demo.privkey bufs) 32)).
Proof.
  intros Hlib Hbufs Hc. split.
  - intros Hav Hb. now apply demo_pairs_ends.
  - intros out w'. apply demo_pairs_shared; assumption.
Qed.

Lemma demo_loop_reports_each_pair_witness :
  exists out w',
    Demo.pairs (toy all_ok) toy_bufs 2 2 0 0 (pubkey_len_of 0) w_one_pair
    = Some (out, w')
    /\ Forall expected_line out
    /\ length (filter reports out) = 2%nat.
Proof.
  destruct (demo_loop_reports_each_pair (toy all_ok) toy_bufs 2 2 0 0
              w_one_pair (toy_context_independent all_ok)
              toy_bufs_separate (or_introl eq_refl)) as [Hends Hout].
  destruct (Hends one_pair_available (one_pair_bounded all_ok))
    as (out & w' & E).
  exists out, w'. split; [exact E|].
  destruct (Hout out w' E) as (F & N & _).
  split; assumption.
Defined.

(** ** main *)

Lemma parse_compressed_arg_flag (s : option (list byte)) :
  Demo.parse_compressed_arg s 1 = 0 \/ Demo.parse_compressed_arg s 1 = 1.
Proof.
  unfold Demo.parse_compressed_arg. destruct s as [s|]; [|auto].
  destruct (Libc.strlen s =? 1);
    repeat match goal with
           | |- context [if ?b then _ else _] => destruct b
           end; auto.
Qed.

(** X21. The demo's main, under the same assumptions. It returns, with
    fuel for [fuel] draws in each iteration, when getrandom is implemented
    and never delivers [fuel] rejected candidates in a row. Whenever it
    returns, it returns 0, whatever failed; the number of pairs is the
    first argument's value when that is positive and 2 otherwise; the key
    format is 0 or 1 whatever the second argument says and the announced
    length is the one of that format; after the two header lines comes one
    outcome for each pair, none of them a mismatch or a failed
    derivation. *)
Theorem demo_main_outcome (lib : libsecp256k1) (atoi : list byte -> Z)
  (bufs : Demo.buffers) (fuel : nat) (argv : list (list byte)) (w : world) :
  context_independent lib ->
  separate bufs ->
  (getrandom_available (os w) -> sampling_bounded lib fuel (os w) ->
   exists out w', Demo.main lib atoi bufs fuel argv w = Some (0, out, w'))
  /\ (forall ret out w',
         Demo.main lib atoi bufs fuel argv w = Some (ret, out, w') ->
         ret = 0
         /\ exists pairs_qty compressed rest,
              out = Demo.PrVersion secp256k1_wrapper_get_version
                    :: Demo.PrGenerating pairs_qty compressed
                         (pubkey_len_of compressed)
                    :: rest
              /\ pairs_qty
                 = (if (2 <=? Z.of_nat (length argv))
                       && (0 <? atoi (nth 1 argv []))
                    then atoi (nth 1 argv []) else 2)
              /\ (compressed = 0 \/ compressed = 1)
              /\ (Z.of_nat (length argv) < 3 -> compressed = 1)
              /\ Forall expected_line rest
              /\ Z.of_nat (length (filter reports rest)) = pairs_qty).
Proof.
  intros Hlib Hbufs. split.
  - intros Hav Hb. unfold Demo.main.
    match goal with
    | |- context [Demo.pairs lib bufs fuel ?n ?i ?c ?len w] =>
        destruct (demo_pairs_ends lib bufs fuel c len n i w Hav Hb)
          as (out & w' & H); rewrite H
    end.
    do 2 eexists. reflexivity.
  - intros ret out w'. unfold Demo.main.
    set (argc := Z.of_nat (length argv)).
    set (pairs_qty := if argc >=? 2 then _ else _).
    set (compressed := if argc >=? 3 then _ else _).
    change (if compressed =? 0 then PUBKEY_UNCOMPRESSION_SIZE
            else PUBKEY_COMPRESSION_SIZE) with (pubkey_len_of compressed).
    assert (Hc : compressed = 0 \/ compressed = 1).
    { unfold compressed. destruct (argc >=? 3); [|auto].
      apply parse_compressed_arg_flag. }
    assert (Hc3 : argc < 3 -> compressed = 1).
    { intros Hlt. unfold compressed.
      destruct (argc >=? 3) eqn:E; [|reflexivity].
      apply Z.geb_le in E. lia. }
    assert (Hq : pairs_qty
                 = if (2 <=? argc) && (0 <? atoi (nth 1 argv []))
                   then atoi (nth 1 argv []) else 2).
    { unfold pairs_qty. rewrite Z.geb_leb, Z.gtb_ltb.
      destruct (2 <=? argc); reflexivity. }
    assert (Hpos : 0 < pairs_qty).
    { rewrite Hq. destruct (2 <=? argc); cbn [andb]; [|lia].
      destruct (0 <? atoi (nth 1 argv [])) eqn:E; [|lia].
      now apply Z.ltb_lt in E. }
    destruct (Demo.pairs lib bufs fuel (Z.to_nat pairs_qty) 0 compressed
                (pubkey_len_of compressed) w) as [[rest w1]|] eqn:E;
      [|discriminate].
    intros H. inversion H; subst ret out w'; clear H.
    split; [reflexivity|].
    destruct (demo_pairs_shared lib bufs fuel compressed Hlib Hbufs Hc
                _ _ _ _ _ E) as (F & N & _).
    exists pairs_qty, compressed, rest.
    split; [reflexivity|]. split; [exact Hq|]. split; [exact Hc|].
    split; [exact Hc3|]. split; [exact F|]. rewrite N. lia.
Qed.

Lemma demo_main_outcome_witness :
  exists out w',
    Demo.main (toy all_ok) (fun _ => 1) toy_bufs 2
      [["d"%byte]; ["1"%byte]; ["U"%byte]] w_one_pair
    = Some (0, out, w')
    /\ In (Demo.PrMatch 0) out.
Proof.
  destruct (demo_main_outcome (toy all_ok) (fun _ => 1) toy_bufs 2
              [["d"%byte]; ["1"%byte]; ["U"%byte]] w_one_pair
              (toy_context_independent all_ok) toy_bufs_separate)
    as [Hends _].
  destruct (Hends one_pair_available (one_pair_bounded all_ok))
    as (out & w' & E).
  exists out, w'. split; [exact E|].
  vm_compute in E. inversion E. cbn. tauto.
Defined.

(** * The /dev/urandom descriptor *)

Lemma read_loop_closes (fuel : nat) :
  forall w data size off r data' w',
    read_loop fuel w data size off = Some (r, data', w') ->
    exists reads,
      Forall is_read reads /\ trace w' = trace w ++ reads ++ [EvClose].
Proof.
  induction fuel as [|fuel IH]; intros w data size off r data' w' H;
    cbn [read_loop] in H; destruct (off <? size).
  - discriminate.
  - inversion H; subst. exists []. split; [constructor | reflexivity].
  - destruct (sys_read w (size - off)) as [[[n e] got] w1] eqn:Erd.
    assert (T1 : trace w1 = trace w ++ [EvRead (size - off)]).
    { replace w1 with (snd (sys_read w (size - off))) by now rewrite Erd.
      reflexivity. }
    destruct (n <=? 0).
    + inversion H; subst. exists [EvRead (size - off)].
      split; [repeat constructor|].
      cbn [sys_close log trace]. rewrite T1, <- app_assoc. reflexivity.
    + apply IH in H. destruct H as (reads & F & T).
      exists (EvRead (size - off) :: reads).
      split; [constructor; [exact I | exact F]|].
      rewrite T, T1, <- app_assoc. reflexivity.
  - inversion H; subst. exists []. split; [constructor | reflexivity].
Qed.

(** X22. The system calls of secp256k1_wrapper_fill_random, Linux/FreeBSD
    branch, after its one getrandom: /dev/urandom is opened exactly when
    getrandom failed with ENOSYS; when the open fails nothing is read or
    closed and the result is 0; when it succeeds the descriptor is closed
    once, as the last call, whatever the reads did, and all reads lie
    between the open and the close. *)
Theorem fill_random_closes_descriptor (w : world) (data : list byte)
  (size r : Z) (data' : list byte) (w' : world) :
  secp256k1_wrapper_fill_random w data size = Some (r, data', w') ->
  exists tail,
    trace w' = trace w ++ EvGetrandom size :: tail
    /\ ((os_getrandom (os w) O <> SysErr ENOSYS /\ tail = [])
        \/ (os_getrandom (os w) O = SysErr ENOSYS
            /\ os_open (os w) O < 0 /\ tail = [EvOpen] /\ r = 0)
        \/ (os_getrandom (os w) O = SysErr ENOSYS
            /\ 0 <= os_open (os w) O
            /\ exists reads,
                 Forall is_read reads /\ tail = EvOpen :: reads ++ [EvClose])).
Proof.
  unfold secp256k1_wrapper_fill_random. rewrite sys_getrandom_eq.
  set (w1 := snd (sys_getrandom w size)).
  assert (T1 : trace w1 = trace w ++ [EvGetrandom size]) by reflexivity.
  assert (O1 : os_open (os w1) O = os_open (os w) O) by reflexivity.
  destruct (os_getrandom (os w) O) as [e|chunk] eqn:Egr; cbn [transfer].
  - cbn [Z.eqb andb Pos.eqb]. destruct (e =? ENOSYS) eqn:Ee.
    + apply Z.eqb_eq in Ee. subst e.
      rewrite sys_open_eq. set (w2 := snd (sys_open w1)).
      assert (T2 : trace w2 = trace w1 ++ [EvOpen]) by reflexivity.
      rewrite O1. destruct (os_open (os w) O <? 0) eqn:Efd.
      * apply Z.ltb_lt in Efd. intros H. inversion H; subst.
        exists [EvOpen]. split.
        { rewrite T2, T1, <- app_assoc. reflexivity. }
        right. left. auto.
      * apply Z.ltb_ge in Efd. intros H.
        apply read_loop_closes in H. destruct H as (reads & F & T).
        exists (EvOpen :: reads ++ [EvClose]). split.
        { rewrite T, T2, T1, <- !app_assoc. reflexivity. }
        right. right. split; [reflexivity|]. split; [exact Efd|].
        exists reads. auto.
    + apply Z.eqb_neq in Ee. intros H. inversion H; subst.
      exists []. split; [exact T1|]. left. split; [congruence | reflexivity].
  - cbv zeta. set (got := firstn (Z.to_nat size) chunk).
    replace (Z.of_nat (length got) =? -1) with false
      by (symmetry; apply Z.eqb_neq; lia).
    cbn [andb]. intros H. inversion H; subst.
    exists []. split; [exact T1|]. left. split; [discriminate | reflexivity].
Qed.

Lemma fill_random_closes_descriptor_witness :
  exists r data' w' reads,
    secp256k1_wrapper_fill_random w_enosys (zeros 32) 32 = Some (r, data', w')
    /\ trace w'
       = trace w_enosys ++ EvGetrandom 32 :: EvOpen :: reads ++ [EvClose].
Proof.
  destruct (secp256k1_wrapper_fill_random w_enosys (zeros 32) 32)
    as [[[r data'] w']|] eqn:E; [|vm_compute in E; discriminate E].
  destruct (fill_random_closes_descriptor w_enosys (zeros 32) 32 r data' w' E)
    as (tail & T & [(Hgr & _)|[(_ & Hfd & _)|(_ & _ & reads & _ & Htail)]]).
  - exfalso. apply Hgr. reflexivity.
  - exfalso. vm_compute in Hfd. discriminate Hfd.
  - exists r, data', w', reads. split; [reflexivity|]. now rewrite T, Htail.
Defined.
